(** * prjman: registrar, git source codec and workspace reconciliation

    A shallow embedding of
    - [src/prjman/defn/registrar.py] (the staged plugin registrar),
    - [src/project_patcher/metadata/files/git.py] (the git source codec),
    - [src/project_patcher/workspace/project.py] (the clean / working /
      patch / output directory choreography),
    together with the properties stated about them. *)

From Stdlib Require Import Ascii String DecimalNat.
From stdpp Require Import gmap strings list fin_maps sorting.

Open Scope string_scope.
Open Scope list_scope.
Open Scope nat_scope.

(** ** Python exceptions and results *)

(** The exception classes the modelled code raises, each with the message
    (or key, or path) it is raised with. *)
Inductive exn : Type :=
  | RegistryError (msg : string)
  | ValueError (msg : string)
  | KeyError (key : string)
  | FileNotFoundError (path : string)
  | FileExistsError (path : string)
  | IsADirectoryError (path : string)
  | NotADirectoryError (path : string)
  | UnicodeDecodeError
  | UnicodeEncodeError
  | PatchError (msg : string)
  | OtherError (msg : string).

(** Calls that mutate an object in place and may raise: the state that the
    call leaves behind is part of both outcomes. *)
Inductive outcome (S A : Type) : Type :=
  | Ok (a : A) (s : S)
  | Raise (e : exn) (s : S).
Arguments Ok {S A} a s.
Arguments Raise {S A} e s.

Definition M (S A : Type) : Type := S → outcome S A.

Definition ret {S A} (a : A) : M S A := λ s, Ok a s.
Definition raise {S A} (e : exn) : M S A := λ s, Raise e s.
Definition bind {S A B} (m : M S A) (k : A → M S B) : M S B :=
  λ s, match m s with
       | Ok a s' => k a s'
       | Raise e s' => Raise e s'
       end.
Definition get {S} : M S S := λ s, Ok s s.
Definition put {S} (s : S) : M S unit := λ _, Ok tt s.

#[global] Instance M_ret {S} : MRet (M S) := λ A, @ret S A.
#[global] Instance M_bind {S} : MBind (M S) := λ A B k m, @bind S A B m k.

(** Calls whose effect on failure is not tracked: an exception or a value. *)
Definition res (A : Type) : Type := exn + A.

#[global] Instance res_ret : MRet res := λ A, inr.
#[global] Instance res_bind : MBind res :=
  λ A B k m, match m with inl e => inl e | inr a => k a end.

Definition throw {A} (e : exn) : res A := inl e.

Definition state_of {S A} (o : outcome S A) : S :=
  match o with Ok _ s => s | Raise _ s => s end.

Definition is_ok {S A} (o : outcome S A) : bool :=
  match o with Ok _ _ => true | Raise _ _ => false end.

(** [c in s] for a character [c] and a string [s]. *)
Fixpoint contains_char (c : ascii) (s : string) : bool :=
  match s with
  | EmptyString => false
  | String c' s' => if decide (c = c') then true else contains_char c s'
  end.


(** ** Strings, slices and POSIX paths *)

Definition chars (s : string) : list ascii := list_ascii_of_string s.
Definition str (l : list ascii) : string := string_of_list_ascii l.

Definition LF : ascii := ascii_of_nat 10.
Definition CR : ascii := ascii_of_nat 13.
Definition slash : ascii := "/"%char.

(** [len(s)] *)
Definition len (s : string) : nat := length (chars s).

(** A slice bound [i] of Python, on a sequence of [n] items: a negative
    bound counts from the end, and bounds are clipped to [0..n]. *)
Definition slice_index (n : nat) (i : Z) : nat :=
  if decide (i < 0)%Z then Z.to_nat (Z.max (i + Z.of_nat n) 0)
  else Nat.min (Z.to_nat i) n.

(** [s[start:stop]], and [s[start:]] when [stop] is [None]. *)
Definition py_slice (s : string) (start : Z) (stop : option Z) : string :=
  let l := chars s in
  let lo := slice_index (length l) start in
  let hi := match stop with
            | Some j => slice_index (length l) j
            | None => length l
            end in
  str (take (hi - lo) (drop lo l)).

(** [s.startswith(t)] and [s.endswith(t)] *)
Definition startswith (s t : string) : bool :=
  bool_decide (chars t `prefix_of` chars s).
Definition endswith (s t : string) : bool :=
  bool_decide (chars t `suffix_of` chars s).

(** [os.sep] and [os.extsep] on POSIX *)
Definition sep : string := "/".
Definition extsep : string := ".".

(** [os.path.join(a, b)] of [posixpath] *)
Definition path_join (a b : string) : string :=
  if startswith b sep then b
  else if bool_decide (a = "") || endswith a sep then a +:+ b
  else a +:+ sep +:+ b.

(** The longest suffix that starts with a slash, and what precedes it. *)
Fixpoint from_slash (l : list ascii) : list ascii :=
  match l with
  | [] => []
  | c :: l' => if decide (c = slash) then l else from_slash l'
  end.
Fixpoint before_slash (l : list ascii) : list ascii :=
  match l with
  | [] => []
  | c :: l' => if decide (c = slash) then [] else c :: before_slash l'
  end.
Fixpoint lstrip_slash (l : list ascii) : list ascii :=
  match l with
  | [] => []
  | c :: l' => if decide (c = slash) then lstrip_slash l' else l
  end.
Definition all_slashes (l : list ascii) : bool :=
  forallb (λ c, bool_decide (c = slash)) l.

(** [os.path.dirname(p)] of [posixpath]: the part up to the last slash,
    without its trailing slashes unless it consists of slashes only. *)
Definition dirname (p : string) : string :=
  let head := from_slash (reverse (chars p)) in
  if all_slashes head then str (reverse head)
  else str (reverse (lstrip_slash head)).

(** [os.path.basename(p)] of [posixpath] *)
Definition basename (p : string) : string :=
  str (reverse (before_slash (reverse (chars p)))).

(** [d] followed by a separator is a proper beginning of [p]: the path [p]
    lies inside the directory [d]. *)
Definition under (d p : string) : Prop :=
  chars (d +:+ sep) `prefix_of` chars p.

#[global] Instance under_dec : RelDecision under.
Proof. intros d p. unfold under. apply _. Defined.

(** [p] is [d] itself or lies inside it. *)
Definition within (d p : string) : Prop := p = d ∨ under d p.

#[global] Instance within_dec : RelDecision within.
Proof. intros d p. unfold within. apply _. Defined.

(** Neither directory is the other or lies inside it. *)
Definition separate (a b : string) : Prop := ¬ within a b ∧ ¬ within b a.

(** A directory name as the callers pass it: not empty, without a trailing
    separator. *)
Definition tidy (d : string) : Prop := d ≠ "" ∧ endswith d sep = false.

(** A path without an empty component, as a directory walk produces them. *)
Fixpoint no_double_slash (l : list ascii) : bool :=
  match l with
  | c :: (c' :: _) as l' =>
      negb (bool_decide (c = slash) && bool_decide (c' = slash))
      && no_double_slash l'
  | _ => true
  end.

(** The newlines of a file read in text mode with the default
    [newline=None]: every ["\r\n"] and every lone ["\r"] becomes ["\n"].
    In UTF-8 the two bytes stand for themselves only, so the translation
    is the same on the bytes as on the text. *)
Fixpoint universal_newlines (l : list ascii) : list ascii :=
  match l with
  | [] => []
  | c :: rest =>
      if decide (c = CR) then
        LF :: match rest with
              | d :: rest' =>
                  if decide (d = LF) then universal_newlines rest'
                  else universal_newlines rest
              | [] => []
              end
      else c :: universal_newlines rest
  end.

(** The text that [read()] gives for bytes that decode; whether they do
    is [decode_text]'s to say. *)
Definition read_text (content : string) : string :=
  str (universal_newlines (chars content)).

(** *** Bytes and text

    A file holds bytes, one [ascii] each. A text, a Python [str], is held
    as the bytes of its UTF-8 encoding; a [str] that has no UTF-8
    encoding, one with a lone surrogate, as bytes that are not UTF-8. *)

(** The byte lies in [lo..hi]. *)
Definition in_range (lo hi : nat) (c : ascii) : bool :=
  Nat.leb lo (nat_of_ascii c) && Nat.leb (nat_of_ascii c) hi.

(** The bytes are well-formed UTF-8, as the strict decoder of Python takes
    them: no byte [C0], [C1] or above [F4], no overlong form, no
    surrogate, nothing above [U+10FFFF], no sequence cut short. *)
Fixpoint utf8_valid (l : list ascii) : bool :=
  match l with
  | [] => true
  | c :: rest =>
      if in_range 0 127 c then utf8_valid rest
      else if in_range 194 223 c then
        match rest with
        | c1 :: rest' => in_range 128 191 c1 && utf8_valid rest'
        | _ => false
        end
      else if in_range 224 239 c then
        match rest with
        | c1 :: c2 :: rest' =>
            (if in_range 224 224 c then in_range 160 191 c1
             else if in_range 237 237 c then in_range 128 159 c1
             else in_range 128 191 c1)
            && in_range 128 191 c2 && utf8_valid rest'
        | _ => false
        end
      else if in_range 240 244 c then
        match rest with
        | c1 :: c2 :: c3 :: rest' =>
            (if in_range 240 240 c then in_range 144 191 c1
             else if in_range 244 244 c then in_range 128 143 c1
             else in_range 128 191 c1)
            && in_range 128 191 c2 && in_range 128 191 c3
            && utf8_valid rest'
        | _ => false
        end
      else false
  end.

(** [file.read()] on a file opened in text mode with [encoding = 'UTF-8']:
    the bytes are decoded, which raises on bytes that are not UTF-8, and
    the newlines of the text are translated. *)
Definition decode_text (content : string) : res string :=
  if utf8_valid (chars content) then mret (read_text content)
  else throw UnicodeDecodeError.

(** [file.write(text)] on a file opened in text mode with
    [encoding = 'UTF-8']: the text is encoded, which raises on a text
    that has no UTF-8 encoding; on POSIX no newline is translated. *)
Definition encode_text (text : string) : res string :=
  if utf8_valid (chars text) then mret text
  else throw UnicodeEncodeError.
(** ** The registrar ([prjman/defn/registrar.py]) *)
Module Registrar.
Section registrar.

(** The registered values are opaque objects for the registrar. *)
Context {Codec Builder PostProcessor : Type}.

(** Modelled from the spec: the exception class that [Registry] (declared
    in [prjman/struct/registry.py]) raises when a name is inserted twice.
    The spec only says that a Registry rejects duplicate insertion. *)
Variable registry_duplicate : string → exn.

(** Modelled from the spec: [Registry] of [prjman/struct/registry.py], "a
    mapping from unique string identifiers to values, rejecting duplicate
    insertion". [registry_setitem] is [registry[name] = value]. *)
Definition registry_setitem {V} (name : string) (v : V)
    (r : gmap string V) : exn + gmap string V :=
  if decide (name ∈ dom r) then inl (registry_duplicate name)
  else inr (<[name := v]> r).

Record PrjmanRegistrarImpl : Type := mkRegistrar {
  stager : nat;
  file_codecs : gmap string Codec;
  file_builders : gmap string Builder;
  file_handler_exceptions : gmap string string;
  post_processors : gmap string PostProcessor;
  post_processor_exceptions : gmap string string
}.

(** [__init__] *)
Definition init : PrjmanRegistrarImpl :=
  {| stager := 0;
     file_codecs := ∅; file_builders := ∅; file_handler_exceptions := ∅;
     post_processors := ∅; post_processor_exceptions := ∅ |}.

Definition set_file_codecs r (s : PrjmanRegistrarImpl) :=
  mkRegistrar (stager s) r (file_builders s) (file_handler_exceptions s)
              (post_processors s) (post_processor_exceptions s).
Definition set_file_builders r (s : PrjmanRegistrarImpl) :=
  mkRegistrar (stager s) (file_codecs s) r (file_handler_exceptions s)
              (post_processors s) (post_processor_exceptions s).
Definition set_file_handler_exceptions r (s : PrjmanRegistrarImpl) :=
  mkRegistrar (stager s) (file_codecs s) (file_builders s) r
              (post_processors s) (post_processor_exceptions s).
Definition set_post_processors r (s : PrjmanRegistrarImpl) :=
  mkRegistrar (stager s) (file_codecs s) (file_builders s)
              (file_handler_exceptions s) r (post_processor_exceptions s).
Definition set_post_processor_exceptions r (s : PrjmanRegistrarImpl) :=
  mkRegistrar (stager s) (file_codecs s) (file_builders s)
              (file_handler_exceptions s) (post_processors s) r.

(** [self.<field>[name] = value] on one of the five registries. *)
Definition setitem {V} (field : PrjmanRegistrarImpl → gmap string V)
    (update : gmap string V → PrjmanRegistrarImpl → PrjmanRegistrarImpl)
    (name : string) (v : V) : M PrjmanRegistrarImpl unit :=
  λ s, match registry_setitem name v (field s) with
       | inl e => Raise e s
       | inr r => Ok tt (update r s)
       end.

Definition frozen_msg (name : string) : string :=
  name +:+ " could not be registered; the registry has been frozen.".
Definition naming_msg (name : string) : string :=
  name +:+ " must contain a ':', "
       +:+ "where the prefix represents a unique identifier for the group of scripts.".
Definition duplicate_msg (name registry_type : string) : string :=
  name +:+ " already has a registered " +:+ registry_type +:+ ".".
Definition registered_msg (name : string) : string :=
  name +:+ " is registered, a message handler is not needed.".

(** [__check_preconditions] *)
Definition check_preconditions {V} (name : string)
    (registry : PrjmanRegistrarImpl → gmap string V)
    (registry_type : string) : M PrjmanRegistrarImpl unit :=
  λ s,
    if decide (1 < stager s) then
      Raise (RegistryError (frozen_msg name)) s
    else if bool_decide (0 < stager s) && negb (contains_char ":" name) then
      Raise (ValueError (naming_msg name)) s
    else if decide (name ∈ dom (registry s)) then
      Raise (ValueError (duplicate_msg name registry_type)) s
    else Ok tt s.

Definition register_file_handler (name : string) (codec : Codec)
    (builder : Builder) : M PrjmanRegistrarImpl unit :=
  check_preconditions name file_codecs "file handler" ;;
  setitem file_codecs set_file_codecs name codec ;;
  setitem file_builders set_file_builders name builder.

Definition add_file_handler_missing_message (name message : string)
    : M PrjmanRegistrarImpl unit :=
  check_preconditions name file_handler_exceptions "message" ;;
  s ← get;
  (if decide (name ∈ dom (file_codecs s))
   then raise (ValueError (registered_msg name))
   else setitem file_handler_exceptions set_file_handler_exceptions
          name message).

Definition register_post_processor (name : string)
    (post_processor : PostProcessor) : M PrjmanRegistrarImpl unit :=
  check_preconditions name post_processors "post processor" ;;
  setitem post_processors set_post_processors name post_processor.

Definition add_post_processor_missing_message (name message : string)
    : M PrjmanRegistrarImpl unit :=
  check_preconditions name post_processor_exceptions "message" ;;
  s ← get;
  (if decide (name ∈ dom (post_processors s))
   then raise (ValueError (registered_msg name))
   else setitem post_processor_exceptions set_post_processor_exceptions
          name message).

(** [stage] *)
Definition stage : M PrjmanRegistrarImpl unit :=
  λ s, Ok tt (mkRegistrar (stager s + 1) (file_codecs s) (file_builders s)
                (file_handler_exceptions s) (post_processors s)
                (post_processor_exceptions s)).

(** The four registration calls of the registrar's interface. *)
Inductive registration : Type :=
  | RegisterFileHandler (name : string) (codec : Codec) (builder : Builder)
  | AddFileHandlerMissingMessage (name message : string)
  | RegisterPostProcessor (name : string) (post_processor : PostProcessor)
  | AddPostProcessorMissingMessage (name message : string).

Definition registration_name (r : registration) : string :=
  match r with
  | RegisterFileHandler n _ _ | AddFileHandlerMissingMessage n _
  | RegisterPostProcessor n _ | AddPostProcessorMissingMessage n _ => n
  end.

Definition run_registration (r : registration)
    : M PrjmanRegistrarImpl unit :=
  match r with
  | RegisterFileHandler n c b => register_file_handler n c b
  | AddFileHandlerMissingMessage n m => add_file_handler_missing_message n m
  | RegisterPostProcessor n p => register_post_processor n p
  | AddPostProcessorMissingMessage n m =>
      add_post_processor_missing_message n m
  end.

(** The calls a client can make on a registrar. *)
Inductive call : Type :=
  | CStage
  | CRegister (r : registration).

Definition run_call (c : call) : M PrjmanRegistrarImpl unit :=
  match c with
  | CStage => stage
  | CRegister r => run_registration r
  end.

(** A history of calls on one registrar object; a call that raises leaves
    the object as the exception found it, and the client goes on. *)
Definition run_calls (cs : list call) (s : PrjmanRegistrarImpl)
    : PrjmanRegistrarImpl :=
  foldl (λ s c, state_of (run_call c s)) s cs.

(** The number of [stage()] calls in a history. *)
Fixpoint stage_calls (cs : list call) : nat :=
  match cs with
  | [] => 0
  | CStage :: cs => S (stage_calls cs)
  | CRegister _ :: cs => stage_calls cs
  end.

(** The name is already held by the registry the call writes to, or, for
    a message, by the registry of concrete registrations it consults. *)
Definition name_taken (r : registration) (s : PrjmanRegistrarImpl) : Prop :=
  match r with
  | RegisterFileHandler n _ _ => n ∈ dom (file_codecs s)
  | AddFileHandlerMissingMessage n _ =>
      n ∈ dom (file_handler_exceptions s) ∨ n ∈ dom (file_codecs s)
  | RegisterPostProcessor n _ => n ∈ dom (post_processors s)
  | AddPostProcessorMissingMessage n _ =>
      n ∈ dom (post_processor_exceptions s) ∨ n ∈ dom (post_processors s)
  end.

(** The two registries of a provider hold the same names. *)
Definition paired (s : PrjmanRegistrarImpl) : Prop :=
  dom (file_codecs s) =@{gset string} dom (file_builders s).

(** The state a successful registration leaves behind. *)
Definition registered (r : registration) (s : PrjmanRegistrarImpl) : PrjmanRegistrarImpl :=
  match r with
  | RegisterFileHandler n c b =>
      set_file_builders (<[n := b]> (file_builders s))
        (set_file_codecs (<[n := c]> (file_codecs s)) s)
  | AddFileHandlerMissingMessage n m =>
      set_file_handler_exceptions (<[n := m]> (file_handler_exceptions s)) s
  | RegisterPostProcessor n p =>
      set_post_processors (<[n := p]> (post_processors s)) s
  | AddPostProcessorMissingMessage n m =>
      set_post_processor_exceptions
        (<[n := m]> (post_processor_exceptions s)) s
  end.

(** Provider and post-processor registrations, as opposed to messages. *)
Definition is_concrete (r : registration) : bool :=
  match r with
  | RegisterFileHandler _ _ _ | RegisterPostProcessor _ _ => true
  | _ => false
  end.

(** The "missing" message registration for the name and kind of [r]. *)
Definition message_for (r : registration) (message : string) : registration :=
  match r with
  | RegisterFileHandler n _ _ | AddFileHandlerMissingMessage n _ =>
      AddFileHandlerMissingMessage n message
  | RegisterPostProcessor n _ | AddPostProcessorMissingMessage n _ =>
      AddPostProcessorMissingMessage n message
  end.

(** The errors that tell that the name is taken. *)
Definition taken_errors (r : registration) : list exn :=
  match r with
  | RegisterFileHandler n _ _ =>
      [ValueError (duplicate_msg n "file handler")]
  | RegisterPostProcessor n _ =>
      [ValueError (duplicate_msg n "post processor")]
  | AddFileHandlerMissingMessage n _ | AddPostProcessorMissingMessage n _ =>
      [ValueError (duplicate_msg n "message");
       ValueError (registered_msg n)]
  end.

(** Modelled from the spec: the exception that a [Registry] raises when it
    is read at a name it does not hold. The spec only says that a Registry
    is a mapping from names to values. *)
Variable registry_missing : string → exn.

(** [registry[name]] *)
Definition registry_getitem {V} (name : string) (r : gmap string V)
    : exn + V :=
  match r !! name with
  | Some v => inr v
  | None => inl (registry_missing name)
  end.

(** [self.<field>[name]] on one of the five registries. *)
Definition getitem {V} (field : PrjmanRegistrarImpl → gmap string V)
    (name : string) : M PrjmanRegistrarImpl V :=
  λ s, match registry_getitem name (field s) with
       | inl e => Raise e s
       | inr v => Ok v s
       end.

Definition get_project_file_codec (name : string)
    : M PrjmanRegistrarImpl Codec :=
  getitem file_codecs name.

Definition get_project_file_builder (name : string)
    : M PrjmanRegistrarImpl Builder :=
  getitem file_builders name.

Definition get_post_processor (name : string)
    : M PrjmanRegistrarImpl PostProcessor :=
  getitem post_processors name.

(** [get_available_builders]: the keys of the builder registry, as the set
    of names; the order in which [keys()] lists them is not modelled. *)
Definition get_available_builders : M PrjmanRegistrarImpl (gset string) :=
  λ s, Ok (dom (file_builders s)) s.

(** The names held by any of the five registries. *)
Definition names (s : PrjmanRegistrarImpl) : gset string :=
  dom (file_codecs s) ∪ dom (file_builders s)
  ∪ dom (file_handler_exceptions s)
  ∪ dom (post_processors s) ∪ dom (post_processor_exceptions s).

(** The stage and the name let the registration through, and the name is
    free. *)
Definition accepted (r : registration) (s : PrjmanRegistrarImpl) : Prop :=
  stager s ≤ 1
  ∧ (stager s = 0 ∨ contains_char ":" (registration_name r) = true)
  ∧ ¬ name_taken r s.

(** The errors of the registrar for a registration. *)
Definition registration_errors (r : registration) : list exn :=
  RegistryError (frozen_msg (registration_name r))
  :: ValueError (naming_msg (registration_name r))
  :: taken_errors r.

(** The set-up functions of the five internal plug-in modules and the
    loader of the dynamic scripts of the configuration; each receives the
    registrar. Their modules are not among the sources: they are any
    computations on the registrar. *)
Variables file_osf_setup file_url_setup file_git_setup
  post_unpack_setup post_notebook_setup : M PrjmanRegistrarImpl unit.
Variable load_dynamic_scripts : M PrjmanRegistrarImpl nat.

(** [setup], on the module's registrar; the assignment to the metadata
    codec and the calls of the logger leave the registrar alone. *)
Definition setup : M PrjmanRegistrarImpl unit :=
  file_osf_setup ;;
  file_url_setup ;;
  file_git_setup ;;
  post_unpack_setup ;;
  post_notebook_setup ;;
  stage ;;
  loaded_scripts ← load_dynamic_scripts;
  stage.

(** A computation on the registrar that never calls [stage()]. *)
Definition keeps_stage {A} (f : M PrjmanRegistrarImpl A) : Prop :=
  ∀ s, stager (state_of (f s)) = stager s.

End registrar.

Arguments PrjmanRegistrarImpl : clear implicits.
Arguments registration : clear implicits.
Arguments call : clear implicits.

(** Concrete registrars: the registered objects are tokens, and the
    Registry's own duplicate error is a [ValueError]. *)
Definition dup (name : string) : exn := ValueError name.

Definition internal_history : list (call unit unit unit) :=
  [ CRegister (RegisterFileHandler "git" tt tt);
    CRegister (AddFileHandlerMissingMessage "osf" "install osfclient") ].

Definition dynamic_history : list (call unit unit unit) :=
  internal_history ++ [ CStage ].

Definition frozen_history : list (call unit unit unit) :=
  dynamic_history ++ [ CRegister (RegisterPostProcessor "ext:strip" tt);
                       CStage ].

(** Concrete plug-ins for a registrar of tokens. *)
Definition missing (name : string) : exn := KeyError name.

Definition git_plugin : M (PrjmanRegistrarImpl unit unit unit) unit :=
  register_file_handler dup "git" tt tt.

Definition osf_plugin : M (PrjmanRegistrarImpl unit unit unit) unit :=
  add_file_handler_missing_message dup "osf" "install osfclient".

Definition unpack_plugin : M (PrjmanRegistrarImpl unit unit unit) unit :=
  register_post_processor dup "unpack" tt.

Definition no_plugin : M (PrjmanRegistrarImpl unit unit unit) unit :=
  ret tt.

Definition one_script : M (PrjmanRegistrarImpl unit unit unit) nat :=
  register_post_processor dup "ext:strip" tt ;; ret 1.

End Registrar.

(** ** The git source codec ([project_patcher/metadata/files/git.py]) *)
Module Git.

(** The values a decoded JSON document holds at a key, as far as the
    codec looks at them. *)
Inductive pyval : Type :=
  | PNone
  | PBool (b : bool)
  | PInt (z : Z)
  | PStr (s : string).

#[global] Instance pyval_eq_dec : EqDecision pyval.
Proof. solve_decision. Defined.

(** [DictObject] *)
Abbreviation DictObject := (gmap string pyval).

(** [_VALID_BRANCH_TYPES], a Python [set] of three strings. *)
Definition _VALID_BRANCH_TYPES : gset string :=
  {[ "branch"; "commit"; "tag" ]}.

(** The order in which the three keys are written in the set display. *)
Definition declared_order : list string := ["branch"; "commit"; "tag"].

(** A Python [set] has no order of its own: iterating it yields its
    elements once each, in an order that depends on the hashes of the
    strings, which CPython salts per process. An iteration order of
    [_VALID_BRANCH_TYPES] is any duplicate-free listing of it. *)
Definition iteration_order (order : list string) : Prop :=
  order ≡ₚ elements _VALID_BRANCH_TYPES.

Record GitProjectFile : Type := mkGitProjectFile {
  dir : string;
  repository : pyval;
  branch : pyval;
  branch_type : string
}.

#[global] Instance GitProjectFile_eq_dec : EqDecision GitProjectFile.
Proof. solve_decision. Defined.

(** [os.curdir] *)
Definition curdir : string := ".".

Definition dquote : string := String (ascii_of_nat 34) EmptyString.

(** [", ".join(xs)] *)
Fixpoint join_comma (xs : list string) : string :=
  match xs with
  | [] => ""
  | [x] => x
  | x :: rest => x +:+ ", " +:+ join_comma rest
  end.

(** The message of the [ValueError] of [__init__]; the backslash at the end
    of the source line continues the literal with the next line's
    indentation. *)
Definition invalid_branch_type_msg (order : list string)
    (branch_type : string) : string :=
  dquote +:+ branch_type +:+ dquote +:+ " is not a valid branch type. "
    +:+ "                Specify one of the following: "
    +:+ join_comma order.

(** [GitProjectFile.__init__]; [order] is the iteration order of
    [_VALID_BRANCH_TYPES], which the error message lists. *)
Definition GitProjectFile_init (order : list string)
    (repository : pyval) (branch : pyval) (branch_type : string)
    (dir : string) : res GitProjectFile :=
  if decide (branch_type ∈ _VALID_BRANCH_TYPES)
  then mret (mkGitProjectFile dir repository branch branch_type)
  else throw (ValueError (invalid_branch_type_msg order branch_type)).

(** Modelled from the spec: [get_default(GitProjectFile, 'branch')] of
    [project_patcher/utils.py], the declared default of the [branch]
    parameter of [__init__], which is [None]. *)
Definition get_default_branch : pyval := PNone.

(** [obj[key]] on a dict *)
Definition getitem (obj : DictObject) (key : string) : res pyval :=
  match obj !! key with
  | Some v => mret v
  | None => throw (KeyError key)
  end.

(** [GitProjectFileCodec.encode_type] *)
Definition encode_type (obj : GitProjectFile) (dict_obj : DictObject)
    : DictObject :=
  let dict_obj := <["repository" := repository obj]> dict_obj in
  if decide (branch obj ≠ get_default_branch)
  then <[branch_type obj := branch obj]> dict_obj
  else dict_obj.

(** The loop of [decode_type] over the keys that remain to be tested. *)
Fixpoint decode_loop (order : list string) (remaining : list string)
    (dir : string) (obj : DictObject) : res GitProjectFile :=
  match remaining with
  | branch_name :: remaining' =>
      if decide (branch_name ∈ dom obj) then
        repo ← getitem obj "repository";
        b ← getitem obj branch_name;
        GitProjectFile_init order repo b branch_name dir
      else decode_loop order remaining' dir obj
  | [] =>
      repo ← getitem obj "repository";
      GitProjectFile_init order repo PNone "branch" dir
  end.

(** [GitProjectFileCodec.decode_type], run in a process where iterating
    [_VALID_BRANCH_TYPES] yields [order]. *)
Definition decode_type (order : list string) (dir : string)
    (obj : DictObject) : res GitProjectFile :=
  decode_loop order order dir obj.

(** A document that names both a branch and a tag. *)
Definition branch_and_tag : DictObject :=
  <["repository" := PStr "https://example.org/project.git"]>
    (<["branch" := PStr "main"]> (<["tag" := PStr "v1.0"]> ∅)).

(** A document that names a commit only. *)
Definition commit_only : DictObject :=
  <["repository" := PStr "https://example.org/project.git"]>
    (<["commit" := PStr "0a1b2c3"]> ∅).

(** An iteration order of the set other than the written one. *)
Definition other_order : list string := ["tag"; "commit"; "branch"].

(** A descriptor checked out at a tag. *)
Definition tagged : GitProjectFile :=
  mkGitProjectFile "src" (PStr "https://example.org/project.git")
    (PStr "v1.0") "tag".

End Git.

(** ** The patcher ([project_patcher/workspace/patcher.py]) *)
Module Patcher.

(** [patcher.py] is not among the sources. Its two functions are modelled
    from the specification: a patch is a text in the style of a unified
    diff, it is empty when the two contents are equal, and a patch whose
    expectations the target content does not meet fails to apply. *)

(** The lines of a text, each with its line end; the last line may lack
    one. *)
Fixpoint splitlines (l : list ascii) : list (list ascii) :=
  match l with
  | [] => []
  | c :: l' =>
      if decide (c = LF) then [c] :: splitlines l'
      else match splitlines l' with
           | [] => [[c]]
           | line :: lines => (c :: line) :: lines
           end
  end.

(** Decimal numerals *)
Fixpoint digits (u : Decimal.uint) : list ascii :=
  match u with
  | Decimal.Nil => []
  | Decimal.D0 u => "0"%char :: digits u
  | Decimal.D1 u => "1"%char :: digits u
  | Decimal.D2 u => "2"%char :: digits u
  | Decimal.D3 u => "3"%char :: digits u
  | Decimal.D4 u => "4"%char :: digits u
  | Decimal.D5 u => "5"%char :: digits u
  | Decimal.D6 u => "6"%char :: digits u
  | Decimal.D7 u => "7"%char :: digits u
  | Decimal.D8 u => "8"%char :: digits u
  | Decimal.D9 u => "9"%char :: digits u
  end.

Definition decimal (n : nat) : list ascii := digits (Nat.to_uint n).

Fixpoint read_digits (acc : nat) (l : list ascii) : nat * list ascii :=
  match l with
  | c :: l' =>
      match Ascii.is_nat c with
      | Some d => read_digits (d + 10 * acc) l'
      | None => (acc, l)
      end
  | [] => (acc, [])
  end.

(** A numeral at the start of [l], and what follows it. *)
Definition read_nat (l : list ascii) : option (nat * list ascii) :=
  match l with
  | c :: _ =>
      if Ascii.is_nat c is Some _ then Some (read_digits 0 l) else None
  | [] => None
  end.

(** [l] without the literal [lit] it starts with. *)
Fixpoint expect (lit l : list ascii) : option (list ascii) :=
  match lit, l with
  | [], _ => Some l
  | c :: lit', d :: l' => if decide (c = d) then expect lit' l' else None
  | _ :: _, [] => None
  end.

Definition TAB : ascii := ascii_of_nat 9.

(** The two lines that name the file. *)
Definition file_header (filename time : list ascii) : list (list ascii) :=
  [ chars "--- " ++ filename ++ [TAB] ++ time ++ [LF];
    chars "+++ " ++ filename ++ [TAB] ++ time ++ [LF] ].

(** The line that opens a hunk: where it starts and how many lines it
    takes, in the old and in the new text. *)
Definition hunk_header (start1 count1 start2 count2 : nat) : list ascii :=
  chars "@@ -" ++ decimal start1 ++ chars "," ++ decimal count1
    ++ chars " +" ++ decimal start2 ++ chars "," ++ decimal count2
    ++ chars " @@" ++ [LF].

Definition parse_hunk_header (l : list ascii)
    : option (nat * nat * nat * nat) :=
  l ← expect (chars "@@ -") l;
  '(start1, l) ← read_nat l;
  l ← expect (chars ",") l;
  '(count1, l) ← read_nat l;
  l ← expect (chars " +") l;
  '(start2, l) ← read_nat l;
  l ← expect (chars ",") l;
  '(count2, l) ← read_nat l;
  l ← expect (chars " @@" ++ [LF]) l;
  if decide (l = []) then Some (start1, count1, start2, count2) else None.

(** The line number a hunk carries for a range that starts after [k]
    lines: an empty range is numbered by the line before it. *)
Definition range_start (k count : nat) : nat :=
  if decide (count = 0) then k else k + 1.
Definition range_offset (start count : nat) : nat :=
  if decide (count = 0) then start else start - 1.

Definition no_eol : list ascii := chars "\ No newline at end of file" ++ [LF].

Definition ends_with_LF (line : list ascii) : bool :=
  bool_decide (last line = Some LF).

(** A removed or an added line in the body of a hunk; a line without line
    end is given one and is followed by the marker. *)
Definition emit (sign : ascii) (line : list ascii) : list (list ascii) :=
  if ends_with_LF line then [sign :: line]
  else [sign :: line ++ [LF]; no_eol].

Definition minus : ascii := "-"%char.
Definition plus : ascii := "+"%char.
Definition backslash : ascii := "\"%char.

(** The signed lines of the body of a hunk. *)
Fixpoint parse_body (lines : list (list ascii))
    : option (list (ascii * list ascii)) :=
  match lines with
  | [] => Some []
  | [] :: _ => None
  | (sign :: content) :: rest =>
      if bool_decide (sign = minus ∨ sign = plus) then
        match rest with
        | (c :: _) :: rest' =>
            if decide (c = backslash)
            then cons (sign, removelast content) <$> parse_body rest'
            else cons (sign, content) <$> parse_body rest
        | _ => cons (sign, content) <$> parse_body rest
        end
      else None
  end.

Definition signed (sign : ascii) (body : list (ascii * list ascii))
    : list (list ascii) :=
  snd <$> filter (λ sl, sl.1 = sign) body.

(** [create_patch(a, b, filename, time)]: nothing when the texts are equal;
    otherwise the file header and one hunk that replaces the lines between
    the longest common beginning and the longest common end of the two
    texts. *)
Definition create_patch (a b filename time : string) : string :=
  if decide (a = b) then ""
  else
    let '(rest_a, rest_b, common_start) :=
      max_prefix (splitlines (chars a)) (splitlines (chars b)) in
    let '(removed, added, common_end) := max_suffix rest_a rest_b in
    let k := length common_start in
    str (concat
      (file_header (chars filename) (chars time)
       ++ [hunk_header (range_start k (length removed)) (length removed)
                       (range_start k (length added)) (length added)]
       ++ (removed ≫= emit minus) ++ (added ≫= emit plus))).

(** [apply_patch(s, patch)]: an empty patch changes nothing; otherwise the
    removed lines must be found where the hunk says, and the added lines
    take their place. *)
Definition apply_patch (s patch : string) : res string :=
  if decide (patch = "") then mret s
  else
    match splitlines (chars patch) with
    | from_line :: to_line :: hunk_line :: body_lines =>
        if negb (bool_decide (chars "--- " `prefix_of` from_line)
                 && bool_decide (chars "+++ " `prefix_of` to_line))
        then throw (PatchError "bad patch: file header expected")
        else
          match parse_hunk_header hunk_line, parse_body body_lines with
          | Some (start1, count1, start2, count2), Some body =>
              let lines := splitlines (chars s) in
              let removed := signed minus body in
              let added := signed plus body in
              let k := range_offset start1 count1 in
              if bool_decide (length removed = count1
                              ∧ length added = count2
                              ∧ range_offset start2 count2 = k
                              ∧ take count1 (drop k lines) = removed)
              then mret (str (concat (take k lines ++ added
                                      ++ drop (k + count1) lines)))
              else throw (PatchError "bad patch: the hunk does not apply")
          | _, _ => throw (PatchError "bad patch: malformed hunk")
          end
    | _ => throw (PatchError "bad patch: file header expected")
    end.

(** The texts of the specification's scenario, and a time stamp. *)
Definition hello : string := str (chars "hello" ++ [LF]).
Definition hello_world : string := str (chars "hello world" ++ [LF]).
Definition stamp : string := "2024-05-17 09:30:00.000000".

End Patcher.

(** ** The workspace ([project_patcher/workspace/project.py]) *)
Module Project.

(** *** The file system

    The part of the file system the workspace functions touch: the regular
    files, by path, with their content, and the directories, by path. Paths
    are the strings the code builds with [os.path.join] and slices; a file is
    found under the path it was stored under. A file holds bytes; the
    calls that open a file in text mode decode and encode them. *)
Record filesystem : Type := mkfs {
  files : gmap string string;
  dirs : gset string
}.

Definition with_file (p content : string) (fs : filesystem) : filesystem :=
  {| files := <[p := content]> (files fs); dirs := dirs fs |}.

(** [os.path.exists(p)] and [os.path.isdir(p)] *)
Definition path_exists (fs : filesystem) (p : string) : bool :=
  bool_decide (p ∈ dom (files fs) ∨ p ∈ dirs fs).
Definition isdir (fs : filesystem) (p : string) : bool :=
  bool_decide (p ∈ dirs fs).

(** [shutil.rmtree(d)]: the directory goes, with all that lies inside. *)
Definition rmtree (d : string) (fs : filesystem) : res filesystem :=
  if bool_decide (d ∈ dirs fs) then
    mret {| files := filter (λ kv, ¬ within d kv.1) (files fs);
            dirs := filter (λ p, ¬ within d p) (dirs fs) |}
  else if bool_decide (d ∈ dom (files fs)) then throw (NotADirectoryError d)
  else throw (FileNotFoundError d).

(** The directories above [p], nearest first, up to the root or the current
    directory, which always exist. *)
Fixpoint parents_upto (n : nat) (p : string) : list string :=
  match n with
  | 0 => []
  | S n =>
      let d := dirname p in
      if all_slashes (chars d) then [] else d :: parents_upto n d
  end.
Definition parents (p : string) : list string := parents_upto (len p) p.

(** [os.makedirs(name, exist_ok=exist_ok)] *)
Definition makedirs (name : string) (exist_ok : bool) (fs : filesystem)
    : res filesystem :=
  if bool_decide (name ∈ dirs fs) then
    if exist_ok then mret fs else throw (FileExistsError name)
  else if bool_decide (name ∈ dom (files fs)) then
    throw (FileExistsError name)
  else if bool_decide (name = "") then throw (FileNotFoundError name)
  else if bool_decide (Exists (λ d, d ∈ dom (files fs)) (parents name)) then
    throw (NotADirectoryError name)
  else mret {| files := files fs;
               dirs := dirs fs ∪ {[ name ]} ∪ list_to_set (parents name) |}.

(** A directory above the path is a regular file. *)
Definition below_file (fs : filesystem) (p : string) : bool :=
  bool_decide (Exists (λ d, d ∈ dom (files fs)) (parents p)).

(** [open(p, mode = 'r')] and [open(p, mode = 'r+')]: the file must be
    there; the result is its bytes. A directory, also when named with a
    separator at the end, gives [IsADirectoryError]; a path through a
    regular file [NotADirectoryError]. *)
Definition open_read (p : string) (fs : filesystem) : res string :=
  match files fs !! p with
  | Some content => mret content
  | None =>
      if bool_decide (p ∈ dirs fs) then throw (IsADirectoryError p)
      else if below_file fs p then throw (NotADirectoryError p)
      else if endswith p sep && bool_decide (dirname p ∈ dirs fs)
      then throw (IsADirectoryError p)
      else throw (FileNotFoundError p)
  end.

(** The directory that is to hold [p] is there. *)
Definition parent_exists (fs : filesystem) (p : string) : bool :=
  all_slashes (chars (dirname p)) || bool_decide (dirname p ∈ dirs fs).

(** The path without the separators at its end. *)
Definition without_sep (p : string) : string :=
  if endswith p sep then dirname p else p.

(** [open(p, mode = 'w')] followed by [write(content)] of bytes: the file
    is created or replaced. The directories above the file are looked up
    first: one that is a regular file gives [NotADirectoryError], a
    missing one [FileNotFoundError]; then a path that is a directory, or
    ends with a separator, gives [IsADirectoryError]. *)
Definition write_file (p content : string) (fs : filesystem)
    : res filesystem :=
  if below_file fs (without_sep p) then throw (NotADirectoryError p)
  else if negb (parent_exists fs (without_sep p))
  then throw (FileNotFoundError p)
  else if endswith p sep || bool_decide (p ∈ dirs fs)
  then throw (IsADirectoryError p)
  else mret (with_file p content fs).

(** [open(p, mode = 'w', encoding = 'UTF-8')] followed by [write(text)]:
    the file is created or emptied, then the text is encoded and
    written. *)
Definition write_text (p text : string) (fs : filesystem)
    : res filesystem :=
  fs ← write_file p "" fs;
  content ← encode_text text;
  write_file p content fs.

(** [shutil.copy(src, dst)] *)
Definition copy (src dst : string) (fs : filesystem) : res filesystem :=
  let dst := if isdir fs dst then path_join dst (basename src) else dst in
  if bool_decide (src = dst) && path_exists fs src then
    throw (OtherError "SameFileError")
  else
    content ← open_read src fs;
    write_file dst content fs.

(** The path under [dst] that corresponds to [p] under [src]. *)
Definition retarget (src dst p : string) : string :=
  dst +:+ py_slice p (Z.of_nat (len src)) None.

(** Where [copy2] writes the file [p] of the source tree: at its path
    under the destination, or, when that path is a directory of the
    destination, inside this directory under the file's own name. *)
Definition copy_target (src dst : string) (fs : filesystem) (p : string)
    : string :=
  if bool_decide (retarget src dst p ∈ dirs fs)
  then path_join (retarget src dst p) (basename p)
  else retarget src dst p.

(** [shutil.copytree(src, dst, dirs_exist_ok = True)]: every directory and
    every file inside [src] is recreated inside [dst]; a file replaces the
    file already there, and goes into the directory already there.
    [copytree] gathers the entries it cannot copy, a directory where a
    file is, or a file whose place inside a directory is a directory, in
    one [shutil.Error]. *)
Definition copytree (src dst : string) (fs : filesystem) : res filesystem :=
  if negb (bool_decide (src ∈ dirs fs)) then
    if bool_decide (src ∈ dom (files fs)) then throw (NotADirectoryError src)
    else throw (FileNotFoundError src)
  else
    fs1 ← makedirs dst true fs;
    let copied_files :=
      filter (λ kv, under src kv.1) (map_to_list (files fs)) in
    let copied_dirs := filter (under src) (elements (dirs fs)) in
    if bool_decide (Exists (λ kv, copy_target src dst fs1 kv.1 ∈ dirs fs1)
                      copied_files
                    ∨ Exists (λ d, retarget src dst d ∈ dom (files fs1))
                        copied_dirs)
    then throw (OtherError "shutil.Error")
    else mret {| files :=
                   list_to_map
                     (prod_map (copy_target src dst fs1) id <$> copied_files)
                   ∪ files fs1;
                 dirs :=
                   dirs fs1 ∪ list_to_set (retarget src dst <$> copied_dirs) |}.

Definition entry (fs : filesystem) (p : string) : Prop :=
  p ∈ dom (files fs) ∨ p ∈ dirs fs.

(** Nothing of the file system is [d] or lies inside it. *)
Definition vacant (d : string) (fs : filesystem) : Prop :=
  ∀ q, within d q → ¬ entry fs q.

(** Every entry lies in directories that exist, a regular file is not a
    directory, and no path has an empty component. *)
Record wf (fs : filesystem) : Prop := {
  wf_dirs : ∀ q d, entry fs q → under d q → d ≠ "" → d ∈ dirs fs;
  wf_files : ∀ p, p ∈ dom (files fs) → p ∉ dirs fs;
  wf_paths : ∀ q, entry fs q → no_double_slash (chars q) = true
}.

(** A check of [wf] that computes: at every separator of every path, the
    part before it is a directory. *)
Definition parents_exist (fs : filesystem) (q : string) : bool :=
  forallb
    (λ i, match chars q !! i with
          | Some c =>
              negb (bool_decide (c = slash) && bool_decide (0 < i))
              || bool_decide (str (take i (chars q)) ∈ dirs fs)
          | None => true
          end)
    (seq 0 (length (chars q))).

Definition wf_check (fs : filesystem) : bool :=
  forallb (λ q, no_double_slash (chars q) && parents_exist fs q)
    (elements (dom (files fs)) ++ elements (dirs fs))
  && forallb (λ p, negb (bool_decide (p ∈ dirs fs)))
       (elements (dom (files fs))).

(** The four directories of a workspace, as the callers are to pass them:
    tidy names of directories that lie apart from each other. *)
Record layout (clean_dir working_dir patch_dir out_dir : string) : Prop := {
  tidy_clean : tidy clean_dir;
  tidy_working : tidy working_dir;
  tidy_patch : tidy patch_dir;
  tidy_out : tidy out_dir;
  apart_clean_working : separate clean_dir working_dir;
  apart_clean_patch : separate clean_dir patch_dir;
  apart_clean_out : separate clean_dir out_dir;
  apart_working_patch : separate working_dir patch_dir;
  apart_working_out : separate working_dir out_dir;
  apart_patch_out : separate patch_dir out_dir
}.

(** The path of the entry [r] of the directory [d]. *)
Definition inside (d r : string) : string := d +:+ sep +:+ r.

(** The path of the patch artifact for the relative path [r]. *)
Definition patch_file (patch_dir r : string) : string :=
  inside patch_dir (r +:+ extsep +:+ "patch").

(** A [for] loop whose body may raise. *)
Fixpoint for_each {A} (body : A → filesystem → res filesystem)
    (items : list A) (fs : filesystem) : res filesystem :=
  match items with
  | [] => mret fs
  | x :: items' => fs' ← body x fs; for_each body items' fs'
  end.

Section project.

(** [create_patch] and [apply_patch] of
    [project_patcher/workspace/patcher.py]. *)
Variable create_patch : string → string → string → string → string.
Variable apply_patch : string → string → res string.

(** [PurePath(path).as_posix()] *)
Variable as_posix : string → string.

(** The order in which the operating system lists the entries of a
    directory walk; [os.walk] does not specify it. *)
Variable scan : list string → list string.

(** The paths [os.path.join(subdir, file)] of the loops over
    [os.walk(top)]: the regular files inside [top]. The model takes the
    listing when the loop starts. *)
Definition walk (top : string) (fs : filesystem) : list string :=
  scan (filter (under top) (elements (dom (files fs)))).

(** [_PATCH_EXTENSION] *)
Definition _PATCH_EXTENSION : string := "patch".

(** [patch_path[(len(patch_dir) + 1):-(len(_PATCH_EXTENSION) + 1)]] *)
Definition patch_rel_path (patch_dir patch_path : string) : string :=
  py_slice patch_path (Z.of_nat (len patch_dir) + 1)
    (Some (- (Z.of_nat (len _PATCH_EXTENSION) + 1)))%Z.

(** The body of the loop of [apply_patches] for one file of the walk. *)
Definition apply_patch_file (working_dir patch_dir patch_path : string)
    (fs : filesystem) : res filesystem :=
  let rel_path := patch_rel_path patch_dir patch_path in
  patch_file ← open_read patch_path fs;
  work_file ← open_read (path_join working_dir rel_path) fs;
  work_text ← decode_text work_file;
  patch_text ← decode_text patch_file;
  work_patch ← apply_patch work_text patch_text;
  content ← encode_text work_patch;
  mret (with_file (path_join working_dir rel_path) content fs).

(** [apply_patches]; it returns [True] when it returns. *)
Definition apply_patches (working_dir patch_dir : string) (fs : filesystem)
    : res filesystem :=
  for_each (apply_patch_file working_dir patch_dir) (walk patch_dir fs) fs.

(** [setup_working]; it returns [True] when it returns. *)
Definition setup_working (clean_dir working_dir patch_dir out_dir : string)
    (fs : filesystem) : res filesystem :=
  fs ← (if path_exists fs working_dir && isdir fs working_dir
        then rmtree working_dir fs else mret fs);
  fs ← makedirs working_dir false fs;
  fs ← copytree clean_dir working_dir fs;
  fs ← (if path_exists fs out_dir && isdir fs out_dir
        then copytree out_dir working_dir fs else mret fs);
  if path_exists fs patch_dir && isdir fs patch_dir
  then apply_patches working_dir patch_dir fs
  else mret fs.

(** [generate_patch]; it returns [True] when it returns. *)
Definition generate_patch (path work_path clean_path patch_dir time : string)
    (fs : filesystem) : res filesystem :=
  work_file ← open_read work_path fs;
  clean_file ← open_read clean_path fs;
  clean_text ← decode_text clean_file;
  work_text ← decode_text work_file;
  let patch_text := create_patch clean_text work_text (as_posix path) time in
  if bool_decide (patch_text ≠ "") then
    let patch_path :=
      path_join patch_dir (path +:+ extsep +:+ _PATCH_EXTENSION) in
    fs ← makedirs (dirname patch_path) true fs;
    write_text patch_path patch_text fs
  else mret fs.

(** [output_file]; it returns [True] when it returns. *)
Definition output_file (path work_path out_dir : string) (fs : filesystem)
    : res filesystem :=
  let out_path := path_join out_dir path in
  fs ← makedirs (dirname out_path) true fs;
  copy work_path out_path fs.

(** The body of the loop of [output_working] for one file of the walk. *)
Definition output_working_file
    (clean_dir working_dir patch_dir out_dir time work_path : string)
    (fs : filesystem) : res filesystem :=
  let rel_path := py_slice work_path (Z.of_nat (len working_dir) + 1) None in
  let clean_path := path_join clean_dir rel_path in
  if path_exists fs clean_path
  then generate_patch rel_path work_path clean_path patch_dir time fs
  else output_file rel_path work_path out_dir fs.

(** [output_working]; [time] is [str(datetime.now())] as read at the start
    of the call. It returns [True] when it returns. *)
Definition output_working
    (clean_dir working_dir patch_dir out_dir time : string)
    (fs : filesystem) : res filesystem :=
  fs ← (if path_exists fs out_dir && isdir fs out_dir
        then rmtree out_dir fs else mret fs);
  fs ← (if path_exists fs patch_dir && isdir fs patch_dir
        then rmtree patch_dir fs else mret fs);
  for_each
    (output_working_file clean_dir working_dir patch_dir out_dir time)
    (walk working_dir fs) fs.

(** What a capture is to leave for the relative path [r], given the clean
    and the working tree of [fs]: a patch artifact with [text], when both
    trees hold the file and the diff is not empty. *)
Definition is_patch (clean_dir working_dir time : string) (fs : filesystem)
    (r text : string) : Prop :=
  ∃ w c, files fs !! inside working_dir r = Some w
         ∧ files fs !! inside clean_dir r = Some c
         ∧ text = create_patch (read_text c) (read_text w) (as_posix r) time
         ∧ text ≠ "".

(** ... or a copy of the working file, when the clean tree holds nothing
    at [r]. *)
Definition is_new (clean_dir working_dir : string) (fs : filesystem)
    (r content : string) : Prop :=
  files fs !! inside working_dir r = Some content
  ∧ ¬ entry fs (inside clean_dir r).

(** The state of the loop of [output_working] after the walked files
    [done], started in [fs1]: outside the patch and the output directory
    nothing changed, and these two hold the artifacts of the files done. *)
Record captured (clean_dir working_dir patch_dir out_dir time : string)
    (fs1 : filesystem) (done : list string) (fs : filesystem) : Prop := {
  captured_other :
    ∀ p, ¬ under patch_dir p → ¬ under out_dir p →
         files fs !! p = files fs1 !! p;
  captured_patch_only :
    ∀ q text, under patch_dir q → files fs !! q = Some text →
      ∃ r, q = patch_file patch_dir r ∧ inside working_dir r ∈ done
           ∧ is_patch clean_dir working_dir time fs1 r text;
  captured_patch :
    ∀ r text, inside working_dir r ∈ done →
      is_patch clean_dir working_dir time fs1 r text →
      files fs !! patch_file patch_dir r = Some text
      ∧ dirname (patch_file patch_dir r) ∈ dirs fs;
  captured_out_only :
    ∀ q content, under out_dir q → files fs !! q = Some content →
      ∃ r, q = inside out_dir r ∧ inside working_dir r ∈ done
           ∧ is_new clean_dir working_dir fs1 r content;
  captured_out :
    ∀ r content, inside working_dir r ∈ done →
      is_new clean_dir working_dir fs1 r content →
      files fs !! inside out_dir r = Some content;
  captured_clean_file :
    ∀ r, inside working_dir r ∈ done → entry fs1 (inside clean_dir r) →
         is_Some (files fs1 !! inside clean_dir r);
  captured_dirs_kept : dirs fs1 ⊆ dirs fs;
  captured_dirs_new :
    ∀ d, d ∈ dirs fs →
      d ∈ dirs fs1
      ∨ ∃ r, inside working_dir r ∈ done
             ∧ (under d (patch_file patch_dir r)
                ∨ under d (inside out_dir r))
}.

(** The state of the loop of [apply_patches] after the patch files [done],
    started in [fsd]: only working files changed; a working file that no
    patch file done aims at is as it was, and one that a single patch file
    aims at holds the result of applying it. *)
Definition patched (working_dir patch_dir : string) (fsd : filesystem)
    (done : list string) (fs : filesystem) : Prop :=
  (∀ q, ¬ under working_dir q → files fs !! q = files fsd !! q)
  ∧ dirs fs = dirs fsd
  ∧ ∀ r,
      (filter (λ p, patch_rel_path patch_dir p = r) done = [] →
       files fs !! inside working_dir r = files fsd !! inside working_dir r)
      ∧ (∀ p, filter (λ p, patch_rel_path patch_dir p = r) done = [p] →
           ∃ b text new,
             files fsd !! inside working_dir r = Some b
             ∧ files fsd !! p = Some text
             ∧ apply_patch (read_text b) (read_text text) = inr new
             ∧ files fs !! inside working_dir r = Some new).

(** What [setup_working] copies to the working file at [r], before any
    patch: the output file, or else the clean file. *)
Definition base_content (clean_dir out_dir : string) (fs : filesystem)
    (r : string) : option string :=
  if decide (out_dir ∈ dirs fs) then
    match files fs !! inside out_dir r with
    | Some o => Some o
    | None => files fs !! inside clean_dir r
    end
  else files fs !! inside clean_dir r.

End project.

(** *** The metadata of a workspace *)
Section metadata.

(** [ProjectMetadata], and the documents that [json] reads and writes. *)
Context {ProjectMetadata Document : Type}.

(** [METADATA_CODEC.decode] and [METADATA_CODEC.encode] of
    [project_patcher/singleton.py], [json.loads] and
    [json.dumps(document, indent = 4)]: any functions, of which the first
    three may raise. *)
Variable decode : Document → res ProjectMetadata.
Variable encode : ProjectMetadata → res Document.
Variable json_loads : string → res Document.
Variable json_dumps : Document → string.

(** [METADATA_BUILDER()], which asks the user for the metadata. *)
Variable METADATA_BUILDER : res ProjectMetadata.

(** [urlparse(location).scheme] *)
Variable url_scheme : string → string.

(** [download_file(url, handler, stream = False)] of
    [project_patcher/utils.py]: the content of the response that the
    handler received when the download succeeded, [None] when
    [download_file] returned [False]. *)
Variable download_file : string → option string.

(** [metadata.setup(clean_dir)], which fetches the project files. *)
Variable metadata_setup :
  ProjectMetadata → string → filesystem → res (bool * filesystem).

(** [_PROJECT_METADATA_NAME] *)
Definition _PROJECT_METADATA_NAME : string := "project_metadata.json".

(** [os.sep.join([dirpath, _PROJECT_METADATA_NAME])] *)
Definition metadata_path (dirpath : string) : string :=
  dirpath +:+ sep +:+ _PROJECT_METADATA_NAME.

(** [read_metadata_from_file] *)
Definition read_metadata_from_file (path : string) (fs : filesystem)
    : res ProjectMetadata :=
  content ← open_read path fs;
  text ← decode_text content;
  document ← json_loads text;
  decode document.

(** [write_metadata_to_file]: [open] creates or empties the file before
    the metadata is encoded and written. *)
Definition write_metadata_to_file (dirpath : string)
    (metadata : ProjectMetadata) (fs : filesystem)
    : res (ProjectMetadata * filesystem) :=
  fs ← write_file (metadata_path dirpath) "" fs;
  document ← encode metadata;
  content ← encode_text (json_dumps document);
  fs ← write_file (metadata_path dirpath) content fs;
  mret (metadata, fs).

(** The end of [read_metadata], reached when no import gave the metadata:
    the file of the directory, or else the builder. *)
Definition read_local_metadata (dirpath : string) (fs : filesystem)
    : res (ProjectMetadata * filesystem) :=
  if path_exists fs (metadata_path dirpath) then
    metadata ← read_metadata_from_file (metadata_path dirpath) fs;
    mret (metadata, fs)
  else
    metadata ← METADATA_BUILDER;
    write_metadata_to_file dirpath metadata fs.

(** [read_metadata] *)
Definition read_metadata (dirpath : string) (import_loc : option string)
    (fs : filesystem) : res (ProjectMetadata * filesystem) :=
  match import_loc with
  | Some location =>
      if bool_decide (url_scheme location ∈ ["http"; "https"]) then
        match download_file location with
        | Some json_bytes =>
            document ← json_loads json_bytes;
            metadata ← decode document;
            write_metadata_to_file dirpath metadata fs
        | None => read_local_metadata dirpath fs
        end
      else if path_exists fs location then
        metadata ← read_metadata_from_file location fs;
        write_metadata_to_file dirpath metadata fs
      else read_local_metadata dirpath fs
  | None => read_local_metadata dirpath fs
  end.

(** [setup_clean] *)
Definition setup_clean (metadata : ProjectMetadata) (clean_dir : string)
    (invalidate_cache : bool) (fs : filesystem) : res (bool * filesystem) :=
  fs ← (if invalidate_cache && path_exists fs clean_dir && isdir fs clean_dir
        then rmtree clean_dir fs else mret fs);
  if path_exists fs clean_dir && isdir fs clean_dir then mret (true, fs)
  else metadata_setup metadata clean_dir fs.

End metadata.
(** *** A workspace to run the functions on

    The default directories; a clean tree with two files, one of them
    edited in the working tree, which also holds a new file; a stale
    capture from before. *)
Definition example_fs : filesystem :=
  {| files :=
       list_to_map
         [ ("_clean/a.txt", Patcher.hello);
           ("_clean/lib/b.txt", "b");
           ("_src/a.txt", Patcher.hello_world);
           ("_src/lib/b.txt", "b");
           ("_src/new.txt", "new");
           ("_patches/old.txt.patch", "stale");
           ("_out/gone.txt", "stale") ];
     dirs :=
       list_to_set
         [ "_clean"; "_clean/lib"; "_src"; "_src/lib"; "_patches"; "_out" ]
  |}.

(** The same workspace before any edit. *)
Definition unedited_fs : filesystem :=
  {| files :=
       list_to_map
         [ ("_clean/a.txt", Patcher.hello);
           ("_clean/lib/b.txt", "b");
           ("_src/a.txt", Patcher.hello);
           ("_src/lib/b.txt", "b");
           ("_patches/old.txt.patch", "stale");
           ("_out/gone.txt", "stale") ];
     dirs :=
       list_to_set
         [ "_clean"; "_clean/lib"; "_src"; "_src/lib"; "_patches"; "_out" ]
  |}.

(** A workspace after a capture: a patch for [a.txt], an output file that
    shadows a clean file, a new output file, and a working directory left
    from before. *)
Definition captured_fs : filesystem :=
  {| files :=
       list_to_map
         [ ("_clean/a.txt", Patcher.hello);
           ("_clean/lib/b.txt", "b");
           ("_clean/c.txt", "clean c");
           ("_out/c.txt", "out c");
           ("_out/new.txt", "new");
           ("_patches/a.txt.patch",
            Patcher.create_patch Patcher.hello Patcher.hello_world
              "a.txt" Patcher.stamp);
           ("_src/stale.txt", "stale") ];
     dirs :=
       list_to_set
         [ "_clean"; "_clean/lib"; "_out"; "_patches"; "_src" ] |}.

(** A patch directory with a file that is not named as a patch. *)
Definition misnamed_fs : filesystem :=
  {| files :=
       list_to_map
         [ ("_src/not", Patcher.hello);
           ("_src/notes.txt", "notes");
           ("_patches/notes.txt",
            Patcher.create_patch Patcher.hello Patcher.hello_world
              "a.txt" Patcher.stamp) ];
     dirs := list_to_set [ "_src"; "_patches" ] |}.

(** A directory listing in the order of the paths, and file names that are
    POSIX names already. *)
Definition scan_sorted (l : list string) : list string := l.
Definition as_posix_id (path : string) : string := path.

(** A workspace directory with its metadata file, and a metadata file to
    import; metadata and documents that are their own text. *)
Definition metadata_fs : filesystem :=
  {| files :=
       list_to_map
         [ ("ws/project_metadata.json", "local");
           ("shared/project_metadata.json", "shared");
           ("_clean/a.txt", Patcher.hello) ];
     dirs := list_to_set [ "ws"; "shared"; "fresh"; "_clean" ] |}.

Definition text_codec (document : string) : res string := mret document.

Definition scheme_of (location : string) : string :=
  if startswith location "https://" then "https"
  else if startswith location "http://" then "http"
  else "".

Definition offline (url : string) : option string := None.

Definition ask_user : res string := mret "built".

(** A provider that fetches one file into the directory it makes. *)
Definition fetch_one (metadata clean_dir : string) (fs : filesystem)
    : res (bool * filesystem) :=
  fs ← makedirs clean_dir true fs;
  fs ← write_file (inside clean_dir "fetched.txt") metadata fs;
  mret (true, fs).

(** A working tree in which a file has taken the place of a directory of
    the clean tree. *)
Definition mismatch_fs : filesystem :=
  {| files :=
       list_to_map
         [ ("_clean/lib/b.txt", "b");
           ("_src/lib", "a file now") ];
     dirs := list_to_set [ "_clean"; "_clean/lib"; "_src" ] |}.

(** A working tree in which one file of the clean tree was edited and
    another deleted, and which has a new file in a new directory. *)
Definition deleted_fs : filesystem :=
  {| files :=
       list_to_map
         [ ("_clean/a.txt", Patcher.hello);
           ("_clean/b.txt", "b");
           ("_src/a.txt", Patcher.hello_world);
           ("_src/new/n.txt", "new") ];
     dirs := list_to_set [ "_clean"; "_src"; "_src/new" ] |}.

(** A workspace never captured: an edited file and a new file, each in a
    directory of its own. *)
Definition nested_fs : filesystem :=
  {| files :=
       list_to_map
         [ ("_clean/lib/b.txt", Patcher.hello);
           ("_src/lib/b.txt", Patcher.hello_world);
           ("_src/new/n.txt", "new") ];
     dirs :=
       list_to_set [ "_clean"; "_clean/lib"; "_src"; "_src/lib"; "_src/new" ]
  |}.

(** A working tree in which a directory has taken the place of a file of
    the clean tree. *)
Definition replaced_fs : filesystem :=
  {| files :=
       list_to_map
         [ ("_clean/d", "a file");
           ("_src/d/x.txt", "x") ];
     dirs := list_to_set [ "_clean"; "_src"; "_src/d" ] |}.

(** An unedited workspace with a file that is not text: the two bytes
    [FF FE]. *)
Definition not_text : string :=
  String (ascii_of_nat 255) (String (ascii_of_nat 254) EmptyString).

Definition binary_fs : filesystem :=
  {| files :=
       list_to_map
         [ ("_clean/logo.png", not_text);
           ("_src/logo.png", not_text) ];
     dirs := list_to_set [ "_clean"; "_src" ] |}.

(** A workspace in which a file of the output tree has the path of a
    directory of the clean tree. *)
Definition meeting_fs : filesystem :=
  {| files :=
       list_to_map
         [ ("_clean/lib/b.txt", "b");
           ("_out/lib", "a file") ];
     dirs := list_to_set [ "_clean"; "_clean/lib"; "_out" ] |}.

End Project.

(** * Properties *)

(** ** Strings as lists of characters *)

Lemma str_chars s : str (chars s) = s.
Proof. apply string_of_list_ascii_of_string. Qed.

Lemma chars_str l : chars (str l) = l.
Proof. apply list_ascii_of_string_of_list_ascii. Qed.

Lemma chars_inj s t : chars s = chars t → s = t.
Proof. intros H. by rewrite <- (str_chars s), <- (str_chars t), H. Qed.

Lemma chars_app s t : chars (s +:+ t) = chars s ++ chars t.
Proof. induction s as [|c s IH]; simpl; [done|]. by rewrite <- IH. Qed.

Lemma str_app l k : str (l ++ k) = str l +:+ str k.
Proof. apply chars_inj. by rewrite chars_app, !chars_str. Qed.

Lemma len_app s t : len (s +:+ t) = len s + len t.
Proof. unfold len. by rewrite chars_app, length_app. Qed.

Lemma chars_nil s : chars s = [] → s = "".
Proof. by destruct s. Qed.

(** ** The patcher *)
Module PatcherSpec.
Import Patcher.

(** A line of a patch: characters other than the line feed, then one. *)
Definition complete (line : list ascii) : Prop :=
  ∃ body, line = body ++ [LF] ∧ LF ∉ body.

(** A line of a text: as above, or the last line, which has no line end. *)
Definition source_line (line : list ascii) : Prop :=
  ∃ body, (LF ∉ body) ∧ (line = body ++ [LF] ∨ (line = body ∧ body ≠ [])).

Lemma splitlines_cons c l :
  splitlines (c :: l)
  = if decide (c = LF) then [c] :: splitlines l
    else match splitlines l with
         | [] => [[c]]
         | line :: lines => (c :: line) :: lines
         end.
Proof. done. Qed.

Lemma concat_splitlines l : concat (splitlines l) = l.
Proof.
  induction l as [|c l IH]; simpl; [done|].
  case_decide; simpl; [by rewrite IH|].
  destruct (splitlines l) as [|line lines]; simpl in *; by rewrite <- IH.
Qed.

Lemma splitlines_complete_app line rest :
  complete line → splitlines (line ++ rest) = line :: splitlines rest.
Proof.
  intros (body & -> & Hbody). induction body as [|c body IH].
  - done.
  - rewrite <- !app_comm_cons, splitlines_cons.
    rewrite decide_False by (intros ->; set_solver).
    rewrite IH by set_solver. done.
Qed.

Lemma splitlines_concat lines :
  Forall complete lines → splitlines (concat lines) = lines.
Proof.
  induction 1 as [|line lines Hline _ IH]; simpl; [done|].
  by rewrite splitlines_complete_app, IH.
Qed.

Lemma splitlines_source l : Forall source_line (splitlines l).
Proof.
  induction l as [|c l IH]; simpl; [constructor|].
  case_decide as Hc.
  - subst c. constructor; [|done]. exists []. split; [set_solver|by left].
  - destruct (splitlines l) as [|line lines]; simpl.
    + repeat constructor. exists [c]. split; [set_solver|by right].
    + inversion_clear IH as [|? ? (body & Hbody & Hline) Hlines].
      constructor; [|done]. exists (c :: body). split; [set_solver|].
      destruct Hline as [->| [-> _]]; [by left|by right].
Qed.

(** *** Numerals *)

Lemma digits_not_LF u : LF ∉ digits u.
Proof.
  induction u; simpl; rewrite ?elem_of_cons; try set_solver;
    intros [?|?]; done.
Qed.

Definition not_digit_next (rest : list ascii) : Prop :=
  match rest with
  | [] => True
  | c :: _ => Ascii.is_nat c = None
  end.

Lemma read_digits_digits u acc rest :
  not_digit_next rest →
  read_digits acc (digits u ++ rest) = (Nat.of_uint_acc u acc, rest).
Proof.
  intros Hrest. revert acc.
  induction u as [|u IH|u IH|u IH|u IH|u IH|u IH|u IH|u IH|u IH|u IH];
    intros acc; simpl;
    try (rewrite IH; f_equal; f_equal;
         rewrite ?Nat.tail_mul_spec; unfold Nat.tail_add; simpl; lia).
  destruct rest as [|c rest]; simpl in *; [done|]. by rewrite Hrest.
Qed.

Lemma to_little_uint_nonnil n d :
  d ≠ Decimal.Nil → Nat.to_little_uint n d ≠ Decimal.Nil.
Proof.
  revert d. induction n as [|n IH]; intros d Hd; simpl; [done|].
  apply IH. by destruct d.
Qed.

Lemma revapp_nonnil d acc :
  d ≠ Decimal.Nil → Decimal.revapp d acc ≠ Decimal.Nil.
Proof.
  assert (Hacc : ∀ d acc, acc ≠ Decimal.Nil →
                          Decimal.revapp d acc ≠ Decimal.Nil).
  { clear. induction d; intros acc Hacc; simpl; try done; by apply IHd. }
  destruct d; intros Hd; simpl; try done; by apply Hacc.
Qed.

Lemma to_uint_nonnil n : Nat.to_uint n ≠ Decimal.Nil.
Proof.
  unfold Nat.to_uint, Decimal.rev. apply revapp_nonnil.
  by apply to_little_uint_nonnil.
Qed.

Lemma read_nat_decimal n rest :
  not_digit_next rest → read_nat (decimal n ++ rest) = Some (n, rest).
Proof.
  intros Hrest. unfold read_nat, decimal.
  pose proof (to_uint_nonnil n) as Hnil.
  pose proof (read_digits_digits (Nat.to_uint n) 0 rest Hrest) as Hread.
  fold (Nat.of_uint (Nat.to_uint n)) in Hread.
  rewrite DecimalNat.Unsigned.of_to in Hread.
  destruct (Nat.to_uint n); simpl in *; try done; by rewrite <- Hread.
Qed.

Lemma expect_app lit l : expect lit (lit ++ l) = Some l.
Proof.
  induction lit as [|c lit IH]; simpl; [by destruct l|].
  by rewrite decide_True.
Qed.

Lemma parse_hunk_header_hunk_header start1 count1 start2 count2 :
  parse_hunk_header (hunk_header start1 count1 start2 count2)
  = Some (start1, count1, start2, count2).
Proof.
  unfold parse_hunk_header, hunk_header.
  rewrite expect_app. simpl.
  repeat (rewrite read_nat_decimal by done; simpl).
  done.
Qed.

(** *** The body of a hunk *)

Lemma ends_with_LF_complete body : ends_with_LF (body ++ [LF]) = true.
Proof. unfold ends_with_LF. by rewrite last_snoc, bool_decide_true. Qed.

Lemma ends_with_LF_last body :
  LF ∉ body → ends_with_LF body = false.
Proof.
  intros Hbody. unfold ends_with_LF. apply bool_decide_false.
  intros Hlast. apply Hbody. apply last_Some in Hlast as [l' ->].
  set_solver.
Qed.

Lemma no_eol_complete : complete no_eol.
Proof.
  exists (chars "\ No newline at end of file"). split; [done|].
  unfold LF. simpl. rewrite !elem_of_cons. set_solver.
Qed.

Lemma emit_complete sign line :
  sign ≠ LF → source_line line → Forall complete (emit sign line).
Proof.
  intros Hsign (body & Hbody & [->|[-> Hne]]); unfold emit.
  - rewrite ends_with_LF_complete. repeat constructor.
    exists (sign :: body). split; [done|set_solver].
  - rewrite ends_with_LF_last by done. repeat constructor.
    + exists (sign :: body). split; [done|set_solver].
    + apply no_eol_complete.
Qed.

(** The lines of a hunk body, with their signs. *)
Definition emit_signed (sl : ascii * list ascii) : list (list ascii) :=
  emit sl.1 sl.2.

Definition is_sign (c : ascii) : Prop := c = minus ∨ c = plus.

Lemma parse_body_emit body :
  Forall (λ sl, is_sign sl.1 ∧ source_line sl.2) body →
  parse_body (body ≫= emit_signed) = Some body.
Proof.
  induction 1 as [|[sign line] body [Hsign Hline] Hbody IH]; [done|].
  assert (Hnext : match body ≫= emit_signed with
                  | (c :: _) :: _ => c ≠ backslash
                  | _ => True
                  end).
  { destruct Hbody as [|[sign' line'] body' [[Hs|Hs] _] _]; [done| |];
      simpl in Hs; subst sign'; rewrite bind_cons;
      unfold emit_signed at 1, emit; simpl;
      by destruct (ends_with_LF line'). }
  rewrite bind_cons. unfold emit_signed at 1, emit. simpl in *.
  destruct Hline as (text & Htext & [->|[-> Hne]]).
  - rewrite ends_with_LF_complete. simpl.
    rewrite bool_decide_true by done.
    destruct (body ≫= emit_signed) as [|[|c next] rest]; simpl in *.
    + by simplify_eq.
    + done.
    + rewrite decide_False by done. by rewrite IH.
  - rewrite ends_with_LF_last by done. simpl.
    rewrite bool_decide_true by done.
    rewrite removelast_last. by rewrite IH.
Qed.

Lemma signed_app sign body1 body2 :
  signed sign (body1 ++ body2) = signed sign body1 ++ signed sign body2.
Proof. unfold signed. by rewrite filter_app, fmap_app. Qed.

Lemma signed_same sign lines : signed sign (pair sign <$> lines) = lines.
Proof.
  unfold signed. induction lines as [|l lines IH]; [done|].
  rewrite fmap_cons, filter_cons_True by done.
  rewrite fmap_cons. f_equal. exact IH.
Qed.

Lemma signed_other sign sign' lines :
  sign' ≠ sign → signed sign (pair sign' <$> lines) = [].
Proof.
  intros Hne. unfold signed. induction lines as [|l lines IH]; [done|].
  rewrite fmap_cons, filter_cons_False by (simpl; congruence). exact IH.
Qed.

Lemma bind_emit_signed sign lines :
  (pair sign <$> lines) ≫= emit_signed = lines ≫= emit sign.
Proof.
  induction lines as [|l lines IH]; [done|].
  rewrite fmap_cons, !bind_cons, IH. done.
Qed.

(** *** The round trip *)

Lemma range_offset_start k count :
  range_offset (range_start k count) count = k.
Proof. unfold range_offset, range_start. case_decide; lia. Qed.

Lemma file_header_complete filename time :
  LF ∉ filename → LF ∉ time →
  Forall complete (file_header filename time).
Proof.
  intros Hf Ht. unfold file_header. repeat constructor.
  - exists (chars "--- " ++ filename ++ [TAB] ++ time).
    split; [by rewrite <- !app_assoc|].
    rewrite !elem_of_app. simpl. rewrite !elem_of_cons.
    intros [H|[H|[H|H]]]; try done; set_solver.
  - exists (chars "+++ " ++ filename ++ [TAB] ++ time).
    split; [by rewrite <- !app_assoc|].
    rewrite !elem_of_app. simpl. rewrite !elem_of_cons.
    intros [H|[H|[H|H]]]; try done; set_solver.
Qed.

Lemma hunk_header_complete start1 count1 start2 count2 :
  complete (hunk_header start1 count1 start2 count2).
Proof.
  unfold hunk_header.
  exists (chars "@@ -" ++ decimal start1 ++ chars "," ++ decimal count1
          ++ chars " +" ++ decimal start2 ++ chars "," ++ decimal count2
          ++ chars " @@").
  split; [by rewrite <- !app_assoc|].
  unfold decimal.
  rewrite !elem_of_app. simpl. rewrite !elem_of_cons, !elem_of_nil.
  intros H'. decompose [or] H'; try done; by eapply digits_not_LF.
Qed.

Lemma body_complete sign lines :
  sign ≠ LF → Forall source_line lines →
  Forall complete (lines ≫= emit sign).
Proof.
  intros Hsign. induction 1 as [|line lines Hline _ IH]; [constructor|].
  rewrite bind_cons. apply Forall_app. split; [by apply emit_complete|done].
Qed.

(** C1: applying to [a] the patch made from [a] and [b] gives [b] back, for
    all texts [a] and [b]; the file name and the time, which the patch
    carries in its first two lines, hold no line feed. *)
Theorem apply_patch_create_patch a b filename time :
  LF ∉ chars filename → LF ∉ chars time →
  apply_patch a (create_patch a b filename time) = inr b.
Proof.
  intros Hf Ht. unfold create_patch.
  destruct (decide (a = b)) as [->|Hne].
  { unfold apply_patch. by rewrite decide_True. }
  destruct (max_prefix (splitlines (chars a)) (splitlines (chars b)))
    as [[rest_a rest_b] common_start] eqn:Hpre.
  destruct (max_suffix rest_a rest_b) as [[removed added] common_end] eqn:Hsuf.
  pose proof (max_prefix_fst_alt _ _ _ _ _ Hpre) as Ha.
  pose proof (max_prefix_snd_alt _ _ _ _ _ Hpre) as Hb.
  pose proof (max_suffix_fst_alt _ _ _ _ _ Hsuf) as Hra.
  pose proof (max_suffix_snd_alt _ _ _ _ _ Hsuf) as Hrb.
  subst rest_a rest_b.
  pose proof (splitlines_source (chars a)) as Hsa.
  pose proof (splitlines_source (chars b)) as Hsb.
  rewrite Ha in Hsa. rewrite Hb in Hsb.
  apply Forall_app in Hsa as [_ [Hremoved _]%Forall_app].
  apply Forall_app in Hsb as [_ [Hadded _]%Forall_app].
  unfold apply_patch.
  rewrite decide_False.
  2:{ intros H%(f_equal chars). rewrite chars_str in H. done. }
  rewrite chars_str, splitlines_concat.
  2:{ rewrite !Forall_app. split_and!.
      - by apply file_header_complete.
      - repeat constructor. apply hunk_header_complete.
      - by apply body_complete.
      - by apply body_complete. }
  unfold file_header. cbn [app].
  rewrite !bool_decide_true by (by eexists). cbn [andb negb].
  rewrite parse_hunk_header_hunk_header.
  rewrite <- (bind_emit_signed minus removed), <- (bind_emit_signed plus added).
  rewrite <- bind_app.
  rewrite parse_body_emit.
  2:{ apply Forall_app. split; apply Forall_fmap;
        (eapply Forall_impl; [eassumption|]); intros line Hline; split;
        [by left|done|by right|done]. }
  rewrite !signed_app, !signed_same.
  rewrite (signed_other minus plus), (signed_other plus minus) by done.
  rewrite app_nil_r, app_nil_l.
  rewrite !range_offset_start.
  rewrite bool_decide_true.
  2:{ rewrite Ha. split_and!; try done.
      rewrite drop_app_length. by rewrite take_app_length. }
  rewrite Ha. simpl.
  rewrite take_app_length.
  replace (drop (length common_start + length removed)
             (common_start ++ removed ++ common_end))
    with common_end
    by (rewrite (app_assoc common_start), <- length_app;
        by rewrite drop_app_length).
  rewrite <- Hb, concat_splitlines, str_chars. done.
Qed.

Lemma apply_patch_create_patch_witness :
  apply_patch hello (create_patch hello hello_world "a.txt" stamp)
  = inr hello_world.
Proof.
  apply apply_patch_create_patch;
    (eapply bool_decide_unpack; vm_compute; exact I).
Defined.

End PatcherSpec.

(** ** Slices and paths *)

Lemma slice_index_nat n (i : nat) :
  slice_index n (Z.of_nat i) = i `min` n.
Proof. unfold slice_index. rewrite decide_False by lia. by rewrite Nat2Z.id. Qed.

Lemma slice_index_neg n (i : nat) :
  0 < i → slice_index n (- Z.of_nat i) = n - i.
Proof. intros. unfold slice_index. rewrite decide_True by lia. lia. Qed.

(** [s[i:]] drops [i] characters. *)
Lemma py_slice_from s (i : nat) :
  chars (py_slice s (Z.of_nat i) None) = drop i (chars s).
Proof.
  unfold py_slice. rewrite chars_str, slice_index_nat.
  destruct (decide (i ≤ length (chars s))).
  - rewrite Nat.min_l by done. apply take_ge. rewrite length_drop. lia.
  - rewrite Nat.min_r by lia. rewrite !drop_ge by lia. by rewrite take_nil.
Qed.

(** [s[i:-j]] drops [i] characters at the start and [j] at the end. *)
Lemma py_slice_between s (i j : nat) :
  0 < j →
  chars (py_slice s (Z.of_nat i) (Some (- Z.of_nat j)%Z))
  = take (length (chars s) - j - i) (drop i (chars s)).
Proof.
  intros Hj. unfold py_slice.
  rewrite chars_str, slice_index_nat, slice_index_neg by done.
  destruct (decide (i ≤ length (chars s))).
  - by rewrite Nat.min_l by done.
  - rewrite !drop_ge by lia. by rewrite !take_nil.
Qed.

Lemma py_slice_prefix a b : py_slice (a +:+ b) (Z.of_nat (len a)) None = b.
Proof.
  apply chars_inj. rewrite py_slice_from, chars_app. unfold len.
  by rewrite drop_app_length.
Qed.

Lemma under_iff d p : under d p ↔ ∃ r, p = d +:+ sep +:+ r.
Proof.
  unfold under. split.
  - intros [k Hk]. exists (str k). apply chars_inj.
    rewrite Hk, !chars_app, chars_str. by rewrite <- app_assoc.
  - intros [r ->]. exists (chars r). rewrite !chars_app. by rewrite <- app_assoc.
Qed.

Lemma under_intro d r : under d (d +:+ sep +:+ r).
Proof. apply under_iff. eauto. Qed.

Lemma under_trans a b c : under a b → under b c → under a c.
Proof.
  rewrite !under_iff. intros [r ->] [r' ->]. exists (r +:+ sep +:+ r').
  apply chars_inj. rewrite !chars_app. by rewrite <- !app_assoc.
Qed.

Lemma under_irrefl d : ¬ under d d.
Proof.
  unfold under. rewrite chars_app. intros H%prefix_length.
  rewrite length_app in H. simpl in H. lia.
Qed.

Lemma within_trans a b c : within a b → under b c → under a c.
Proof. intros [->|Hab] Hbc; [done|]. by eapply under_trans. Qed.

(** Two directories that hold a common path are nested or equal. *)
Lemma under_both a b p : under a p → under b p → within a b ∨ within b a.
Proof.
  assert (Hnest : ∀ a b, chars (a +:+ sep) `prefix_of` chars (b +:+ sep) →
                         within a b).
  { clear. intros a b [k Hk]. rewrite !chars_app in Hk.
    destruct k as [|c k _] using rev_ind.
    - left. rewrite app_nil_r in Hk. apply app_inj_tail in Hk as [Hk _].
      by apply chars_inj.
    - right. unfold under. rewrite chars_app.
      rewrite !app_assoc in Hk. apply app_inj_tail in Hk as [Hk _].
      exists k. by rewrite Hk, <- !app_assoc. }
  unfold under. intros Ha Hb.
  destruct (prefix_weak_total _ _ _ Ha Hb) as [H|H]; [left|right];
    by apply Hnest.
Qed.

Lemma separate_sym a b : separate a b → separate b a.
Proof. unfold separate. tauto. Qed.

Lemma separate_under a b p : separate a b → under a p → ¬ within b p.
Proof.
  intros [Hab Hba] Ha [->|Hb].
  - apply Hab. by right.
  - destruct (under_both a b p Ha Hb); tauto.
Qed.

Lemma startswith_sep_false r :
  startswith r sep = false ↔ ∀ r', r ≠ sep +:+ r'.
Proof.
  unfold startswith. rewrite bool_decide_eq_false. split.
  - intros H r' ->. apply H. exists (chars r'). by rewrite chars_app.
  - intros H [k Hk]. apply (H (str k)). apply chars_inj.
    by rewrite chars_app, chars_str.
Qed.

Lemma path_join_rel d r :
  tidy d → startswith r sep = false → path_join d r = d +:+ sep +:+ r.
Proof.
  intros [Hd Hend] Hr. unfold path_join.
  by rewrite Hr, Hend, bool_decide_false.
Qed.

(** A joined relative path starts with the directory. *)
Lemma path_join_prefix a b :
  startswith b sep = false → chars a `prefix_of` chars (path_join a b).
Proof.
  intros Hb. unfold path_join. rewrite Hb.
  destruct (_ || _); rewrite !chars_app; by eexists.
Qed.

Lemma no_double_slash_app l k :
  no_double_slash (l ++ k) = true → no_double_slash k = true.
Proof.
  induction l as [|c l IH]; [done|]. intros H. apply IH.
  destruct (l ++ k) eqn:E; [by destruct k|].
  simpl in H. rewrite E in H. apply andb_true_iff in H as [_ H]. done.
Qed.

Lemma no_double_slash_rel d r :
  no_double_slash (chars (d +:+ sep +:+ r)) = true → startswith r sep = false.
Proof.
  rewrite !chars_app. intros H%no_double_slash_app.
  apply startswith_sep_false. intros r' ->.
  rewrite chars_app in H. simpl in H. done.
Qed.

(** *** Directory names *)

Lemma before_from_slash l : l = before_slash l ++ from_slash l.
Proof.
  induction l as [|c l IH]; [done|]. simpl. case_decide; [done|].
  simpl. by rewrite <- IH.
Qed.

Lemma from_slash_head l :
  from_slash l = [] ∨ ∃ t, from_slash l = slash :: t.
Proof.
  induction l as [|c l IH]; [by left|]. simpl. case_decide; [|done].
  subst c. right. eauto.
Qed.

Lemma lstrip_slash_split h :
  ∃ k, h = replicate k slash ++ lstrip_slash h.
Proof.
  induction h as [|c h [k IH]]; [by exists 0|]. simpl. case_decide.
  - subst c. exists (S k). simpl. by rewrite <- IH.
  - by exists 0.
Qed.

Lemma all_slashes_reverse l : all_slashes (reverse l) = all_slashes l.
Proof.
  unfold all_slashes. apply Bool.eq_iff_eq_true. rewrite !forallb_forall.
  split; intros H x Hx%list_elem_of_In; apply H, list_elem_of_In;
    by rewrite elem_of_reverse in *.
Qed.

Lemma dirname_under q :
  all_slashes (chars (dirname q)) = false → under (dirname q) q.
Proof.
  unfold dirname.
  pose proof (before_from_slash (reverse (chars q))) as Hsplit.
  destruct (from_slash (reverse (chars q))) as [|c t] eqn:Hhead.
  { by vm_compute. }
  destruct (from_slash_head (reverse (chars q))) as [H|[t' H]];
    rewrite Hhead in H; [done|]. simplify_eq.
  destruct (all_slashes (slash :: t')) eqn:Hall.
  - rewrite chars_str, all_slashes_reverse. congruence.
  - intros _. apply under_iff.
    destruct (lstrip_slash_split t') as [k Hk].
    exists (str (replicate k slash ++ reverse (before_slash (reverse (chars q))))).
    apply chars_inj. rewrite !chars_app, !chars_str.
    apply (inj reverse). rewrite Hsplit at 1.
    rewrite !reverse_app, reverse_involutive. simpl.
    rewrite reverse_replicate, reverse_involutive, reverse_singleton.
    rewrite <- !app_assoc. f_equal. rewrite Hk at 1.
    generalize (lstrip_slash t'). clear. intros rest.
    induction k as [|k IH]; simpl; [done|]. f_equal. exact IH.
Qed.


(** ** The registrar *)
Module RegistrarSpec.
Import Registrar.

Section registrar_spec.

Context {Codec Builder PostProcessor : Type}.
Variable registry_duplicate : string → exn.

Local Abbreviation state := (PrjmanRegistrarImpl Codec Builder PostProcessor).
Local Abbreviation reg := (registration Codec Builder PostProcessor).
Local Abbreviation run := (run_registration registry_duplicate).
Local Abbreviation history := (run_calls registry_duplicate).
Local Abbreviation fresh := (@init Codec Builder PostProcessor).

Ltac unfold_call :=
  unfold run_registration, register_file_handler,
    add_file_handler_missing_message, register_post_processor,
    add_post_processor_missing_message, check_preconditions, setitem,
    registry_setitem, raise, get, mbind, M_bind, bind in *.

Ltac unfold_head :=
  unfold run_registration, register_file_handler,
    add_file_handler_missing_message, register_post_processor,
    add_post_processor_missing_message, mbind, M_bind, bind in *.

Ltac cases :=
  repeat (case_decide || case_bool_decide || simpl in * ||
          match goal with
          | |- context [ if ?b then _ else _ ] => destruct b eqn:?
          | H : context [ if ?b then _ else _ ] |- _ => destruct b eqn:?
          end).

(** What [__check_preconditions] answers, by stage. *)
Lemma check_preconditions_frozen {V} name
    (registry : state → gmap string V) ty s :
  1 < stager s →
  check_preconditions name registry ty s
    = Raise (RegistryError (frozen_msg name)) s.
Proof. intros. unfold check_preconditions. by rewrite decide_True. Qed.

Lemma check_preconditions_naming {V} name
    (registry : state → gmap string V) ty s :
  stager s = 1 → contains_char ":" name = false →
  check_preconditions name registry ty s
    = Raise (ValueError (naming_msg name)) s.
Proof.
  intros Hs Hn. unfold check_preconditions.
  rewrite decide_False by lia. rewrite bool_decide_true by lia.
  by rewrite Hn.
Qed.

Lemma check_preconditions_internal {V} name
    (registry : state → gmap string V) ty s :
  stager s = 0 →
  check_preconditions name registry ty s
    = if decide (name ∈ dom (registry s))
      then Raise (ValueError (duplicate_msg name ty)) s
      else Ok tt s.
Proof.
  intros Hs. unfold check_preconditions.
  rewrite decide_False by lia. by rewrite bool_decide_false by lia.
Qed.

(** A call changes the counter only when it is [stage()]. *)
Lemma run_registration_stager (r : reg) (s : state) :
  stager (state_of (run r s)) = stager s.
Proof. destruct r; unfold_call; cases; done. Qed.

Lemma history_stager cs (s : state) :
  stager (history cs s) = stager s + stage_calls cs.
Proof.
  revert s. induction cs as [|c cs IH]; intros s; simpl; [lia|].
  unfold run_calls in *. rewrite IH. destruct c; simpl.
  - lia.
  - rewrite run_registration_stager. lia.
Qed.

(** Every call keeps the codec and builder registries paired. *)
Lemma run_registration_paired (r : reg) (s : state) :
  paired s → paired (state_of (run r s)).
Proof.
  unfold paired. intros Hp.
  destruct r; unfold_call; cases; try done;
    first [ set_solver | rewrite !dom_insert_L; by rewrite Hp ].
Qed.

Lemma history_paired cs (s : state) : paired s → paired (history cs s).
Proof.
  revert s. induction cs as [|c cs IH]; intros s Hp; simpl; [done|].
  apply IH. destruct c; simpl; [done|]. by apply run_registration_paired.
Qed.

Lemma init_paired : paired (@init Codec Builder PostProcessor).
Proof. done. Qed.

(** A registration that raises one of the registrar's own errors leaves
    the registrar as it was. *)
Lemma run_registration_raise (r : reg) (s : state) e s' :
  paired s → run r s = Raise e s' → s' = s.
Proof.
  unfold paired. intros Hp Hr.
  destruct r; unfold_call; cases; simplify_eq; try done; set_solver.
Qed.

(** On a registrar whose provider registries are paired, a registration
    that finds the name free and the stage open succeeds. *)
Lemma run_registration_internal (r : reg) (s : state) :
  paired s → stager s = 0 →
  run r s = Ok tt (registered r s) ∧ ¬ name_taken r s
  ∨ (∃ e, run r s = Raise e s ∧ e ∈ taken_errors r) ∧ name_taken r s.
Proof.
  unfold paired. intros Hp Hs.
  destruct r; unfold_call; cases; simplify_eq; try lia;
    try (exfalso; congruence);
    first [ left; split; [done | set_solver]
          | right; split; [eexists; split; [done| set_solver] | set_solver] ].
Qed.




(** Once the registrar has been staged, a call adds only names with a
    [':']. *)
Lemma run_call_names (c : call Codec Builder PostProcessor) (s : state) n :
  0 < stager s →
  n ∈ names (state_of (run_call registry_duplicate c s)) →
  n ∈ names s ∨ contains_char ":" n = true.
Proof.
  intros Hs. destruct c as [|r]; simpl; [by left|].
  unfold names.
  destruct r; unfold_call; cases; rewrite ?dom_insert_L;
    try (by left); try lia;
    match goal with
    | H : negb (contains_char ":" ?m) = false |- _ =>
        apply negb_false_iff in H;
        destruct (decide (n = m)) as [->|]; [by right | left; set_solver]
    end.
Qed.

(** X1: the decision table of a registration, at every stage. On a
    registrar obtained from a fresh one by any history of calls, a
    registration is accepted exactly when at most one [stage()] call has
    been made, the name has a [':'] if one has been made, and the name is
    free; it then stores the name. Otherwise it raises one of the
    registrar's errors and leaves the registrar as it was. *)
Theorem registration_decision cs (r : reg) :
  let s := history cs fresh in
  (accepted r s → run r s = Ok tt (registered r s))
  ∧ (¬ accepted r s →
       ∃ e, run r s = Raise e s ∧ e ∈ registration_errors r).
Proof.
  intros s.
  assert (Hp : paired s) by apply history_paired, init_paired.
  unfold paired in Hp. unfold accepted, registration_errors.
  split.
  - intros (H1 & H2 & H3).
    destruct r; unfold_call; cases; try done; try lia;
      try (destruct H2 as [H2|H2]; [lia | rewrite H2 in *; discriminate]);
      set_solver.
  - intros Hn.
    destruct r; unfold_call; cases;
      try (eexists; split; [reflexivity | set_solver]);
      try (exfalso; congruence); try (exfalso; contradiction).
    all: exfalso; apply Hn; split_and!; [lia | | simpl; tauto].
    all: first [ left; lia | right; by apply negb_false_iff ].
Qed.

(** X2: after the first [stage()] call the registrar takes new names only
    with a [':']. Every name that any of the five registries holds after
    a history of calls was held when the history had made its first
    [stage()] call, or contains a [':']. *)
Theorem staged_names_namespaced cs cs' n :
  0 < stage_calls cs →
  n ∈ names (history (cs ++ cs') fresh) →
  n ∈ names (history cs fresh) ∨ contains_char ":" n = true.
Proof.
  intros Hs. induction cs' as [|c cs' IH] using rev_ind.
  - rewrite app_nil_r. by left.
  - rewrite app_assoc. unfold run_calls in *. rewrite foldl_app. simpl.
    intros Hn. apply run_call_names in Hn as [Hn| ->]; [by apply IH | by right |].
    fold (history (cs ++ cs') fresh). rewrite history_stager.
    assert (stage_calls (cs ++ cs') = stage_calls cs + stage_calls cs') as ->.
    { clear. induction cs as [|[] ? ?]; simpl; lia. }
    lia.
Qed.

(** A registration never changes what a registry already holds. *)
Lemma run_call_keeps (c : call Codec Builder PostProcessor) (s : state) :
  let s' := state_of (run_call registry_duplicate c s) in
  file_codecs s ⊆ file_codecs s'
  ∧ file_builders s ⊆ file_builders s'
  ∧ file_handler_exceptions s ⊆ file_handler_exceptions s'
  ∧ post_processors s ⊆ post_processors s'
  ∧ post_processor_exceptions s ⊆ post_processor_exceptions s'.
Proof.
  destruct c as [|r]; simpl; [done|].
  destruct r; unfold_call; cases; split_and!; try done;
    apply insert_subseteq; by apply not_elem_of_dom.
Qed.

Lemma history_keeps cs (s : state) :
  file_codecs s ⊆ file_codecs (history cs s)
  ∧ file_builders s ⊆ file_builders (history cs s)
  ∧ file_handler_exceptions s ⊆ file_handler_exceptions (history cs s)
  ∧ post_processors s ⊆ post_processors (history cs s)
  ∧ post_processor_exceptions s ⊆ post_processor_exceptions (history cs s).
Proof.
  revert s. induction cs as [|c cs IH]; intros s; simpl; [done|].
  destruct (run_call_keeps c s) as (H1 & H2 & H3 & H4 & H5).
  destruct (IH (state_of (run_call registry_duplicate c s)))
    as (I1 & I2 & I3 & I4 & I5).
  split_and!; etrans; eassumption.
Qed.

Section getters.

Variable registry_missing : string → exn.

Local Abbreviation codec_of := (get_project_file_codec registry_missing).
Local Abbreviation builder_of := (get_project_file_builder registry_missing).
Local Abbreviation post_processor_of := (get_post_processor registry_missing).

(** X3: a registered object stays. After [register_file_handler] or
    [register_post_processor] is accepted on a registrar reached from a
    fresh one, whatever calls follow, the getters return the codec, the
    builder and the post-processor first stored under the name, and no
    later registration of that kind and name is accepted. *)
Theorem registered_objects_stay cs cs' name :
  let s := history cs fresh in
  (∀ codec builder s1,
     register_file_handler registry_duplicate name codec builder s
       = Ok tt s1 →
     let s2 := history cs' s1 in
     codec_of name s2 = Ok codec s2
     ∧ builder_of name s2 = Ok builder s2
     ∧ ∀ codec' builder',
         ∃ e, register_file_handler registry_duplicate name codec' builder'
                s2 = Raise e s2)
  ∧ (∀ post_processor s1,
     register_post_processor registry_duplicate name post_processor s
       = Ok tt s1 →
     let s2 := history cs' s1 in
     post_processor_of name s2 = Ok post_processor s2
     ∧ ∀ post_processor',
         ∃ e, register_post_processor registry_duplicate name
                post_processor' s2 = Raise e s2).
Proof.
  intros s. split.
  - intros codec builder s1 Hr s2.
    destruct (history_keeps cs' s1) as (Hc & Hb & _).
    assert (file_codecs s1 !! name = Some codec
            ∧ file_builders s1 !! name = Some builder) as [H1 H2].
    { clear Hc Hb. unfold_call; cases; simplify_eq; simpl.
      all: split; by simplify_map_eq. }
    assert (Hc2 : file_codecs s2 !! name = Some codec)
      by (eapply lookup_weaken; eassumption).
    assert (Hb2 : file_builders s2 !! name = Some builder)
      by (eapply lookup_weaken; eassumption).
    split_and!.
    + unfold get_project_file_codec, getitem, registry_getitem.
      by rewrite Hc2.
    + unfold get_project_file_builder, getitem, registry_getitem.
      by rewrite Hb2.
    + intros codec' builder'.
      assert (name ∈ dom (file_codecs s2)) by (by apply elem_of_dom).
      clear Hr. unfold_call; cases; first [ by eauto | contradiction ].
  - intros pp s1 Hr s2.
    destruct (history_keeps cs' s1) as (_ & _ & _ & Hc & _).
    assert (H1 : post_processors s1 !! name = Some pp).
    { clear Hc. unfold_call; cases; simplify_eq; simpl.
      all: by simplify_map_eq. }
    assert (Hc2 : post_processors s2 !! name = Some pp)
      by (eapply lookup_weaken; eassumption).
    split.
    + unfold get_post_processor, getitem, registry_getitem.
      by rewrite Hc2.
    + intros pp'.
      assert (name ∈ dom (post_processors s2)) by (by apply elem_of_dom).
      clear Hr. unfold_call; cases; first [ by eauto | contradiction ].
Qed.

(** X4: the builders listed by [get_available_builders] are the names
    that [get_project_file_codec] and [get_project_file_builder] answer
    for: on a registrar reached from a fresh one, a name is listed exactly
    when the codec getter returns, and exactly when the builder getter
    returns. *)
Theorem available_builders_resolve cs n :
  let s := history cs fresh in
  ∃ available,
    get_available_builders s = Ok available s
    ∧ (n ∈ available ↔ ∃ codec, codec_of n s = Ok codec s)
    ∧ (n ∈ available ↔ ∃ builder, builder_of n s = Ok builder s).
Proof.
  intros s.
  assert (Hp : paired s) by apply history_paired, init_paired.
  unfold paired in Hp.
  eexists. split; [reflexivity|].
  unfold get_project_file_codec, get_project_file_builder, getitem,
    registry_getitem.
  rewrite <- Hp at 1. rewrite !elem_of_dom. unfold is_Some.
  split; split.
  - intros [c ->]. eauto.
  - intros [c Hc]. destruct (file_codecs s !! n); [eauto | discriminate].
  - intros [c ->]. eauto.
  - intros [c Hc]. destruct (file_builders s !! n); [eauto | discriminate].
Qed.

End getters.

Section set_up.

Variables file_osf_setup file_url_setup file_git_setup
  post_unpack_setup post_notebook_setup : M state unit.
Variable load_dynamic_scripts : M state nat.

Local Abbreviation set_up :=
  (setup file_osf_setup file_url_setup file_git_setup post_unpack_setup
     post_notebook_setup load_dynamic_scripts).

(** X5: [setup] leaves the registrar frozen. If the plug-ins and the
    dynamic scripts never call [stage()] themselves, then once [setup]
    has returned every registration raises the frozen-registry error and
    leaves the registrar as it is, whatever the name. *)
Theorem setup_freezes s s' (r : reg) :
  keeps_stage file_osf_setup → keeps_stage file_url_setup →
  keeps_stage file_git_setup → keeps_stage post_unpack_setup →
  keeps_stage post_notebook_setup → keeps_stage load_dynamic_scripts →
  set_up s = Ok tt s' →
  stager s' = stager s + 2
  ∧ run r s' = Raise (RegistryError (frozen_msg (registration_name r))) s'.
Proof.
  unfold keeps_stage. intros H1 H2 H3 H4 H5 H6 Hrun.
  assert (Hs : stager s' = stager s + 2).
  { unfold setup, stage, mbind, M_bind, bind in Hrun.
    specialize (H1 s). destruct (file_osf_setup s) as [[] s1|]; [|done].
    specialize (H2 s1). destruct (file_url_setup s1) as [[] s2|]; [|done].
    specialize (H3 s2). destruct (file_git_setup s2) as [[] s3|]; [|done].
    specialize (H4 s3). destruct (post_unpack_setup s3) as [[] s4|]; [|done].
    specialize (H5 s4).
    destruct (post_notebook_setup s4) as [[] s5|]; [|done].
    match type of Hrun with
    | context [load_dynamic_scripts ?x] =>
        specialize (H6 x); destruct (load_dynamic_scripts x) as [k s6|];
          [|done]
    end.
    simpl in *. injection Hrun as <-. simpl. lia. }
  split; [done|].
  destruct r; unfold_head; by rewrite check_preconditions_frozen by lia.
Qed.

End set_up.


End registrar_spec.




Lemma registration_decision_witness :
  run_registration dup (RegisterPostProcessor "ext:nb" tt)
      (run_calls dup dynamic_history init)
    = Ok tt (registered (RegisterPostProcessor "ext:nb" tt)
               (run_calls dup dynamic_history init))
  ∧ ∃ e, run_registration dup (RegisterFileHandler "git" tt tt)
           (run_calls dup dynamic_history init)
         = Raise e (run_calls dup dynamic_history init)
       ∧ e ∈ registration_errors
               (RegisterFileHandler "git" tt tt : registration unit unit unit).
Proof.
  split.
  - destruct (registration_decision dup dynamic_history
                (RegisterPostProcessor "ext:nb" tt)) as [H _].
    apply H. split_and!; [vm_compute; lia | by right |].
    vm_compute. set_solver.
  - destruct (registration_decision dup dynamic_history
                (RegisterFileHandler "git" tt tt)) as [_ H].
    apply H. intros (_ & [H0|H0] & _); vm_compute in H0; discriminate.
Defined.

Lemma registered_objects_stay_witness :
  get_project_file_codec missing "url"
      (run_calls dup [CStage; CRegister (RegisterFileHandler "url" tt tt)]
         (registered (RegisterFileHandler "url" tt tt)
            (run_calls dup internal_history init)))
    = Ok tt
        (run_calls dup [CStage; CRegister (RegisterFileHandler "url" tt tt)]
           (registered (RegisterFileHandler "url" tt tt)
              (run_calls dup internal_history init))).
Proof.
  destruct (registered_objects_stay dup missing internal_history
              [CStage; CRegister (RegisterFileHandler "url" tt tt)] "url")
    as [H _].
  destruct (H tt tt (registered (RegisterFileHandler "url" tt tt)
                       (run_calls dup internal_history init)) eq_refl)
    as [Hc _].
  exact Hc.
Defined.

Lemma staged_names_namespaced_witness :
  "ext:strip" ∈ names (run_calls dup dynamic_history init)
  ∨ contains_char ":" "ext:strip" = true.
Proof.
  apply (staged_names_namespaced dup dynamic_history
           [CRegister (RegisterPostProcessor "ext:strip" tt); CStage]).
  - vm_compute. lia.
  - apply (bool_decide_unpack _). vm_compute. exact I.
Defined.

Lemma setup_freezes_witness :
  ∃ s',
    setup osf_plugin no_plugin git_plugin unpack_plugin no_plugin one_script
      init = Ok tt s'
    ∧ stager s' = 2
    ∧ run_registration dup (RegisterFileHandler "ext:zip" tt tt) s'
      = Raise (RegistryError (frozen_msg "ext:zip")) s'.
Proof.
  eexists. split; [vm_compute; reflexivity|].
  apply (setup_freezes dup osf_plugin no_plugin git_plugin unpack_plugin
           no_plugin one_script init _ (RegisterFileHandler "ext:zip" tt tt)).
  - intros s. apply (run_registration_stager dup
      (AddFileHandlerMissingMessage "osf" "install osfclient")).
  - intros s. reflexivity.
  - intros s. apply (run_registration_stager dup
      (RegisterFileHandler "git" tt tt)).
  - intros s. apply (run_registration_stager dup
      (RegisterPostProcessor "unpack" tt)).
  - intros s. reflexivity.
  - intros s. unfold one_script, mbind, M_bind, bind.
    pose proof (run_registration_stager dup
                  (RegisterPostProcessor "ext:strip" tt) s) as H.
    simpl in H.
    destruct (register_post_processor dup "ext:strip" () s); exact H.
  - vm_compute. reflexivity.
Defined.

End RegistrarSpec.

(** ** The git source codec *)
Module GitSpec.
Import Git.

Lemma declared_order_iteration : iteration_order declared_order.
Proof.
  unfold iteration_order, declared_order, _VALID_BRANCH_TYPES.
  apply NoDup_Permutation.
  - repeat constructor; set_solver.
  - apply NoDup_elements.
  - intros k. rewrite elem_of_elements. set_solver.
Qed.

Lemma other_order_iteration : iteration_order other_order.
Proof.
  unfold iteration_order, other_order, _VALID_BRANCH_TYPES.
  apply NoDup_Permutation.
  - repeat constructor; set_solver.
  - apply NoDup_elements.
  - intros k. rewrite elem_of_elements. set_solver.
Qed.

Lemma iteration_order_elem order k :
  iteration_order order → k ∈ order ↔ k ∈ _VALID_BRANCH_TYPES.
Proof.
  unfold iteration_order. intros ->. apply elem_of_elements.
Qed.

(** The loop returns at the first key of the iteration that the document
    holds. *)
Lemma decode_loop_find order remaining dir obj repo :
  obj !! "repository" = Some repo →
  (∀ k, k ∈ remaining → k ∈ _VALID_BRANCH_TYPES) →
  decode_loop order remaining dir obj
  = match list_find (λ k, k ∈ dom obj) remaining with
    | Some (_, k) =>
        inr (mkGitProjectFile dir repo (default PNone (obj !! k)) k)
    | None => inr (mkGitProjectFile dir repo PNone "branch")
    end.
Proof.
  intros Hrepo. induction remaining as [|k rest IH]; intros Hvalid; simpl.
  - unfold getitem. rewrite Hrepo. simpl.
    unfold GitProjectFile_init. rewrite decide_True; [done|].
    unfold _VALID_BRANCH_TYPES. set_solver.
  - case_decide as Hk.
    + unfold getitem. rewrite Hrepo. simpl.
      apply elem_of_dom in Hk as [v Hv]. rewrite Hv. simpl.
      unfold GitProjectFile_init. rewrite decide_True; [done|].
      apply Hvalid. set_solver.
    + rewrite IH by (intros; apply Hvalid; set_solver).
      by destruct (list_find _ rest) as [[i k']|].
Qed.

(** A document with exactly one of the three keys is decoded with it. *)
Lemma decode_type_only_key order dir obj repo k v :
  iteration_order order →
  obj !! "repository" = Some repo →
  k ∈ _VALID_BRANCH_TYPES → obj !! k = Some v →
  (∀ k', k' ∈ _VALID_BRANCH_TYPES → k' ≠ k → obj !! k' = None) →
  decode_type order dir obj = inr (mkGitProjectFile dir repo v k).
Proof.
  intros Horder Hrepo Hk Hv Hothers. unfold decode_type.
  rewrite (decode_loop_find order order dir obj repo Hrepo)
    by (intros; by eapply iteration_order_elem).
  destruct (list_find (λ k, k ∈ dom obj) order) as [[i k']|] eqn:Hfind.
  - apply list_find_Some in Hfind as (Hi & [v' Hv']%elem_of_dom & _).
    destruct (decide (k' = k)) as [->|Hne].
    + by rewrite Hv.
    + rewrite Hothers in Hv'; [done| |done].
      eapply iteration_order_elem; [done|]. by eapply list_elem_of_lookup_2.
  - apply list_find_None in Hfind. rewrite Forall_forall in Hfind.
    exfalso. apply (Hfind k).
    + by apply iteration_order_elem.
    + apply elem_of_dom. eauto.
Qed.

(** A document with none of the three keys is decoded to the base form. *)
Lemma decode_type_no_key order dir obj repo :
  iteration_order order →
  obj !! "repository" = Some repo →
  (∀ k, k ∈ _VALID_BRANCH_TYPES → obj !! k = None) →
  decode_type order dir obj = inr (mkGitProjectFile dir repo PNone "branch").
Proof.
  intros Horder Hrepo Hnone. unfold decode_type.
  rewrite (decode_loop_find order order dir obj repo Hrepo)
    by (intros; by eapply iteration_order_elem).
  destruct (list_find (λ k, k ∈ dom obj) order) as [[i k']|] eqn:Hfind;
    [|done].
  apply list_find_Some in Hfind as (Hi & [v' Hv']%elem_of_dom & _).
  rewrite Hnone in Hv'; [done|].
  eapply iteration_order_elem; [done|]. by eapply list_elem_of_lookup_2.
Qed.

(** C7, as the code has it: the keys are tested in the order in which the
    set [_VALID_BRANCH_TYPES] is iterated, which the code does not fix; the
    first key of that iteration that the document holds gives [branch] and
    [branch_type]; a document that holds exactly one of the three keys is
    decoded with that key whatever the iteration order; when it holds none,
    the base form is built from [repository] alone. *)
Theorem decode_type_first_in_iteration order dir obj repo :
  iteration_order order →
  obj !! "repository" = Some repo →
  (∀ i k, list_find (λ k, k ∈ dom obj) order = Some (i, k) →
     ∃ v, obj !! k = Some v
          ∧ decode_type order dir obj = inr (mkGitProjectFile dir repo v k))
  ∧ (∀ k v, k ∈ _VALID_BRANCH_TYPES → obj !! k = Some v →
       (∀ k', k' ∈ _VALID_BRANCH_TYPES → k' ≠ k → obj !! k' = None) →
       decode_type order dir obj = inr (mkGitProjectFile dir repo v k))
  ∧ ((∀ k, k ∈ _VALID_BRANCH_TYPES → obj !! k = None) →
       decode_type order dir obj
       = inr (mkGitProjectFile dir repo PNone "branch")).
Proof.
  intros Horder Hrepo. split_and!.
  - intros i k Hfind. unfold decode_type.
    rewrite (decode_loop_find order order dir obj repo Hrepo)
      by (intros; by eapply iteration_order_elem).
    rewrite Hfind.
    apply list_find_Some in Hfind as (_ & [v Hv]%elem_of_dom & _).
    exists v. by rewrite Hv.
  - intros k v Hk Hv Hothers. by apply decode_type_only_key.
  - intros Hnone. by apply decode_type_no_key.
Qed.

(** C7, as stated, fails: in a process where the set is iterated as
    [tag], [commit], [branch], a document with both a branch and a tag is
    decoded as a tag, not by the written order [branch], [commit], [tag]. *)
Lemma decode_type_not_declared_order :
  iteration_order other_order
  ∧ decode_type other_order "." branch_and_tag
    = inr (mkGitProjectFile "." (PStr "https://example.org/project.git")
             (PStr "v1.0") "tag")
  ∧ decode_type declared_order "." branch_and_tag
    = inr (mkGitProjectFile "." (PStr "https://example.org/project.git")
             (PStr "main") "branch").
Proof.
  split; [apply other_order_iteration|]. split; reflexivity.
Qed.

Lemma decode_type_first_in_iteration_witness :
  decode_type other_order "src" commit_only
  = inr (mkGitProjectFile "src" (PStr "https://example.org/project.git")
           (PStr "0a1b2c3") "commit").
Proof.
  destruct (decode_type_first_in_iteration other_order "src" commit_only
              (PStr "https://example.org/project.git")
              other_order_iteration eq_refl) as (_ & H & _).
  apply (H "commit" (PStr "0a1b2c3")).
  - unfold _VALID_BRANCH_TYPES. set_solver.
  - reflexivity.
  - intros k' Hk' Hne. unfold _VALID_BRANCH_TYPES in Hk'.
    apply elem_of_union in Hk' as [Hk'|Hk'].
    + apply elem_of_union in Hk' as [Hk'|Hk'];
        apply elem_of_singleton in Hk'; subst k'; [reflexivity|done].
    + apply elem_of_singleton in Hk'; subst k'. reflexivity.
Defined.

Lemma valid_not_repository k :
  k ∈ _VALID_BRANCH_TYPES → k ≠ "repository".
Proof. unfold _VALID_BRANCH_TYPES. intros Hk ->. set_solver. Qed.

(** C9: [encode_type] always writes [repository]; it writes the branch,
    under the key named by [branch_type], exactly when the branch is not the
    default [None], and writes nothing else. The key it writes is one that
    [decode_type] tests: whatever the iteration order, decoding the encoded
    descriptor gives back its repository, branch and branch type when the
    branch is set, and the base form when it is not. *)
Theorem encode_type_sparse obj dict_obj :
  branch_type obj ∈ _VALID_BRANCH_TYPES →
  encode_type obj dict_obj !! "repository" = Some (repository obj)
  ∧ (branch obj ≠ PNone →
       encode_type obj dict_obj
       = <[branch_type obj := branch obj]>
           (<["repository" := repository obj]> dict_obj)
       ∧ encode_type obj dict_obj !! branch_type obj = Some (branch obj))
  ∧ (branch obj = PNone →
       encode_type obj dict_obj
       = <["repository" := repository obj]> dict_obj)
  ∧ (∀ order, iteration_order order →
       decode_type order (dir obj) (encode_type obj ∅)
       = inr (if decide (branch obj = PNone)
              then mkGitProjectFile (dir obj) (repository obj) PNone "branch"
              else obj)).
Proof.
  intros Hvalid. pose proof (valid_not_repository _ Hvalid) as Hne.
  unfold encode_type, get_default_branch.
  split_and!.
  - case_decide; [rewrite lookup_insert_ne by done|]; apply lookup_insert_eq.
  - intros Hb. rewrite decide_True by done.
    split; [done|]. apply lookup_insert_eq.
  - intros Hb. by rewrite decide_False by (by intros []).
  - intros order Horder.
    destruct (decide (branch obj = PNone)) as [Hb|Hb].
    + rewrite decide_False by (by intros []).
      apply decode_type_no_key; [done|apply lookup_insert_eq|].
      intros k Hk.
      rewrite lookup_insert_ne by (symmetry; by apply valid_not_repository).
      done.
    + rewrite decide_True by done.
      rewrite (decode_type_only_key order (dir obj) _ (repository obj)
                 (branch_type obj) (branch obj)); try done.
      * by destruct obj.
      * rewrite lookup_insert_ne by done. apply lookup_insert_eq.
      * apply lookup_insert_eq.
      * intros k' Hk' Hne'. rewrite lookup_insert_ne by done.
        rewrite lookup_insert_ne
          by (symmetry; by apply valid_not_repository).
        done.
Qed.

Lemma encode_type_sparse_witness :
  encode_type tagged ∅ !! "repository"
    = Some (PStr "https://example.org/project.git")
  ∧ encode_type tagged ∅ !! "tag" = Some (PStr "v1.0")
  ∧ decode_type other_order "src" (encode_type tagged ∅) = inr tagged.
Proof.
  assert (Hvalid : branch_type tagged ∈ _VALID_BRANCH_TYPES)
    by (unfold _VALID_BRANCH_TYPES; simpl; set_solver).
  destruct (encode_type_sparse tagged ∅ Hvalid) as (Hr & Hb & _ & Hd).
  split_and!.
  - exact Hr.
  - apply Hb. discriminate.
  - exact (Hd other_order other_order_iteration).
Defined.

(** Without a [repository] key the loop ends in the [KeyError] of
    [obj['repository']], wherever it stops. *)
Lemma decode_loop_no_repository order remaining dir obj :
  obj !! "repository" = None →
  decode_loop order remaining dir obj = inl (KeyError "repository").
Proof.
  intros Hrepo. induction remaining as [|k rest IH]; simpl.
  - unfold getitem. by rewrite Hrepo.
  - case_decide; [|done]. unfold getitem. by rewrite Hrepo.
Qed.

(** X6: [decode_type] fails only for want of a repository. Whatever the
    iteration order of the set, a document without the key [repository]
    raises [KeyError('repository')], also when it names a branch; a
    document with it is always decoded, the [ValueError] of the
    constructor never being raised: the descriptor has the document's
    repository and the given directory, a valid branch type, and a branch
    that is the document's value at the key named by the branch type, or
    [None] when the document has none of the three keys. *)
Theorem decode_type_total order dir obj :
  iteration_order order →
  (obj !! "repository" = None →
     decode_type order dir obj = inl (KeyError "repository"))
  ∧ (∀ repo, obj !! "repository" = Some repo →
       ∃ g, decode_type order dir obj = inr g
            ∧ repository g = repo ∧ Git.dir g = dir
            ∧ branch_type g ∈ _VALID_BRANCH_TYPES
            ∧ (obj !! branch_type g = Some (branch g)
               ∨ (branch g = PNone ∧ branch_type g = "branch"
                  ∧ ∀ k, k ∈ _VALID_BRANCH_TYPES → obj !! k = None))).
Proof.
  intros Horder. split.
  - intros Hrepo. by apply decode_loop_no_repository.
  - intros repo Hrepo. unfold decode_type.
    rewrite (decode_loop_find order order dir obj repo Hrepo)
      by (intros; by eapply iteration_order_elem).
    destruct (list_find (λ k, k ∈ dom obj) order) as [[i k]|] eqn:Hfind.
    + apply list_find_Some in Hfind as (Hi & [v Hv]%elem_of_dom & _).
      eexists. split; [reflexivity|]. simpl. split_and!; try done.
      * eapply iteration_order_elem; [done|].
        by eapply list_elem_of_lookup_2.
      * left. by rewrite Hv.
    + apply list_find_None in Hfind. rewrite Forall_forall in Hfind.
      eexists. split; [reflexivity|]. simpl.
      split_and!; [done | done | unfold _VALID_BRANCH_TYPES; set_solver |].
      right. split_and!; try done. intros k Hk.
      apply not_elem_of_dom. apply Hfind.
      by apply iteration_order_elem.
Qed.

(** X7: decoding a document and encoding the descriptor into an empty
    dict gives a part of the document: every key written is a key of the
    document with the document's value, [repository] is among them, and at
    most one other key is. The document's other keys, a second reference
    among them, and a reference whose value is [null] are not written
    back. *)
Theorem decode_encode_subdocument order dir obj g :
  iteration_order order →
  decode_type order dir obj = inr g →
  encode_type g ∅ ⊆ obj
  ∧ encode_type g ∅ !! "repository" = obj !! "repository"
  ∧ (∀ k, k ≠ "repository" → k ≠ branch_type g →
       encode_type g ∅ !! k = None)
  ∧ (obj !! branch_type g = Some PNone →
       encode_type g ∅ = {[ "repository" := repository g ]}).
Proof.
  intros Horder Hdec.
  destruct (obj !! "repository") as [repo|] eqn:Hrepo; last first.
  { unfold decode_type in Hdec.
    by rewrite (decode_loop_no_repository order order dir obj Hrepo)
      in Hdec. }
  destruct (decode_type_total order dir obj Horder) as [_ Htot].
  destruct (Htot repo Hrepo) as (g' & Hg' & Hr & Hd & Hvalid & Hb).
  rewrite Hdec in Hg'. injection Hg' as <-.
  pose proof (valid_not_repository _ Hvalid) as Hne.
  assert (Hbase : ({[ "repository" := repository g ]} : DictObject) ⊆ obj).
  { apply map_singleton_subseteq_l. by rewrite Hr. }
  unfold encode_type, get_default_branch.
  rewrite insert_empty.
  destruct (decide (branch g ≠ PNone)) as [Hset|Hunset].
  - destruct Hb as [Hb|[Hb _]]; [|done].
    split_and!.
    + apply insert_subseteq_l; done.
    + rewrite lookup_insert_ne by done.
      rewrite lookup_singleton_eq. by rewrite Hr.
    + intros k Hk1 Hk2. rewrite lookup_insert_ne by done.
      by rewrite lookup_singleton_ne.
    + intros Hnull. rewrite Hnull in Hb. injection Hb as Hb. congruence.
  - split_and!.
    + done.
    + rewrite lookup_singleton_eq. by rewrite Hr.
    + intros k Hk1 Hk2. by rewrite lookup_singleton_ne.
    + done.
Qed.

Lemma decode_type_total_witness :
  decode_type other_order "src" (delete "repository" branch_and_tag)
    = inl (KeyError "repository")
  ∧ ∃ g, decode_type other_order "src" branch_and_tag = inr g
         ∧ branch_type g ∈ _VALID_BRANCH_TYPES.
Proof.
  destruct (decode_type_total other_order "src"
              (delete "repository" branch_and_tag) other_order_iteration)
    as [H _].
  destruct (decode_type_total other_order "src" branch_and_tag
              other_order_iteration) as [_ H'].
  split; [apply H; reflexivity|].
  destruct (H' (PStr "https://example.org/project.git") eq_refl)
    as (g & Hg & _ & _ & Hv & _).
  by exists g.
Defined.

Lemma decode_encode_subdocument_witness :
  encode_type tagged ∅ ⊆ branch_and_tag.
Proof.
  destruct (decode_encode_subdocument other_order "src" branch_and_tag
              tagged other_order_iteration eq_refl) as [H _].
  exact H.
Defined.

End GitSpec.

(** ** The workspace *)
Module ProjectSpec.
Import Project.

Lemma parents_upto_under n q d : d ∈ parents_upto n q → under d q.
Proof.
  revert q. induction n as [|n IH]; intros q; simpl; [set_solver|].
  destruct (all_slashes (chars (dirname q))) eqn:Hall; [set_solver|].
  intros [->|Hd]%elem_of_cons.
  - by apply dirname_under.
  - eapply under_trans; [by apply IH|]. by apply dirname_under.
Qed.

Lemma parents_under q d : d ∈ parents q → under d q.
Proof. apply parents_upto_under. Qed.

(** A tidy directory name is not made of slashes, and neither is a path
    inside it. *)
Lemma tidy_not_all_slashes d : tidy d → all_slashes (chars d) = false.
Proof.
  intros [Hne Hend]. unfold endswith in Hend.
  apply bool_decide_eq_false in Hend.
  apply not_true_is_false. intros Hall. apply Hend.
  destruct (chars d) as [|c l _] eqn:E using rev_ind.
  { by apply chars_nil in E. }
  unfold all_slashes in Hall. rewrite forallb_forall in Hall.
  specialize (Hall c). rewrite bool_decide_eq_true in Hall.
  rewrite Hall by (apply in_elt). by exists l.
Qed.

Lemma under_all_slashes d q :
  under d q → all_slashes (chars q) = true → all_slashes (chars d) = true.
Proof.
  intros [r ->]%under_iff. rewrite !chars_app.
  unfold all_slashes. rewrite !forallb_app. by intros [? _]%andb_true_iff.
Qed.

(** *** What the file system operations do *)

Lemma path_exists_true fs p : path_exists fs p = true ↔ entry fs p.
Proof. unfold path_exists. apply bool_decide_eq_true. Qed.

Lemma path_exists_false fs p : path_exists fs p = false ↔ ¬ entry fs p.
Proof. unfold path_exists. apply bool_decide_eq_false. Qed.

Lemma rmtree_spec d fs fs' :
  rmtree d fs = inr fs' →
  vacant d fs'
  ∧ (∀ q, ¬ within d q → files fs' !! q = files fs !! q)
  ∧ (∀ q, ¬ within d q → q ∈ dirs fs' ↔ q ∈ dirs fs).
Proof.
  unfold rmtree. case_bool_decide; [|by case_bool_decide].
  intros Heq; injection Heq as <-. simpl. split_and!.
  - intros q Hq [Hf|Hd]; simpl in *.
    + apply elem_of_dom in Hf as [c Hc].
      apply map_lookup_filter_Some in Hc as [_ Hc]. done.
    + apply elem_of_filter in Hd as [Hd _]. done.
  - intros q Hq. destruct (files fs !! q) as [c|] eqn:E.
    + by apply map_lookup_filter_Some.
    + apply map_lookup_filter_None. by left.
  - intros q Hq. rewrite elem_of_filter. tauto.
Qed.

Lemma makedirs_spec name exist_ok fs fs' :
  makedirs name exist_ok fs = inr fs' →
  files fs' = files fs
  ∧ name ∈ dirs fs'
  ∧ dirs fs ⊆ dirs fs'
  ∧ (∀ d, d ∈ dirs fs' → d ∈ dirs fs ∨ within d name).
Proof.
  unfold makedirs. repeat case_bool_decide; try done.
  - destruct exist_ok; [|done]. intros Heq; injection Heq as <-. set_solver.
  - intros Heq; injection Heq as <-. simpl. split_and!; [done|set_solver|set_solver|].
    intros d. rewrite !elem_of_union, elem_of_singleton, elem_of_list_to_set.
    intros [[?| ->]|Hd]; [by left|right; by left|].
    right. right. by apply parents_under.
Qed.

Lemma open_read_spec p fs content :
  open_read p fs = inr content ↔ files fs !! p = Some content.
Proof.
  unfold open_read. destruct (files fs !! p) as [c|].
  - unfold mret, res_ret. split; intros Heq; by simplify_eq.
  - unfold throw. split; [|done].
    case_bool_decide; [done|]. destruct (below_file fs p); [done|].
    by destruct (endswith p sep && bool_decide (dirname p ∈ dirs fs)).
Qed.

(** What a write that returned has found: the path does not end with a
    separator, is not a directory and lies below no regular file, and the
    directory that holds it is there. *)
Lemma write_file_inv p content fs fs' :
  write_file p content fs = inr fs' →
  fs' = with_file p content fs
  ∧ (p ∉ dirs fs)
  ∧ below_file fs p = false
  ∧ parent_exists fs p = true.
Proof.
  unfold write_file, without_sep.
  destruct (endswith p sep) eqn:Hend; simpl.
  { destruct (below_file fs (dirname p)); [done|].
    by destruct (parent_exists fs (dirname p)). }
  destruct (below_file fs p); [done|].
  destruct (parent_exists fs p); simpl; [|done].
  case_bool_decide; [done|]. intros Heq. by injection Heq as <-.
Qed.

Lemma write_file_spec p content fs fs' :
  write_file p content fs = inr fs' →
  fs' = with_file p content fs ∧ p ∉ dirs fs.
Proof. intros (? & ? & _)%write_file_inv. done. Qed.

Lemma with_file_twice p content content' fs :
  with_file p content (with_file p content' fs) = with_file p content fs.
Proof. unfold with_file. simpl. f_equal. apply insert_insert_eq. Qed.

Lemma decode_text_spec content text :
  decode_text content = inr text ↔
  utf8_valid (chars content) = true ∧ text = read_text content.
Proof.
  unfold decode_text. destruct (utf8_valid (chars content)).
  - split; [intros Heq; by injection Heq as <-|by intros [_ ->]].
  - split; [done|by intros [? _]].
Qed.

Lemma encode_text_spec text content :
  encode_text text = inr content ↔
  utf8_valid (chars text) = true ∧ content = text.
Proof.
  unfold encode_text. destruct (utf8_valid (chars text)).
  - split; [intros Heq; by injection Heq as <-|by intros [_ ->]].
  - split; [done|by intros [? _]].
Qed.

Lemma write_text_spec p text fs fs' :
  write_text p text fs = inr fs' →
  fs' = with_file p text fs
  ∧ (p ∉ dirs fs)
  ∧ utf8_valid (chars text) = true.
Proof.
  unfold write_text.
  destruct (write_file p "" fs) as [e|fs1] eqn:H1; simpl; [done|].
  apply write_file_spec in H1 as [-> Hd].
  destruct (encode_text text) as [e|content] eqn:H2; simpl; [done|].
  apply encode_text_spec in H2 as [Hv ->].
  intros [-> _]%write_file_spec. by rewrite with_file_twice.
Qed.

(** When the calls return: [os.makedirs] with [exist_ok] on a path that
    is no regular file and lies below none, a write to a path that is no
    directory, in a directory that is there and below no regular file. *)
Lemma makedirs_returns name fs :
  name ≠ "" → name ∉ dom (files fs) →
  (∀ d, under d name → d ∉ dom (files fs)) →
  ∃ fs', makedirs name true fs = inr fs'.
Proof.
  intros Hne Hfile Habove. unfold makedirs.
  case_bool_decide; [by eexists|].
  rewrite (bool_decide_false (name ∈ dom (files fs))) by done.
  rewrite (bool_decide_false (name = "")) by done.
  rewrite bool_decide_false; [by eexists|].
  intros (d & Hd & Hf)%Exists_exists.
  by apply (Habove d); [apply parents_under|].
Qed.

Lemma write_file_returns p content fs :
  endswith p sep = false →
  (∀ d, under d p → d ∉ dom (files fs)) →
  dirname p ∈ dirs fs → p ∉ dirs fs →
  write_file p content fs = inr (with_file p content fs).
Proof.
  intros Hend Habove Hparent Hdir. unfold write_file, without_sep.
  rewrite Hend. simpl.
  assert (below_file fs p = false) as ->.
  { apply bool_decide_eq_false. intros (d & Hd & Hf)%Exists_exists.
    by apply (Habove d); [apply parents_under|]. }
  unfold parent_exists. rewrite (bool_decide_true _ Hparent), orb_true_r.
  simpl. by rewrite bool_decide_false.
Qed.

Lemma write_text_returns p text fs :
  endswith p sep = false →
  (∀ d, under d p → d ∉ dom (files fs)) →
  dirname p ∈ dirs fs → p ∉ dirs fs →
  utf8_valid (chars text) = true →
  write_text p text fs = inr (with_file p text fs).
Proof.
  intros Hend Habove Hparent Hdir Htext. unfold write_text.
  rewrite write_file_returns by done. simpl.
  unfold encode_text. rewrite Htext. simpl.
  rewrite write_file_returns; [by rewrite with_file_twice|done| |done|done].
  intros d Hd. simpl. rewrite dom_insert_L.
  intros [->%elem_of_singleton|Hin]%elem_of_union.
  - by apply under_irrefl in Hd.
  - by apply (Habove d).
Qed.

(** *** Paths inside the workspace directories *)

Lemma inside_nonempty d r : inside d r ≠ "".
Proof.
  unfold inside. intros H%(f_equal len). rewrite !len_app in H.
  change (len sep) with 1 in H. change (len "") with 0 in H. lia.
Qed.

Lemma under_inside d r : under d (inside d r).
Proof. apply under_intro. Qed.

Lemma inside_inj d r r' : inside d r = inside d r' → r = r'.
Proof.
  unfold inside. intros H%(f_equal chars). rewrite !chars_app in H.
  apply app_inv_head in H. apply app_inv_head in H. by apply chars_inj.
Qed.

Lemma patch_file_inj d r r' : patch_file d r = patch_file d r' → r = r'.
Proof.
  unfold patch_file. intros H%inside_inj.
  apply (f_equal chars) in H. rewrite !chars_app in H.
  apply app_inv_tail in H. by apply chars_inj.
Qed.

Lemma under_patch_file d r : under d (patch_file d r).
Proof. apply under_intro. Qed.

Lemma under_inside_inside d r r' :
  under (inside d r) (inside d r') → under r r'.
Proof.
  unfold under, inside. rewrite !chars_app. intros [k Hk].
  rewrite <- !app_assoc in Hk.
  apply app_inv_head in Hk. apply app_inv_head in Hk.
  exists k. by rewrite Hk, <- app_assoc.
Qed.

Lemma under_inside_mono d r r' : under r r' → under (inside d r) (inside d r').
Proof.
  intros [x ->]%under_iff. apply under_iff. exists x.
  unfold inside. apply chars_inj. rewrite !chars_app. by rewrite <- !app_assoc.
Qed.

Lemma len_sep d : (Z.of_nat (len d) + 1)%Z = Z.of_nat (len (d +:+ sep)).
Proof. rewrite len_app. change (len sep) with 1. lia. Qed.

(** The relative path that [output_working] slices off a walked path. *)
Lemma rel_path_inside d r :
  py_slice (inside d r) (Z.of_nat (len d) + 1) None = r.
Proof.
  unfold inside. rewrite len_sep.
  replace (d +:+ sep +:+ r) with ((d +:+ sep) +:+ r).
  - apply py_slice_prefix.
  - apply chars_inj. rewrite !chars_app. by rewrite <- app_assoc.
Qed.

Lemma inside_no_double_slash d r :
  no_double_slash (chars (inside d r)) = true → startswith r sep = false.
Proof. apply no_double_slash_rel. Qed.

Lemma path_join_inside d r :
  tidy d → startswith r sep = false → path_join d r = inside d r.
Proof. apply path_join_rel. Qed.

Lemma startswith_app_false r x :
  r ≠ "" → startswith r sep = false → startswith (r +:+ x) sep = false.
Proof.
  intros Hr. rewrite !startswith_sep_false. intros H r' Heq.
  destruct r as [|c r]; [done|]. simpl in Heq. injection Heq as -> Heq.
  by apply (H r).
Qed.

Lemma startswith_patch_name r :
  startswith r sep = false →
  startswith (r +:+ extsep +:+ "patch") sep = false.
Proof.
  intros H. destruct (decide (r = "")) as [->|Hr]; [done|].
  by apply startswith_app_false.
Qed.


(** The directory that holds a path inside a tidy directory is not the
    root. *)
Lemma from_slash_suffix a b :
  (slash :: b) `suffix_of` from_slash (a ++ slash :: b).
Proof.
  induction a as [|c a IH]; simpl.
  - by exists [].
  - case_decide; [|done]. subst c. by exists (slash :: a).
Qed.

Lemma all_slashes_app l k :
  all_slashes (l ++ k) = all_slashes l && all_slashes k.
Proof. apply forallb_app. Qed.

Lemma dirname_inside d r :
  tidy d → all_slashes (chars (dirname (inside d r))) = false.
Proof.
  intros Hd. pose proof (tidy_not_all_slashes d Hd) as Hns.
  unfold dirname, inside. rewrite !chars_app, !reverse_app.
  change (reverse (chars sep)) with [slash]. rewrite <- app_assoc. simpl.
  destruct (from_slash_suffix (reverse (chars r)) (reverse (chars d)))
    as [k Hk].
  rewrite Hk.
  assert (Hhead : all_slashes (k ++ slash :: reverse (chars d)) = false).
  { rewrite all_slashes_app. apply andb_false_iff. right. simpl.
    by rewrite all_slashes_reverse. }
  rewrite Hhead. rewrite chars_str, all_slashes_reverse.
  destruct (lstrip_slash_split (k ++ slash :: reverse (chars d))) as [n Hn].
  rewrite Hn in Hhead. rewrite all_slashes_app in Hhead.
  apply andb_false_iff in Hhead as [Hhead|Hhead]; [|done].
  exfalso. clear -Hhead. induction n; simpl in *; [done|]. auto.
Qed.

Lemma dirname_inside_under d r : tidy d → under (dirname (inside d r)) (inside d r).
Proof. intros Hd. apply dirname_under. by apply dirname_inside. Qed.

(** *** Loops *)

Lemma for_each_inv {A} (I : list A → filesystem → Prop)
    (body : A → filesystem → res filesystem) items fs fs' :
  I [] fs →
  (∀ done x rest fs1 fs2,
     items = done ++ x :: rest → I done fs1 → body x fs1 = inr fs2 →
     I (done ++ [x]) fs2) →
  for_each body items fs = inr fs' →
  I items fs'.
Proof.
  intros Hstart Hstep.
  enough (Hgen : ∀ rest done fs1,
             items = done ++ rest → I done fs1 →
             for_each body rest fs1 = inr fs' → I items fs').
  { by apply (Hgen items [] fs). }
  induction rest as [|x rest IH]; intros done fs1 Hitems Hdone; simpl.
  - intros Heq. injection Heq as <-. by rewrite Hitems, app_nil_r.
  - destruct (body x fs1) as [e|fs2] eqn:Hbody; simpl; [done|].
    apply (IH (done ++ [x])).
    + by rewrite <- app_assoc.
    + by eapply Hstep.
Qed.

Lemma for_each_returns {A} (I : list A → filesystem → Prop)
    (body : A → filesystem → res filesystem) items fs :
  I [] fs →
  (∀ done x rest fs1,
     items = done ++ x :: rest → I done fs1 →
     ∃ fs2, body x fs1 = inr fs2 ∧ I (done ++ [x]) fs2) →
  ∃ fs', for_each body items fs = inr fs' ∧ I items fs'.
Proof.
  intros Hstart Hstep.
  enough (Hgen : ∀ rest done fs1,
             items = done ++ rest → I done fs1 →
             ∃ fs', for_each body rest fs1 = inr fs' ∧ I items fs').
  { by apply (Hgen items [] fs). }
  induction rest as [|x rest IH]; intros done fs1 Hitems Hdone; simpl.
  - exists fs1. by rewrite Hitems, app_nil_r.
  - destruct (Hstep done x rest fs1 Hitems Hdone) as (fs2 & -> & Hnext).
    simpl. apply (IH (done ++ [x])); [|done]. by rewrite <- app_assoc.
Qed.

Lemma for_each_unchanged {A} (body : A → filesystem → res filesystem)
    items fs :
  (∀ x, x ∈ items → body x fs = inr fs) → for_each body items fs = inr fs.
Proof.
  induction items as [|x items IH]; intros Hbody; simpl; [done|].
  rewrite Hbody by set_solver. simpl. apply IH. intros. apply Hbody. set_solver.
Qed.


Lemma apart a b p : separate a b → under a p → under b p → False.
Proof. intros Hs Ha Hb. eapply separate_under; [done..|]. by right. Qed.

Lemma apart_within a b p : separate a b → under a p → within b p → False.
Proof. intros Hs Ha Hb. by eapply separate_under. Qed.

(** *** Capture *)
Section capture.

Variable create_patch : string → string → string → string → string.
Variable as_posix : string → string.
Variable scan : list string → list string.
Hypothesis scan_perm : ∀ l, scan l ≡ₚ l.

Lemma elem_of_walk top fs p :
  p ∈ walk scan top fs ↔ under top p ∧ p ∈ dom (files fs).
Proof.
  unfold walk. by rewrite scan_perm, list_elem_of_filter, elem_of_elements.
Qed.

Lemma NoDup_walk top fs : NoDup (walk scan top fs).
Proof. unfold walk. rewrite scan_perm. apply NoDup_filter, NoDup_elements. Qed.

Context (clean_dir working_dir patch_dir out_dir time : string).
Hypothesis Hlayout : layout clean_dir working_dir patch_dir out_dir.

Variable fs1 : filesystem.
Hypothesis fs1_paths :
  ∀ q, q ∈ dom (files fs1) → no_double_slash (chars q) = true.
Hypothesis fs1_leaves :
  ∀ p q, p ∈ dom (files fs1) → q ∈ dom (files fs1) → p ≠ "" → ¬ under p q.
Hypothesis fs1_hollow_patch : ∀ q, under patch_dir q → ¬ entry fs1 q.
Hypothesis fs1_hollow_out : ∀ q, under out_dir q → ¬ entry fs1 q.

Local Abbreviation captured_in :=
  (captured create_patch as_posix clean_dir working_dir patch_dir out_dir
     time fs1).
Local Abbreviation is_patch_in :=
  (is_patch create_patch as_posix clean_dir working_dir time fs1).

Lemma captured_start : captured_in [] fs1.
Proof.
  split; try done; try set_solver.
  - intros q text Hq Hf. exfalso. apply (fs1_hollow_patch q Hq).
    left. apply elem_of_dom. eauto.
  - intros q text Hq Hf. exfalso. apply (fs1_hollow_out q Hq).
    left. apply elem_of_dom. eauto.
Qed.

Lemma captured_more done x fs :
  captured_in done fs →
  (∀ r, inside working_dir r = x → entry fs1 (inside clean_dir r) →
        is_Some (files fs1 !! inside clean_dir r)) →
  (∀ r text, inside working_dir r = x → ¬ is_patch_in r text) →
  (∀ r content, inside working_dir r = x →
                ¬ is_new clean_dir working_dir fs1 r content) →
  captured_in (done ++ [x]) fs.
Proof.
  intros [] Hcf Hnp Hnn. split; try done.
  - intros q text Hq Hf.
    destruct (captured_patch_only0 q text Hq Hf) as (r & ? & ? & ?).
    exists r. set_solver.
  - intros r text [Hr|Hr%list_elem_of_singleton]%elem_of_app Hp; [by auto|].
    by destruct (Hnp r text).
  - intros q content Hq Hf.
    destruct (captured_out_only0 q content Hq Hf) as (r & ? & ? & ?).
    exists r. set_solver.
  - intros r content [Hr|Hr%list_elem_of_singleton]%elem_of_app Hn; [by auto|].
    by destruct (Hnn r content).
  - intros r [Hr|Hr%list_elem_of_singleton]%elem_of_app; [by auto|].
    by apply Hcf.
  - intros d Hd. destruct (captured_dirs_new0 d Hd) as [?|(r & ? & ?)];
      [by left|right]. exists r. set_solver.
Qed.

Lemma captured_dirs_clean done fs d :
  captured_in done fs → within clean_dir d → d ∈ dirs fs ↔ d ∈ dirs fs1.
Proof.
  intros [] Hd. split; [|by apply captured_dirs_kept0].
  intros Hin. destruct (captured_dirs_new0 d Hin) as [?|(r & _ & [Hu|Hu])];
    [done|exfalso..].
  - eapply (apart clean_dir patch_dir); [apply Hlayout| |apply under_patch_file].
    by eapply within_trans.
  - eapply (apart clean_dir out_dir); [apply Hlayout| |apply under_inside].
    by eapply within_trans.
Qed.

Lemma captured_entry_clean done fs r :
  captured_in done fs →
  entry fs (inside clean_dir r) ↔ entry fs1 (inside clean_dir r).
Proof.
  intros Hc. unfold entry.
  rewrite (captured_dirs_clean done fs _ Hc) by (right; apply under_inside).
  rewrite !elem_of_dom.
  rewrite (captured_other _ _ _ _ _ _ _ _ _ _ Hc); [done|..];
    intros Hu.
  - eapply (apart clean_dir patch_dir); [apply Hlayout|apply under_inside|done].
  - eapply (apart clean_dir out_dir); [apply Hlayout|apply under_inside|done].
Qed.

Lemma walked_file W :
  W ∈ dom (files fs1) → under working_dir W →
  ∃ r w, W = inside working_dir r
         ∧ files fs1 !! W = Some w
         ∧ py_slice W (Z.of_nat (len working_dir) + 1) None = r
         ∧ path_join clean_dir r = inside clean_dir r
         ∧ path_join out_dir r = inside out_dir r
         ∧ path_join patch_dir (r +:+ extsep +:+ _PATCH_EXTENSION)
           = patch_file patch_dir r.
Proof.
  intros Hfile [r ->]%under_iff. fold (inside working_dir r) in *.
  pose proof (inside_no_double_slash _ _ (fs1_paths _ Hfile)) as Hr.
  apply elem_of_dom in Hfile as [w Hw]. exists r, w.
  split_and!; try done.
  - apply rel_path_inside.
  - apply path_join_inside; [apply Hlayout|done].
  - apply path_join_inside; [apply Hlayout|done].
  - apply path_join_inside; [apply Hlayout|by apply startswith_patch_name].
Qed.

Lemma is_patch_fun r text text' :
  is_patch_in r text → is_patch_in r text' → text = text'.
Proof.
  intros (w & c & Hw & Hc & -> & _) (w' & c' & Hw' & Hc' & -> & _).
  congruence.
Qed.

Lemma capture_step done W fs fs2 :
  captured_in done fs →
  (∀ x, x ∈ done → x ∈ dom (files fs1)) →
  W ∈ dom (files fs1) → under working_dir W → W ∉ done →
  output_working_file create_patch as_posix clean_dir working_dir patch_dir
    out_dir time W fs = inr fs2 →
  captured_in (done ++ [W]) fs2.
Proof.
  intros Hc Hdone Hfile Hunder Hfresh.
  destruct (walked_file W Hfile Hunder)
    as (r & w & -> & Hw & Hrel & Hclean & Hout & Hpatch).
  assert (Hw_now : files fs !! inside working_dir r = Some w).
  { rewrite (captured_other _ _ _ _ _ _ _ _ _ _ Hc); [done|..]; intros Hu.
    - eapply (apart working_dir patch_dir);
        [apply Hlayout|apply under_inside|done].
    - eapply (apart working_dir out_dir);
        [apply Hlayout|apply under_inside|done]. }
  assert (Hclean_now :
    files fs !! inside clean_dir r = files fs1 !! inside clean_dir r).
  { apply (captured_other _ _ _ _ _ _ _ _ _ _ Hc); intros Hu.
    - eapply (apart clean_dir patch_dir);
        [apply Hlayout|apply under_inside|done].
    - eapply (apart clean_dir out_dir);
        [apply Hlayout|apply under_inside|done]. }
  unfold output_working_file. rewrite Hrel, Hclean.
  destruct (path_exists fs (inside clean_dir r)) eqn:Hexists.
  - (* the clean tree holds the path: diff *)
    apply path_exists_true in Hexists.
    unfold generate_patch. rewrite Hpatch.
    rewrite (proj2 (open_read_spec _ _ _) Hw_now). simpl.
    destruct (open_read (inside clean_dir r) fs) as [e|c] eqn:Hopen;
      simpl; [done|].
    apply open_read_spec in Hopen. rewrite Hclean_now in Hopen.
    unfold decode_text.
    destruct (utf8_valid (chars c)); simpl; [|done].
    destruct (utf8_valid (chars w)); simpl; [|done].
    case_bool_decide as Hdiff.
    + set (text := create_patch (read_text c) (read_text w) (as_posix r)
                     time) in *.
      destruct (makedirs (dirname (patch_file patch_dir r)) true fs)
        as [e|fs'] eqn:Hmk; simpl; [done|].
      apply makedirs_spec in Hmk as (Hfiles & Hdir & Hkept & Hnew).
      intros (-> & Hnodir & _)%write_text_spec.
      assert (Hartifact : is_patch_in r text) by (by exists w, c).
      split; simpl.
      * intros p Hp1 Hp2. rewrite lookup_insert_ne, Hfiles.
        { by apply Hc. }
        intros <-. apply Hp1, under_patch_file.
      * intros q text' Hq.
        destruct (decide (q = patch_file patch_dir r)) as [->|Hne].
        { rewrite lookup_insert_eq. intros Heq. injection Heq as <-.
          exists r. split_and!; [done|set_solver|done]. }
        rewrite lookup_insert_ne, Hfiles by done. intros Hf.
        destruct (captured_patch_only _ _ _ _ _ _ _ _ _ _ Hc q text' Hq Hf)
          as (r' & ? & ? & ?).
        exists r'. set_solver.
      * intros r' text' [Hin|Heq%list_elem_of_singleton]%elem_of_app Hp.
        { rewrite lookup_insert_ne, Hfiles.
          - destruct (captured_patch _ _ _ _ _ _ _ _ _ _ Hc r' text' Hin Hp).
            split; [done|]. by apply Hkept.
          - intros ->%patch_file_inj. done. }
        apply inside_inj in Heq as ->.
        rewrite (is_patch_fun r text' text Hp Hartifact).
        by rewrite lookup_insert_eq.
      * intros q content Hq. rewrite lookup_insert_ne, Hfiles.
        { intros Hf.
          destruct (captured_out_only _ _ _ _ _ _ _ _ _ _ Hc q content Hq Hf)
            as (r' & ? & ? & ?).
          exists r'. set_solver. }
        intros <-. eapply (apart patch_dir out_dir);
          [apply Hlayout|apply under_patch_file|done].
      * intros r' content [Hin|Heq%list_elem_of_singleton]%elem_of_app Hn.
        { rewrite lookup_insert_ne, Hfiles.
          - by eapply captured_out.
          - intros Heq. eapply (apart patch_dir out_dir);
              [apply Hlayout|apply under_patch_file|].
            rewrite Heq. apply under_inside. }
        apply inside_inj in Heq as ->. destruct Hn as [_ Hno].
        exfalso. apply Hno. left. apply elem_of_dom. eauto.
      * intros r' [Hin|Heq%list_elem_of_singleton]%elem_of_app;
          [by eapply captured_clean_file|].
        apply inside_inj in Heq as ->. eauto.
      * etrans; [apply Hc|done].
      * intros d Hd. destruct (Hnew d Hd) as [Hold|Hwithin].
        { destruct (captured_dirs_new _ _ _ _ _ _ _ _ _ _ Hc d Hold)
            as [?|(r' & ? & ?)]; [by left|right].
          exists r'. set_solver. }
        right. exists r. split; [set_solver|]. left.
        eapply within_trans; [done|].
        apply dirname_inside_under, Hlayout.
    + intros Heq. injection Heq as <-.
      apply captured_more; [done|..].
      * intros r' <-%inside_inj _. eauto.
      * intros r' text <-%inside_inj (w' & c' & Hw' & Hc' & -> & Hne).
        apply Hne. congruence.
      * intros r' content <-%inside_inj [_ Hno]. apply Hno.
        left. apply elem_of_dom. eauto.
  - (* the clean tree does not hold the path: copy *)
    apply path_exists_false in Hexists.
    unfold output_file. rewrite Hout.
    destruct (makedirs (dirname (inside out_dir r)) true fs)
      as [e|fs'] eqn:Hmk; simpl; [done|].
    apply makedirs_spec in Hmk as (Hfiles & Hdir & Hkept & Hnew).
    assert (Hnotdir : inside out_dir r ∉ dirs fs').
    { intros Hd. destruct (Hnew _ Hd) as [Hold|Hwithin].
      - destruct (captured_dirs_new _ _ _ _ _ _ _ _ _ _ Hc _ Hold)
          as [H1|(r' & Hin & [Hu|Hu])].
        + apply (fs1_hollow_out (inside out_dir r)); [apply under_inside|].
          by right.
        + eapply (apart patch_dir out_dir);
            [apply Hlayout|apply under_patch_file|].
          eapply under_trans; [apply under_inside|done].
        + apply (fs1_leaves (inside working_dir r) (inside working_dir r'));
            [done|by apply Hdone|apply inside_nonempty|].
          by apply under_inside_mono, (under_inside_inside out_dir).
      - apply (under_irrefl (inside out_dir r)).
        eapply within_trans; [done|].
        apply dirname_inside_under, Hlayout. }
    unfold copy, isdir. rewrite (bool_decide_false _ Hnotdir).
    rewrite bool_decide_false; simpl.
    2:{ intros Heq. eapply (apart working_dir out_dir);
          [apply Hlayout|apply under_inside|].
        rewrite Heq. apply under_inside. }
    rewrite (proj2 (open_read_spec _ fs' w)) by (by rewrite Hfiles). simpl.
    intros [-> _]%write_file_spec.
    assert (Hartifact : is_new clean_dir working_dir fs1 r w).
    { split; [done|]. by rewrite <- (captured_entry_clean done fs). }
    split; simpl.
    * intros p Hp1 Hp2. rewrite lookup_insert_ne, Hfiles.
      { by apply Hc. }
      intros <-. apply Hp2, under_inside.
    * intros q text' Hq. rewrite lookup_insert_ne, Hfiles.
      { intros Hf.
        destruct (captured_patch_only _ _ _ _ _ _ _ _ _ _ Hc q text' Hq Hf)
          as (r' & ? & ? & ?).
        exists r'. set_solver. }
      intros <-. eapply (apart patch_dir out_dir);
        [apply Hlayout|done|apply under_inside].
    * intros r' text' [Hin|Heq%list_elem_of_singleton]%elem_of_app Hp.
      { rewrite lookup_insert_ne, Hfiles.
        - destruct (captured_patch _ _ _ _ _ _ _ _ _ _ Hc r' text' Hin Hp).
          split; [done|]. by apply Hkept.
        - intros Heq. eapply (apart patch_dir out_dir);
            [apply Hlayout|apply under_patch_file|].
          rewrite <- Heq. apply under_inside. }
      apply inside_inj in Heq as ->.
      destruct Hp as (w' & c' & _ & Hc' & _). destruct Hartifact as [_ Hno].
      exfalso. apply Hno. left. apply elem_of_dom. eauto.
    * intros q content Hq.
      destruct (decide (q = inside out_dir r)) as [->|Hne].
      { rewrite lookup_insert_eq. intros Heq. injection Heq as <-.
        exists r. split_and!; [done|set_solver|done]. }
      rewrite lookup_insert_ne, Hfiles by done. intros Hf.
      destruct (captured_out_only _ _ _ _ _ _ _ _ _ _ Hc q content Hq Hf)
        as (r' & ? & ? & ?).
      exists r'. set_solver.
    * intros r' content [Hin|Heq%list_elem_of_singleton]%elem_of_app Hn.
      { rewrite lookup_insert_ne, Hfiles.
        - by eapply captured_out.
        - intros ->%inside_inj. done. }
      apply inside_inj in Heq as ->.
      destruct Hn as [Hw' _], Hartifact as [Hw'' _].
      rewrite lookup_insert_eq. congruence.
    * intros r' [Hin|Heq%list_elem_of_singleton]%elem_of_app;
        [by eapply captured_clean_file|].
      apply inside_inj in Heq as ->. intros Hentry.
      by destruct Hartifact as [_ Hno].
    * etrans; [apply Hc|done].
    * intros d Hd. destruct (Hnew d Hd) as [Hold|Hwithin].
      { destruct (captured_dirs_new _ _ _ _ _ _ _ _ _ _ Hc d Hold)
          as [?|(r' & ? & ?)]; [by left|right].
        exists r'. set_solver. }
      right. exists r. split; [set_solver|]. right.
      eapply within_trans; [done|].
      apply dirname_inside_under, Hlayout.
Qed.

Lemma capture_loop fs' :
  for_each
    (output_working_file create_patch as_posix clean_dir working_dir
       patch_dir out_dir time)
    (walk scan working_dir fs1) fs1 = inr fs' →
  captured_in (walk scan working_dir fs1) fs'.
Proof.
  pose proof (NoDup_walk working_dir fs1) as Hnodup.
  apply (for_each_inv
           (λ done fs, captured_in done fs
                       ∧ ∀ x, x ∈ done → x ∈ walk scan working_dir fs1)).
  - split; [apply captured_start|set_solver].
  - intros done x rest fs2 fs3 Hitems [Hc Hdone] Hbody.
    rewrite Hitems in Hnodup.
    apply NoDup_app in Hnodup as (_ & Hfresh & _).
    assert (Hx : x ∈ walk scan working_dir fs1) by (rewrite Hitems; set_solver).
    split.
    + apply elem_of_walk in Hx as [Hunder Hfile].
      eapply capture_step; try done.
      * intros y Hy. by apply (elem_of_walk working_dir fs1), Hdone.
      * intros Hin. apply (Hfresh x Hin). set_solver.
    + intros y [Hy| ->%list_elem_of_singleton]%elem_of_app; auto.
Qed.

(** With working files equal to the clean files, and a diff that is empty
    on equal texts, the loop leaves the file system as it is. *)
Lemma capture_loop_unchanged :
  (∀ a filename t, create_patch a a filename t = "") →
  (∀ r w, files fs1 !! inside working_dir r = Some w →
          files fs1 !! inside clean_dir r = Some w) →
  (∀ r w, files fs1 !! inside working_dir r = Some w →
          utf8_valid (chars w) = true) →
  for_each
    (output_working_file create_patch as_posix clean_dir working_dir
       patch_dir out_dir time)
    (walk scan working_dir fs1) fs1 = inr fs1.
Proof.
  intros Hsame Hequal Htext. apply for_each_unchanged.
  intros W [Hunder Hfile]%elem_of_walk.
  destruct (walked_file W Hfile Hunder)
    as (r & w & -> & Hw & Hrel & Hclean & Hout & Hpatch).
  pose proof (Hequal r w Hw) as Hc.
  unfold output_working_file. rewrite Hrel, Hclean.
  rewrite (proj2 (path_exists_true _ _))
    by (left; apply elem_of_dom; eauto).
  unfold generate_patch.
  rewrite (proj2 (open_read_spec _ _ _) Hw). simpl.
  rewrite (proj2 (open_read_spec _ _ _) Hc). simpl.
  unfold decode_text. rewrite (Htext r w Hw). simpl.
  rewrite Hsame. by rewrite bool_decide_false by (by intros []).
Qed.

End capture.


(** *** Removing a stale directory *)

Lemma remove_dir_spec d fs :
  wf fs → d ≠ "" →
  ∃ fs', (if path_exists fs d && isdir fs d then rmtree d fs else mret fs)
         = inr fs'
     ∧ wf fs'
     ∧ (∀ q, under d q → ¬ entry fs' q)
     ∧ d ∉ dirs fs'
     ∧ (∀ q, ¬ within d q → files fs' !! q = files fs !! q)
     ∧ (∀ q, ¬ within d q → q ∈ dirs fs' ↔ q ∈ dirs fs)
     ∧ (d ∉ dirs fs → fs' = fs).
Proof.
  intros Hwf Hd. destruct (decide (d ∈ dirs fs)) as [Hdir|Hdir].
  - assert (Hrm : ∃ fs', rmtree d fs = inr fs').
    { unfold rmtree. rewrite bool_decide_true by done. eauto. }
    destruct Hrm as [fs' Hrm]. exists fs'.
    rewrite (proj2 (path_exists_true fs d)) by (by right).
    unfold isdir. rewrite bool_decide_true by done. simpl.
    split; [done|].
    apply rmtree_spec in Hrm as (Hvacant & Hfiles & Hdirs).
    assert (Hold : ∀ q, entry fs' q → entry fs q ∧ ¬ within d q).
    { intros q Hq. assert (¬ within d q) as Hnot by (intros ?; by eapply Hvacant).
      split; [|done]. unfold entry in *.
      by rewrite !elem_of_dom, <- Hfiles, <- Hdirs, <- elem_of_dom. }
    split_and!; try done.
    + split.
      * intros q d' Hq Hu Hd'. destruct (Hold q Hq) as [Hq' Hnot].
        apply Hdirs; [|by eapply wf_dirs].
        intros Hw. apply Hnot. right. by eapply within_trans.
      * intros p Hp. destruct (Hold p (or_introl Hp)) as [[Hp'|Hp'] Hnot].
        -- rewrite Hdirs by done. by apply wf_files.
        -- rewrite Hdirs by done. intros _.
           apply elem_of_dom in Hp as [c Hc]. rewrite Hfiles in Hc by done.
           eapply wf_files; [done| |done]. apply elem_of_dom. eauto.
      * intros q Hq. destruct (Hold q Hq). by eapply wf_paths.
    + intros q Hq. apply Hvacant. by right.
    + intros Hin. apply (Hvacant d); [by left|by right].
  - exists fs. unfold isdir. rewrite (bool_decide_false _ Hdir), andb_false_r.
    split_and!; try done.
    intros q Hq Hentry. apply Hdir. by eapply wf_dirs.
Qed.


Lemma remove_dir_files d fs fs' :
  (if path_exists fs d && isdir fs d then rmtree d fs else mret fs)
  = inr fs' →
  dom (files fs') ⊆ dom (files fs).
Proof.
  destruct (path_exists fs d && isdir fs d).
  - unfold rmtree. case_bool_decide; [|by case_bool_decide].
    intros Heq. injection Heq as <-. simpl.
    apply subseteq_dom, map_filter_subseteq.
  - intros Heq. by injection Heq as <-.
Qed.

(** *** What a capture leaves *)
Section capture_spec.

Variable create_patch : string → string → string → string → string.
Variable as_posix : string → string.
Variable scan : list string → list string.
Hypothesis scan_perm : ∀ l, scan l ≡ₚ l.

Context (clean_dir working_dir patch_dir out_dir : string).
Hypothesis Hlayout : layout clean_dir working_dir patch_dir out_dir.

Lemma tidy_nonempty d : tidy d → d ≠ "".
Proof. by intros []. Qed.

(** The stale captures are removed first, whatever they held. *)
Lemma output_working_clears time fs :
  wf fs →
  ∃ fs1,
    output_working create_patch as_posix scan clean_dir working_dir patch_dir
      out_dir time fs
    = for_each
        (output_working_file create_patch as_posix clean_dir working_dir
           patch_dir out_dir time)
        (walk scan working_dir fs1) fs1
    ∧ wf fs1
    ∧ (∀ q, under patch_dir q → ¬ entry fs1 q)
    ∧ (∀ q, under out_dir q → ¬ entry fs1 q)
    ∧ patch_dir ∉ dirs fs1 ∧ out_dir ∉ dirs fs1
    ∧ (∀ q, ¬ within patch_dir q → ¬ within out_dir q →
            files fs1 !! q = files fs !! q ∧ (q ∈ dirs fs1 ↔ q ∈ dirs fs))
    ∧ dom (files fs1) ⊆ dom (files fs)
    ∧ (patch_dir ∉ dirs fs → out_dir ∉ dirs fs → fs1 = fs).
Proof.
  intros Hwf.
  destruct (remove_dir_spec out_dir fs Hwf)
    as (fsa & Ha & Hwfa & Hhollow_a & Hno_a & Hfiles_a & Hdirs_a & Hid_a).
  { apply tidy_nonempty, Hlayout. }
  destruct (remove_dir_spec patch_dir fsa Hwfa)
    as (fsb & Hb & Hwfb & Hhollow_b & Hno_b & Hfiles_b & Hdirs_b & Hid_b).
  { apply tidy_nonempty, Hlayout. }
  exists fsb. unfold output_working. rewrite Ha. simpl. rewrite Hb. simpl.
  assert (Hpo : ¬ within patch_dir out_dir)
    by apply (apart_patch_out _ _ _ _ Hlayout).
  split_and!; try done.
  - intros q Hq [Hf|Hd].
    + apply elem_of_dom in Hf as [c Hc].
      rewrite Hfiles_b in Hc
        by (by eapply separate_under; [apply separate_sym, Hlayout|]).
      apply (Hhollow_a q Hq). left. apply elem_of_dom. eauto.
    + apply Hdirs_b in Hd;
        [|by eapply separate_under; [apply separate_sym, Hlayout|]].
      apply (Hhollow_a q Hq). by right.
  - intros Hin. apply Hdirs_b in Hin; [done|].
    intros Hw. apply Hpo. done.
  - intros q Hp Ho. rewrite Hfiles_b, Hfiles_a, Hdirs_b, Hdirs_a by done.
    done.
  - etrans; by eapply remove_dir_files.
  - intros Hp Ho. rewrite Hid_b, Hid_a; try done.
    by rewrite Hid_a.
Qed.

(** What a successful capture holds, in terms of the trees it read. *)
Lemma output_working_captured time fs fs' :
  wf fs →
  output_working create_patch as_posix scan clean_dir working_dir patch_dir
    out_dir time fs = inr fs' →
  ∃ fs1,
    captured create_patch as_posix clean_dir working_dir patch_dir out_dir
      time fs1 (walk scan working_dir fs1) fs'
    ∧ (∀ q, ¬ within patch_dir q → ¬ within out_dir q →
            files fs1 !! q = files fs !! q ∧ (q ∈ dirs fs1 ↔ q ∈ dirs fs)).
Proof.
  intros Hwf Hrun.
  destruct (output_working_clears time fs Hwf)
    as (fs1 & Heq & Hwf1 & Hhp & Hho & _ & _ & Hsame & _).
  rewrite Heq in Hrun. exists fs1. split; [|done].
  eapply capture_loop; try done.
  - intros q Hq. apply (wf_paths _ Hwf1). by left.
  - intros p q Hp Hq Hne Hu. apply (wf_files _ Hwf1 p Hp).
    eapply (wf_dirs _ Hwf1); [|done..]. by left.
Qed.

Lemma sources_apart q :
  under clean_dir q ∨ under working_dir q →
  ¬ within patch_dir q ∧ ¬ within out_dir q.
Proof.
  intros [Hq|Hq]; split; intros Hw;
    (eapply apart_within; [|exact Hq|exact Hw]); apply Hlayout.
Qed.


Lemma is_patch_same_sources time fs1 fs r text :
  (∀ q, ¬ within patch_dir q → ¬ within out_dir q →
        files fs1 !! q = files fs !! q ∧ (q ∈ dirs fs1 ↔ q ∈ dirs fs)) →
  is_patch create_patch as_posix clean_dir working_dir time fs1 r text
  ↔ is_patch create_patch as_posix clean_dir working_dir time fs r text.
Proof.
  intros Hsame. unfold is_patch.
  destruct (sources_apart (inside working_dir r))
    as [Hwp Hwo]; [right; apply under_inside|].
  destruct (sources_apart (inside clean_dir r))
    as [Hcp Hco]; [left; apply under_inside|].
  destruct (Hsame _ Hwp Hwo) as [-> _].
  by destruct (Hsame _ Hcp Hco) as [-> _].
Qed.

Lemma is_new_same_sources fs1 fs r content :
  (∀ q, ¬ within patch_dir q → ¬ within out_dir q →
        files fs1 !! q = files fs !! q ∧ (q ∈ dirs fs1 ↔ q ∈ dirs fs)) →
  is_new clean_dir working_dir fs1 r content
  ↔ is_new clean_dir working_dir fs r content.
Proof.
  intros Hsame. unfold is_new, entry.
  destruct (sources_apart (inside working_dir r))
    as [Hwp Hwo]; [right; apply under_inside|].
  destruct (sources_apart (inside clean_dir r))
    as [Hcp Hco]; [left; apply under_inside|].
  destruct (Hsame _ Hwp Hwo) as [-> _].
  destruct (Hsame _ Hcp Hco) as [Hf Hd].
  by rewrite !elem_of_dom, Hf, Hd.
Qed.

(** The patch and the output directory after a capture hold the artifacts
    of the clean and the working tree, and nothing else. *)
Lemma output_working_exact time fs fs' :
  wf fs →
  output_working create_patch as_posix scan clean_dir working_dir patch_dir
    out_dir time fs = inr fs' →
  (∀ q text, under patch_dir q →
     files fs' !! q = Some text
     ↔ ∃ r, q = patch_file patch_dir r
            ∧ is_patch create_patch as_posix clean_dir working_dir time fs
                r text)
  ∧ (∀ q content, under out_dir q →
       files fs' !! q = Some content
       ↔ ∃ r, q = inside out_dir r
              ∧ is_new clean_dir working_dir fs r content).
Proof.
  intros Hwf Hrun.
  destruct (output_working_captured time fs fs' Hwf Hrun)
    as (fs1 & Hcap & Hsame).
  split.
  - intros q text Hq. split.
    + intros Hf.
      destruct (captured_patch_only _ _ _ _ _ _ _ _ _ _ Hcap q text Hq Hf)
        as (r & -> & _ & Hartifact).
      exists r. split; [done|]. by apply (is_patch_same_sources time fs1 fs).
    + intros (r & -> & Hartifact).
      apply (is_patch_same_sources time fs1 fs) in Hartifact; [|done].
      eapply captured_patch; [done| |done].
      destruct Hartifact as (w & c & Hw & _).
      apply elem_of_walk; [done|]. split; [apply under_inside|].
      apply elem_of_dom. eauto.
  - intros q content Hq. split.
    + intros Hf.
      destruct (captured_out_only _ _ _ _ _ _ _ _ _ _ Hcap q content Hq Hf)
        as (r & -> & _ & Hartifact).
      exists r. split; [done|]. by apply (is_new_same_sources fs1 fs).
    + intros (r & -> & Hartifact).
      apply (is_new_same_sources fs1 fs) in Hartifact; [|done].
      eapply captured_out; [done| |done].
      destruct Hartifact as [Hw _].
      apply elem_of_walk; [done|]. split; [apply under_inside|].
      apply elem_of_dom. eauto.
Qed.

(** When no working file differs from its clean file, and the diff of
    equal texts is empty, a capture returns and leaves no artifact, and so
    does the next. *)
Lemma output_working_unedited time fs :
  wf fs →
  (∀ a filename t, create_patch a a filename t = "") →
  (∀ r w, files fs !! inside working_dir r = Some w →
          files fs !! inside clean_dir r = Some w) →
  (∀ r w, files fs !! inside working_dir r = Some w →
          utf8_valid (chars w) = true) →
  ∃ fs',
    output_working create_patch as_posix scan clean_dir working_dir patch_dir
      out_dir time fs = inr fs'
    ∧ (∀ q, under patch_dir q ∨ under out_dir q → ¬ entry fs' q)
    ∧ patch_dir ∉ dirs fs' ∧ out_dir ∉ dirs fs'
    ∧ ∀ time',
        output_working create_patch as_posix scan clean_dir working_dir
          patch_dir out_dir time' fs' = inr fs'.
Proof.
  intros Hwf Hempty Hequal Htext.
  destruct (output_working_clears time fs Hwf)
    as (fs1 & Heq & Hwf1 & Hhp & Hho & Hnp & Hno & Hsame & _).
  assert (Hequal1 : ∀ r w, files fs1 !! inside working_dir r = Some w →
                           files fs1 !! inside clean_dir r = Some w).
  { intros r w.
    destruct (sources_apart (inside working_dir r))
      as [Hwp Hwo]; [right; apply under_inside|].
    destruct (sources_apart (inside clean_dir r))
      as [Hcp Hco]; [left; apply under_inside|].
    destruct (Hsame _ Hwp Hwo) as [-> _].
    destruct (Hsame _ Hcp Hco) as [-> _]. apply Hequal. }
  assert (Htext1 : ∀ r w, files fs1 !! inside working_dir r = Some w →
                          utf8_valid (chars w) = true).
  { intros r w.
    destruct (sources_apart (inside working_dir r))
      as [Hwp Hwo]; [right; apply under_inside|].
    destruct (Hsame _ Hwp Hwo) as [-> _]. apply Htext. }
  assert (Hloop : ∀ time',
    for_each
      (output_working_file create_patch as_posix clean_dir working_dir
         patch_dir out_dir time')
      (walk scan working_dir fs1) fs1 = inr fs1).
  { intros time'. eapply capture_loop_unchanged; try done.
    intros q Hq. apply (wf_paths _ Hwf1). by left. }
  exists fs1. split_and!; try done.
  - by rewrite Heq.
  - intros q [Hq|Hq]; auto.
  - intros time'.
    destruct (output_working_clears time' fs1 Hwf1)
      as (fs2 & Heq2 & _ & _ & _ & _ & _ & _ & _ & Hid).
    rewrite Heq2, (Hid Hnp Hno). apply Hloop.
Qed.

End capture_spec.


(** *** Checking a file system *)

Lemma parents_exist_sound fs q d :
  parents_exist fs q = true → under d q → d ≠ "" → d ∈ dirs fs.
Proof.
  unfold parents_exist. rewrite forallb_forall.
  intros Hall [k Hk] Hd. rewrite chars_app, <- app_assoc in Hk.
  assert (Hlen : 0 < length (chars d)).
  { destruct d; [done|simpl; lia]. }
  assert (Hat : chars q !! length (chars d) = Some slash).
  { rewrite Hk, lookup_app_r by lia. by rewrite Nat.sub_diag. }
  specialize (Hall (length (chars d))). rewrite Hat in Hall.
  rewrite Hk, take_app_length, str_chars in Hall.
  rewrite (bool_decide_true (0 < _)) in Hall by done.
  rewrite bool_decide_true in Hall by done. simpl in Hall.
  eapply bool_decide_eq_true_1, Hall.
  apply in_seq. rewrite length_app. simpl. lia.
Qed.

Lemma wf_check_sound fs : wf_check fs = true → wf fs.
Proof.
  unfold wf_check. rewrite andb_true_iff, !forallb_forall.
  intros [Hentries Hfiles].
  assert (Hentry : ∀ q, entry fs q →
            no_double_slash (chars q) = true ∧ parents_exist fs q = true).
  { intros q Hq. apply andb_true_iff, Hentries.
    apply list_elem_of_In, elem_of_app.
    rewrite !elem_of_elements. exact Hq. }
  split.
  - intros q d Hq Hu Hd. eapply parents_exist_sound; [|done..].
    by apply Hentry.
  - intros p Hp. eapply bool_decide_eq_false_1, negb_true_iff, Hfiles.
    by apply list_elem_of_In, elem_of_elements.
  - intros q Hq. by apply Hentry.
Qed.

Lemma default_layout : layout "_clean" "_src" "_patches" "_out".
Proof.
  split; unfold tidy, separate;
    (eapply bool_decide_unpack; vm_compute; exact I).
Qed.

Lemma example_fs_wf : wf example_fs.
Proof. apply wf_check_sound. vm_compute. reflexivity. Qed.

Lemma unedited_fs_wf : wf unedited_fs.
Proof. apply wf_check_sound. vm_compute. reflexivity. Qed.

Lemma scan_sorted_perm l : scan_sorted l ≡ₚ l.
Proof. done. Qed.


Lemma create_patch_same a filename time :
  Patcher.create_patch a a filename time = "".
Proof. unfold Patcher.create_patch. by rewrite decide_True. Qed.







(** *** Applying patches *)
Section apply_spec.

Variable apply_patch : string → string → res string.
Variable scan : list string → list string.
Hypothesis scan_perm : ∀ l, scan l ≡ₚ l.

(** The slice of [apply_patches] drops the directory and a separator at
    the start and six characters at the end. *)
Lemma patch_rel_path_chars patch_dir p :
  chars (patch_rel_path patch_dir p)
  = take (length (chars p) - 6 - (len patch_dir + 1))
      (drop (len patch_dir + 1) (chars p)).
Proof.
  unfold patch_rel_path, _PATCH_EXTENSION.
  replace (Z.of_nat (len patch_dir) + 1)%Z
    with (Z.of_nat (len patch_dir + 1)) by lia.
  replace (- (Z.of_nat (len "patch") + 1))%Z with (- Z.of_nat 6)%Z by done.
  by rewrite py_slice_between by lia.
Qed.

Lemma patch_rel_path_inside patch_dir r s :
  len s = 6 → patch_rel_path patch_dir (inside patch_dir (r +:+ s)) = r.
Proof.
  intros Hs. apply chars_inj. rewrite patch_rel_path_chars. unfold inside.
  assert (Hp : chars (patch_dir +:+ sep +:+ r +:+ s)
               = (chars patch_dir ++ chars sep) ++ chars r ++ chars s)
    by (by rewrite !chars_app, <- app_assoc).
  assert (Hl : len patch_dir + 1 = length (chars patch_dir ++ chars sep))
    by (by rewrite length_app).
  rewrite Hp, Hl, drop_app_length, !length_app.
  unfold len in Hs. rewrite Hs.
  replace (length (chars patch_dir) + length (chars sep)
           + (length (chars r) + 6) - 6
           - (length (chars patch_dir) + length (chars sep)))
    with (length (chars r)) by lia.
  by rewrite take_app_length.
Qed.

(** X15, on the code of C10: [apply_patches] takes every file inside the
    patch directory for a patch: each is in the walk, whatever its name.
    The relative path of
    its target is the file's path without its first [len(patch_dir) + 1] and
    its last six characters, so for a path [patch_dir/r ++ s] with any six
    characters [s], the suffix [".patch"] or not, it is [r]; and the file's
    text is applied as a patch to the working file at that path.  Both
    files are opened as UTF-8 text: when the two decode and the patched
    text encodes, the working file holds the patched text, and when one of
    them does not decode the call raises [UnicodeDecodeError]. *)
Theorem apply_patches_any_suffix working_dir patch_dir fs p text :
  files fs !! p = Some text →
  under patch_dir p →
  apply_patches apply_patch scan working_dir patch_dir fs
  = for_each (apply_patch_file apply_patch working_dir patch_dir)
      (walk scan patch_dir fs) fs
  ∧ p ∈ walk scan patch_dir fs
  ∧ chars (patch_rel_path patch_dir p)
    = take (length (chars p) - 6 - (len patch_dir + 1))
        (drop (len patch_dir + 1) (chars p))
  ∧ (∀ r s, len s = 6 → p = inside patch_dir (r +:+ s) →
            patch_rel_path patch_dir p = r)
  ∧ (∀ work new,
       files fs !! path_join working_dir (patch_rel_path patch_dir p)
       = Some work →
       utf8_valid (chars work) = true →
       utf8_valid (chars text) = true →
       apply_patch (read_text work) (read_text text) = inr new →
       utf8_valid (chars new) = true →
       apply_patch_file apply_patch working_dir patch_dir p fs
       = inr (with_file
                (path_join working_dir (patch_rel_path patch_dir p))
                new fs))
  ∧ (∀ work,
       files fs !! path_join working_dir (patch_rel_path patch_dir p)
       = Some work →
       utf8_valid (chars work) = false ∨ utf8_valid (chars text) = false →
       apply_patch_file apply_patch working_dir patch_dir p fs
       = inl UnicodeDecodeError).
Proof.
  intros Hp Hunder. split_and!.
  - done.
  - apply elem_of_walk; [done|]. split; [done|]. apply elem_of_dom. eauto.
  - apply patch_rel_path_chars.
  - intros r s Hs ->. by apply patch_rel_path_inside.
  - intros work new Hwork Hw Ht Hnew Hn. unfold apply_patch_file.
    rewrite (proj2 (open_read_spec _ _ _) Hp). simpl.
    rewrite (proj2 (open_read_spec _ _ _) Hwork). simpl.
    unfold decode_text, encode_text. rewrite Hw, Ht. simpl.
    rewrite Hnew. simpl. by rewrite Hn.
  - intros work Hwork Hbad. unfold apply_patch_file.
    rewrite (proj2 (open_read_spec _ _ _) Hp). simpl.
    rewrite (proj2 (open_read_spec _ _ _) Hwork). simpl.
    unfold decode_text.
    destruct (utf8_valid (chars work)); simpl; [|done].
    destruct Hbad as [Hbad|Hbad]; [done|]. by rewrite Hbad.
Qed.

End apply_spec.

Lemma apply_patches_any_suffix_witness :
  patch_rel_path "_patches" "_patches/notes.txt" = "not"
  ∧ apply_patch_file Patcher.apply_patch "_src" "_patches"
      "_patches/notes.txt" misnamed_fs
    = inr (with_file "_src/not" Patcher.hello_world misnamed_fs).
Proof.
  destruct (apply_patches_any_suffix Patcher.apply_patch scan_sorted
              scan_sorted_perm "_src" "_patches" misnamed_fs
              "_patches/notes.txt"
              (Patcher.create_patch Patcher.hello Patcher.hello_world
                 "a.txt" Patcher.stamp))
    as (_ & _ & _ & Hrel & Hstep & _).
  - reflexivity.
  - eapply bool_decide_unpack. vm_compute. exact I.
  - split.
    + by apply (Hrel "not" "es.txt").
    + apply (Hstep Patcher.hello Patcher.hello_world);
        [reflexivity|reflexivity|reflexivity| |reflexivity].
      vm_compute. reflexivity.
Defined.


(** *** Copying a tree *)

Lemma retarget_inside src dst r :
  retarget src dst (inside src r) = inside dst r.
Proof.
  unfold retarget, inside. by rewrite py_slice_prefix.
Qed.

Lemma not_within_inside d r : ¬ within (inside d r) d.
Proof.
  intros [Heq|Hu].
  - apply (under_irrefl d). rewrite Heq at 2. apply under_inside.
  - apply (under_irrefl d). eapply under_trans; [apply under_inside|done].
Qed.

(** The directories after a copy of a tree, whatever becomes of the
    files. *)
Lemma copytree_dirs_spec src dst fs fs' :
  copytree src dst fs = inr fs' →
  dirs fs ⊆ dirs fs'
  ∧ (∀ d, d ∈ dirs fs' → d ∈ dirs fs ∨ within d dst ∨ under dst d)
  ∧ (∀ r, inside dst r ∈ dirs fs'
          ↔ inside dst r ∈ dirs fs ∨ inside src r ∈ dirs fs).
Proof.
  unfold copytree. case_bool_decide as Hsrc; simpl; [|by case_bool_decide].
  destruct (makedirs dst true fs) as [e|fs1] eqn:Hmk; simpl; [done|].
  apply makedirs_spec in Hmk as (Hfiles & Hdst & Hkept & Hnew).
  case_bool_decide as Hconflict; [done|].
  intros Heq. injection Heq as <-. simpl. split_and!.
  - set_solver.
  - intros d [Hd|Hd]%elem_of_union.
    + destruct (Hnew d Hd); auto.
    + right. right. apply elem_of_list_to_set in Hd.
      apply list_elem_of_fmap in Hd as (p & -> & Hp).
      apply list_elem_of_filter in Hp as [[r ->]%under_iff _].
      fold (inside src r). rewrite retarget_inside. apply under_inside.
  - intros r. rewrite elem_of_union, elem_of_list_to_set, list_elem_of_fmap.
    split.
    + intros [Hd|(p & Heq & Hp)].
      * destruct (Hnew _ Hd) as [?|Hw]; [by left|].
        by apply not_within_inside in Hw.
      * apply list_elem_of_filter in Hp as [[r' ->]%under_iff Hp].
        fold (inside src r') in *. rewrite retarget_inside in Heq.
        apply inside_inj in Heq as ->. right. by apply elem_of_elements.
    + intros [Hd|Hd]; [left; by apply Hkept|].
      right. exists (inside src r). rewrite retarget_inside. split; [done|].
      apply list_elem_of_filter. split; [apply under_inside|].
      by apply elem_of_elements.
Qed.

(** The files after a copy of a tree in which no file of the source meets
    a directory of the destination: each file is at its own path under
    the destination. *)
Lemma copytree_spec src dst fs fs' :
  (∀ r, is_Some (files fs !! inside src r) → inside dst r ∉ dirs fs) →
  copytree src dst fs = inr fs' →
  (∀ r, files fs' !! inside dst r
        = match files fs !! inside src r with
          | Some c => Some c
          | None => files fs !! inside dst r
          end)
  ∧ (∀ q, ¬ under dst q → files fs' !! q = files fs !! q)
  ∧ dirs fs ⊆ dirs fs'
  ∧ (∀ d, d ∈ dirs fs' → d ∈ dirs fs ∨ within d dst ∨ under dst d).
Proof.
  intros Hfree Hrun.
  destruct (copytree_dirs_spec _ _ _ _ Hrun) as (Hsub & Hdirs & _).
  revert Hrun.
  unfold copytree. case_bool_decide as Hsrc; simpl; [|by case_bool_decide].
  destruct (makedirs dst true fs) as [e|fs1] eqn:Hmk; simpl; [done|].
  apply makedirs_spec in Hmk as (Hfiles & Hdst & Hkept & Hnew).
  case_bool_decide as Hconflict; [done|].
  intros Heq. injection Heq as <-. simpl. rewrite Hfiles.
  set (copied := filter (λ kv : string * string, under src kv.1)
                   (map_to_list (files fs))).
  assert (Hcopied : ∀ p c, (p, c) ∈ copied ↔
                           under src p ∧ files fs !! p = Some c).
  { intros p c. unfold copied.
    by rewrite list_elem_of_filter, elem_of_map_to_list. }
  assert (Hplain : prod_map (copy_target src dst fs1) id <$> copied
                   = prod_map (retarget src dst) id <$> copied).
  { apply list_fmap_ext. intros i [p c] Hi. simpl.
    apply list_elem_of_lookup_2 in Hi. apply Hcopied in Hi as [Hu Hc].
    apply under_iff in Hu as [r ->]. fold (inside src r) in *.
    unfold copy_target. rewrite retarget_inside.
    rewrite bool_decide_false; [done|]. intros Hd.
    destruct (Hnew _ Hd) as [Hd'|Hw].
    - by apply (Hfree r).
    - by apply not_within_inside in Hw. }
  rewrite Hplain.
  assert (Hkeys : ∀ q c,
            (q, c) ∈ prod_map (retarget src dst) id <$> copied
            ↔ ∃ r, q = inside dst r ∧ files fs !! inside src r = Some c).
  { intros q c. rewrite list_elem_of_fmap. split.
    - intros ([p c'] & Heq & [Hu Hc]%Hcopied). simpl in Heq.
      injection Heq as -> ->. apply under_iff in Hu as [r ->].
      fold (inside src r) in *. exists r. by rewrite retarget_inside.
    - intros (r & -> & Hc). exists (inside src r, c). simpl.
      rewrite retarget_inside. split; [done|].
      apply Hcopied. split; [apply under_inside|done]. }
  assert (Hnodup : NoDup (prod_map (retarget src dst) id <$> copied).*1).
  { rewrite <- list_fmap_compose.
    apply NoDup_fmap_2_strong.
    - intros [p c] [p' c'] [Hu Hc]%Hcopied [Hu' Hc']%Hcopied. simpl.
      apply under_iff in Hu as [r ->]. apply under_iff in Hu' as [r' ->].
      fold (inside src r) (inside src r') in *.
      rewrite !retarget_inside. intros ->%inside_inj. congruence.
    - unfold copied. apply NoDup_filter, NoDup_map_to_list. }
  split_and!; [| |done|done].
  - intros r. rewrite lookup_union.
    destruct (files fs !! inside src r) as [c|] eqn:Hc.
    + rewrite (elem_of_list_to_map_1 _ (inside dst r) c); [|done|].
      * by destruct (files fs !! inside dst r).
      * apply Hkeys. eauto.
    + rewrite (not_elem_of_list_to_map_1 _ (inside dst r)).
      * by destruct (files fs !! inside dst r).
      * intros ([q c] & Hq & Hin)%list_elem_of_fmap. simpl in Hq. subst q.
        apply Hkeys in Hin as (r' & ->%inside_inj & Hc'). congruence.
  - intros q Hq. rewrite lookup_union.
    rewrite (not_elem_of_list_to_map_1 _ q).
    + by destruct (files fs !! q).
    + intros ([q' c] & Hq' & Hin)%list_elem_of_fmap. simpl in Hq'. subst q'.
      apply Hkeys in Hin as (r' & -> & _). apply Hq, under_inside.
Qed.


(** *** Rebuilding the working directory *)

Lemma filter_none {A} (P : A → Prop) `{!∀ x, Decision (P x)} (l : list A) :
  (∀ y, y ∈ l → ¬ P y) → filter P l = [].
Proof.
  induction l as [|x l IH]; intros Hall; [done|].
  rewrite filter_cons_False by (apply Hall; set_solver).
  apply IH. intros y Hy. apply Hall. set_solver.
Qed.

Lemma filter_only {A} (P : A → Prop) `{!∀ x, Decision (P x)} (l : list A) p :
  NoDup l → p ∈ l → P p → (∀ y, y ∈ l → P y → y = p) → filter P l = [p].
Proof.
  induction l as [|x l IH]; intros Hnodup Hp HP Honly; [set_solver|].
  apply NoDup_cons in Hnodup as [Hx Hnodup].
  destruct (decide (P x)) as [HPx|HPx].
  - assert (x = p) as -> by (apply Honly; [set_solver|done]).
    rewrite filter_cons_True by done. f_equal. apply filter_none.
    intros y Hy HPy. apply Hx. rewrite <- (Honly y); [done|set_solver|done].
  - rewrite filter_cons_False by done.
    apply IH; [done| |done|].
    + apply elem_of_cons in Hp as [->|Hp]; done.
    + intros y Hy. apply Honly. set_solver.
Qed.

Lemma startswith_take_false x n :
  startswith x sep = false →
  startswith (str (take n (chars x))) sep = false.
Proof.
  rewrite !startswith_sep_false. intros H r' Heq.
  apply (f_equal chars) in Heq. rewrite chars_str, chars_app in Heq.
  destruct n as [|n]; [done|].
  destruct (chars x) as [|c l] eqn:Hx; [done|]. simpl in Heq.
  injection Heq as -> _.
  apply (H (str l)). apply chars_inj. by rewrite chars_app, chars_str.
Qed.

Lemma patch_rel_path_relative patch_dir x :
  under patch_dir x → no_double_slash (chars x) = true →
  startswith (patch_rel_path patch_dir x) sep = false.
Proof.
  intros [r ->]%under_iff Hx. fold (inside patch_dir r) in *.
  apply inside_no_double_slash in Hx.
  rewrite <- (str_chars (patch_rel_path _ _)), patch_rel_path_chars.
  assert (Hdrop : drop (len patch_dir + 1) (chars (inside patch_dir r))
                  = chars r).
  { unfold inside. rewrite !chars_app, app_assoc.
    replace (len patch_dir + 1) with (length (chars patch_dir ++ chars sep))
      by (by rewrite length_app).
    apply drop_app_length. }
  rewrite Hdrop. by apply startswith_take_false.
Qed.


Section setup_spec.

Variable apply_patch : string → string → res string.
Variable scan : list string → list string.
Hypothesis scan_perm : ∀ l, scan l ≡ₚ l.

Context (clean_dir working_dir patch_dir out_dir : string).
Hypothesis Hlayout : layout clean_dir working_dir patch_dir out_dir.

Local Abbreviation patched_in :=
  (patched apply_patch working_dir patch_dir).

Lemma apply_patches_loop fsd fs' :
  (∀ x, x ∈ dom (files fsd) → under patch_dir x →
        no_double_slash (chars x) = true) →
  for_each (apply_patch_file apply_patch working_dir patch_dir)
    (walk scan patch_dir fsd) fsd = inr fs' →
  patched_in fsd (walk scan patch_dir fsd) fs'.
Proof.
  intros Hpaths.
  apply (for_each_inv (patched_in fsd)).
  { split_and!; [done|done|]. intros r. split; [done|].
    intros p Hp. by rewrite filter_nil in Hp. }
  intros done x rest fs1 fs2 Hitems (Hother & Hdirs & Htargets).
  assert (Hx : x ∈ walk scan patch_dir fsd) by (rewrite Hitems; set_solver).
  apply elem_of_walk in Hx as [Hunder Hfile]; [|done].
  assert (Hnw : ¬ under working_dir x).
  { intros Hu. eapply (apart working_dir patch_dir); [apply Hlayout|done..]. }
  unfold apply_patch_file.
  rewrite path_join_inside;
    [|apply Hlayout|by apply patch_rel_path_relative, Hpaths].
  destruct (open_read x fs1) as [e|text] eqn:Hopen; simpl; [done|].
  apply open_read_spec in Hopen. rewrite Hother in Hopen by done.
  destruct (open_read (inside working_dir (patch_rel_path patch_dir x)) fs1)
    as [e|b] eqn:Hwork; simpl; [done|].
  apply open_read_spec in Hwork.
  destruct (decode_text b) as [e|work_text] eqn:Hb; simpl; [done|].
  apply decode_text_spec in Hb as [_ ->].
  destruct (decode_text text) as [e|patch_text] eqn:Ht; simpl; [done|].
  apply decode_text_spec in Ht as [_ ->].
  destruct (apply_patch (read_text b) (read_text text)) as [e|new] eqn:Hnew;
    simpl; [done|].
  destruct (encode_text new) as [e|content] eqn:Hn; simpl; [done|].
  apply encode_text_spec in Hn as [_ ->].
  intros Heq. injection Heq as <-. split_and!; simpl.
  - intros q Hq. rewrite lookup_insert_ne; [by apply Hother|].
    intros <-. apply Hq, under_inside.
  - done.
  - intros r. rewrite filter_app.
    destruct (decide (patch_rel_path patch_dir x = r)) as [<-|Hne].
    + rewrite (filter_cons_True _ x) by done. rewrite filter_nil.
      split.
      * intros Hnil. by apply app_eq_nil in Hnil as [_ ?].
      * intros p Hp. apply app_singleton in Hp as [[Hd Hp]|[_ Hp]]; [|done].
        injection Hp as <-.
        destruct (Htargets (patch_rel_path patch_dir x)) as [Hsame _].
        rewrite Hsame in Hwork by done.
        exists b, text, new. split_and!; try done.
        by rewrite lookup_insert_eq.
    + rewrite (filter_cons_False _ x) by done. rewrite filter_nil, app_nil_r.
      destruct (Htargets r) as [Hsame Hone].
      rewrite lookup_insert_ne by (intros Heq%inside_inj; done).
      done.
Qed.

(** A directory apart from the working directory is a directory after a
    phase of [setup_working] iff it was one before. *)
Lemma makedirs_dirs_apart d name exist_ok fs fs' :
  separate name d → makedirs name exist_ok fs = inr fs' →
  d ∈ dirs fs' ↔ d ∈ dirs fs.
Proof.
  intros [_ Hnot] (_ & _ & Hkept & Hnew)%makedirs_spec. split; [|by apply Hkept].
  intros Hd. by destruct (Hnew d Hd).
Qed.

Lemma copytree_dirs_apart d src dst fs fs' :
  separate dst d → copytree src dst fs = inr fs' →
  d ∈ dirs fs' ↔ d ∈ dirs fs.
Proof.
  intros [Hnot Hnot'] (Hkept & Hnew & _)%copytree_dirs_spec.
  split; [|by apply Hkept].
  intros Hd. destruct (Hnew d Hd) as [?|[?|?]]; [done|done|].
  exfalso. apply Hnot. by right.
Qed.

Lemma isdir_exists fs d :
  path_exists fs d && isdir fs d = bool_decide (d ∈ dirs fs).
Proof.
  unfold isdir. case_bool_decide as Hd; [|apply andb_false_r].
  rewrite andb_true_r. apply path_exists_true. by right.
Qed.

(** The working directory after the copies and before the patches. *)
Lemma setup_working_copies fs fs' :
  wf fs →
  (∀ r, is_Some (files fs !! inside out_dir r) →
        inside clean_dir r ∉ dirs fs) →
  setup_working apply_patch scan clean_dir working_dir patch_dir out_dir fs
  = inr fs' →
  ∃ fsd,
    (if bool_decide (patch_dir ∈ dirs fs)
     then apply_patches apply_patch scan working_dir patch_dir fsd
     else inr fsd) = inr fs'
    ∧ (∀ q, ¬ within working_dir q → files fsd !! q = files fs !! q)
    ∧ (∀ r, files fsd !! inside working_dir r
            = base_content clean_dir out_dir fs r).
Proof.
  intros Hwf Hmeet. unfold setup_working.
  destruct (remove_dir_spec working_dir fs Hwf)
    as (fsa & -> & Hwfa & Hhollow & Hno & Hfiles_a & Hdirs_a & _).
  { apply tidy_nonempty, Hlayout. }
  simpl.
  destruct (makedirs working_dir false fsa) as [e|fsb] eqn:Hmk;
    simpl; [done|].
  pose proof (makedirs_spec _ _ _ _ Hmk) as (Hfiles_b & _ & _ & Hnew_b).
  assert (Hbare : ∀ r, inside working_dir r ∉ dirs fsb).
  { intros r Hd. destruct (Hnew_b _ Hd) as [Hd'|Hw].
    - apply (Hhollow (inside working_dir r)); [apply under_inside|by right].
    - by apply not_within_inside in Hw. }
  destruct (copytree clean_dir working_dir fsb) as [e|fsc] eqn:Hcp;
    simpl; [done|].
  pose proof (copytree_spec _ _ _ _ (λ r _, Hbare r) Hcp)
    as (Hin_c & Hout_c & _).
  assert (Hapart : ∀ d, separate working_dir d →
            d ∈ dirs fsc ↔ d ∈ dirs fs).
  { intros d Hd.
    rewrite (copytree_dirs_apart d _ _ _ _ Hd Hcp).
    rewrite (makedirs_dirs_apart d _ _ _ _ Hd Hmk).
    apply Hdirs_a, Hd. }
  assert (Hsrc : ∀ q, ¬ within working_dir q →
            files fsc !! q = files fs !! q).
  { intros q Hq. rewrite Hout_c by (intros ?; apply Hq; by right).
    rewrite Hfiles_b. by apply Hfiles_a. }
  assert (Hwork_c : ∀ r, files fsc !! inside working_dir r
                         = files fs !! inside clean_dir r).
  { intros r. rewrite Hin_c, Hfiles_b.
    assert (files fsa !! inside working_dir r = None) as ->.
    { apply not_elem_of_dom. intros Hin.
      apply (Hhollow (inside working_dir r)); [apply under_inside|by left]. }
    rewrite Hfiles_a.
    - by destruct (files fs !! inside clean_dir r).
    - intros Hw. eapply (apart_within clean_dir working_dir);
        [apply Hlayout|apply under_inside|done]. }
  rewrite isdir_exists.
  assert (Hwo : separate working_dir out_dir) by apply Hlayout.
  assert (Hwp : separate working_dir patch_dir) by apply Hlayout.
  unfold base_content.
  case_bool_decide as Hout; simpl.
  - destruct (copytree out_dir working_dir fsc) as [e|fsd] eqn:Hco;
      simpl; [done|].
    assert (Hfree : ∀ r, is_Some (files fsc !! inside out_dir r) →
              inside working_dir r ∉ dirs fsc).
    { intros r Hsome Hd.
      rewrite Hsrc in Hsome.
      2:{ intros Hw. eapply (apart_within out_dir working_dir);
            [apply separate_sym, Hlayout|apply under_inside|done]. }
      destruct (copytree_dirs_spec _ _ _ _ Hcp) as (_ & _ & Hins).
      apply Hins in Hd as [Hd|Hd]; [by apply (Hbare r)|].
      destruct (Hnew_b _ Hd) as [Hd'|Hw].
      - apply (Hmeet r Hsome). apply Hdirs_a; [|done].
        intros Hw. eapply (apart_within clean_dir working_dir);
          [apply Hlayout|apply under_inside|done].
      - eapply (apart_within clean_dir working_dir working_dir);
          [apply Hlayout| |by left].
        destruct Hw as [->|Hu]; [apply under_inside|].
        eapply under_trans; [apply under_inside|done]. }
    pose proof (copytree_spec _ _ _ _ Hfree Hco) as (Hin_d & Hout_d & _).
    rewrite isdir_exists.
    intros Hrun. exists fsd. split_and!.
    + rewrite (bool_decide_ext _ (patch_dir ∈ dirs fsd)); [exact Hrun|].
      rewrite (copytree_dirs_apart _ _ _ _ _ Hwp Hco). symmetry. by apply Hapart.
    + intros q Hq. rewrite Hout_d by (intros ?; apply Hq; by right).
      by apply Hsrc.
    + intros r. rewrite decide_True by (by apply Hapart).
      rewrite Hin_d, Hwork_c, Hsrc; [done|].
      intros Hw. eapply (apart_within out_dir working_dir);
        [apply separate_sym, Hlayout|apply under_inside|done].
  - rewrite isdir_exists.
    intros Hrun. exists fsc. split_and!.
    + rewrite (bool_decide_ext _ (patch_dir ∈ dirs fsc)); [exact Hrun|].
      symmetry. by apply Hapart.
    + done.
    + intros r. rewrite decide_False by (by rewrite <- Hapart).
      apply Hwork_c.
Qed.

(** X16, on the code of C3: [setup_working] removes the working
    directory if there is one, makes it anew, copies the clean directory
    into it, then the output directory if there is one, whose files
    replace the clean files of the same path, and then, if there is a
    patch directory, applies the patch files found in it. Where no output
    file has the path of a directory of the clean tree, after a call
    that returned: nothing outside the working directory changed; a
    working file that no patch file aims at holds the output file of its
    path, or else the clean file, and is absent when there is neither; a
    working file that one patch file aims at holds the result of applying
    that patch to this content. *)
Theorem setup_working_layers fs fs' r :
  wf fs →
  (∀ r, is_Some (files fs !! inside out_dir r) →
        inside clean_dir r ∉ dirs fs) →
  setup_working apply_patch scan clean_dir working_dir patch_dir out_dir fs
  = inr fs' →
  (∀ q, ¬ within working_dir q → files fs' !! q = files fs !! q)
  ∧ ((patch_dir ∉ dirs fs
      ∨ ∀ p, p ∈ dom (files fs) → under patch_dir p →
             patch_rel_path patch_dir p ≠ r) →
     files fs' !! inside working_dir r = base_content clean_dir out_dir fs r)
  ∧ (∀ o, out_dir ∈ dirs fs → files fs !! inside out_dir r = Some o →
          base_content clean_dir out_dir fs r = Some o)
  ∧ (∀ p text,
       patch_dir ∈ dirs fs → files fs !! p = Some text →
       under patch_dir p → patch_rel_path patch_dir p = r →
       (∀ p', p' ∈ dom (files fs) → under patch_dir p' →
              patch_rel_path patch_dir p' = r → p' = p) →
       ∃ b new,
         base_content clean_dir out_dir fs r = Some b
         ∧ apply_patch (read_text b) (read_text text) = inr new
         ∧ files fs' !! inside working_dir r = Some new).
Proof.
  intros Hwf Hmeet Hrun.
  destruct (setup_working_copies fs fs' Hwf Hmeet Hrun)
    as (fsd & Hlast & Hsrc & Hbase).
  assert (Hpatch_files : ∀ p, under patch_dir p →
            files fsd !! p = files fs !! p).
  { intros p Hp. apply Hsrc.
    eapply separate_under; [apply separate_sym, Hlayout|done]. }
  assert (Hout : ∀ o, out_dir ∈ dirs fs →
            files fs !! inside out_dir r = Some o →
            base_content clean_dir out_dir fs r = Some o).
  { intros o Hd Ho. unfold base_content. by rewrite decide_True, Ho. }
  case_bool_decide as Hpatch.
  - unfold apply_patches in Hlast.
    apply apply_patches_loop in Hlast as (Hother & _ & Htargets).
    2:{ intros x Hx Hu. apply (wf_paths _ Hwf). left.
        apply elem_of_dom. rewrite <- Hpatch_files by done.
        by apply elem_of_dom. }
    destruct (Htargets r) as [Hnone Hone].
    split_and!; [|intros [?|Hno]; [done|]|done|].
    + intros q Hq. rewrite Hother by (intros ?; apply Hq; by right).
      by apply Hsrc.
    + rewrite Hnone, Hbase; [done|]. apply filter_none.
      intros y [Hu Hy]%elem_of_walk; [|done]. apply Hno; [|done].
      apply elem_of_dom. rewrite <- Hpatch_files by done.
      by apply elem_of_dom.
    + intros p text _ Hp Hu Hr Honly.
      destruct (Hone p) as (b & text' & new & Hb & Htext & Hnew & Hres).
      { apply filter_only; [apply NoDup_walk; done| |done|].
        - apply elem_of_walk; [done|]. split; [done|].
          apply elem_of_dom. rewrite Hpatch_files by done. eauto.
        - intros y [Hu' Hy]%elem_of_walk; [|done]. apply Honly; [|done].
          apply elem_of_dom. rewrite <- Hpatch_files by done.
          by apply elem_of_dom. }
      rewrite Hpatch_files, Hp in Htext by done. injection Htext as <-.
      exists b, new. by rewrite <- Hbase.
  - injection Hlast as <-. split_and!; [done| |done|].
    + intros _. apply Hbase.
    + intros p text Hd. done.
Qed.

End setup_spec.


Lemma captured_fs_wf : wf captured_fs.
Proof. apply wf_check_sound. vm_compute. reflexivity. Qed.

(** The files of a file system given by a list, one by one. *)
Ltac each_file H :=
  let c := fresh "c" in
  apply elem_of_dom in H as [c H];
  apply elem_of_map_to_list in H;
  vm_compute in H;
  repeat (apply elem_of_cons in H as [H|H]; [injection H as -> -> | ]);
  try (exfalso; apply elem_of_nil in H; exact H).

Ltac not_under H :=
  exfalso;
  match type of H with
  | ?P =>
      let Hn := fresh in
      assert (¬ P) as Hn
        by (apply (bool_decide_unpack (¬ P)); vm_compute; exact I);
      exact (Hn H)
  end.

Lemma captured_fs_meet r :
  is_Some (files captured_fs !! inside "_out" r) →
  inside "_clean" r ∉ dirs captured_fs.
Proof.
  intros [c Hc] Hd. apply elem_of_map_to_list in Hc. vm_compute in Hc.
  repeat (apply elem_of_cons in Hc as [Hc|Hc];
          [simplify_eq; not_under Hd|]).
  by apply elem_of_nil in Hc.
Qed.

(** An output file at the path of a directory of the clean tree goes into
    the directory: [copytree] has [copy2] copy it there. *)
Lemma setup_working_meeting :
  ∃ fs',
    setup_working Patcher.apply_patch scan_sorted
      "_clean" "_src" "_patches" "_out" meeting_fs = inr fs'
    ∧ files fs' !! "_src/lib/lib" = Some "a file"
    ∧ files fs' !! "_src/lib" = None
    ∧ files fs' !! "_src/lib/b.txt" = Some "b".
Proof. eexists. split; [vm_compute; reflexivity|]. by vm_compute. Qed.

Lemma setup_working_layers_witness :
  ∃ fs',
    setup_working Patcher.apply_patch scan_sorted
      "_clean" "_src" "_patches" "_out" captured_fs = inr fs'
    ∧ files fs' !! "_src/a.txt" = Some Patcher.hello_world
    ∧ files fs' !! "_src/c.txt" = Some "out c"
    ∧ files fs' !! "_src/stale.txt" = None.
Proof.
  destruct (setup_working Patcher.apply_patch scan_sorted
              "_clean" "_src" "_patches" "_out" captured_fs)
    as [e|fs'] eqn:Hrun; [vm_compute in Hrun; discriminate|].
  exists fs'. split; [done|].
  pose proof (λ r, setup_working_layers Patcher.apply_patch scan_sorted
                scan_sorted_perm "_clean" "_src" "_patches" "_out"
                default_layout captured_fs fs' r captured_fs_wf
                captured_fs_meet Hrun)
    as Hspec.
  split_and!.
  - destruct (Hspec "a.txt") as (_ & _ & _ & Hone).
    destruct (Hone "_patches/a.txt.patch"
                (Patcher.create_patch Patcher.hello Patcher.hello_world
                   "a.txt" Patcher.stamp))
      as (b & new & Hb & Hnew & Hres).
    + eapply bool_decide_unpack. vm_compute. exact I.
    + reflexivity.
    + eapply bool_decide_unpack. vm_compute. exact I.
    + vm_compute. reflexivity.
    + intros p' Hp' Hu Hr. each_file Hp'; first [reflexivity|not_under Hu].
    + vm_compute in Hb. injection Hb as <-.
      vm_compute in Hnew. injection Hnew as <-. exact Hres.
  - destruct (Hspec "c.txt") as (_ & Hnone & _).
    etrans; [apply Hnone|vm_compute; reflexivity]. right.
    intros p Hp Hu. each_file Hp;
      first [not_under Hu | vm_compute; discriminate].
  - destruct (Hspec "stale.txt") as (_ & Hnone & _).
    etrans; [apply Hnone|vm_compute; reflexivity]. right.
    intros p Hp Hu. each_file Hp;
      first [not_under Hu | vm_compute; discriminate].
Defined.

End ProjectSpec.

(** ** The workspace, further *)
Module WorkspaceSpec.
Import Project ProjectSpec.

Lemma separate_within_both a b d :
  separate a b → within a d → within b d → False.
Proof.
  intros [Hab Hba] [->|Ha] [Hb|Hb].
  - subst. apply Hab. by left.
  - apply Hba. by right.
  - subst. apply Hab. by right.
  - destruct (under_both a b d Ha Hb); tauto.
Qed.

(** *** The directories above a path *)

Lemma no_double_slash_prefix l k :
  no_double_slash (l ++ k) = true → no_double_slash l = true.
Proof.
  induction l as [|c l IH]; [done|].
  destruct l as [|c' l]; [done|].
  simpl in *. intros [H1 H2]%andb_true_iff. rewrite H1. simpl. by apply IH.
Qed.

Lemma under_no_double_slash d q :
  under d q → no_double_slash (chars q) = true →
  no_double_slash (chars d) = true.
Proof.
  intros [r ->]%under_iff. rewrite !chars_app.
  apply no_double_slash_prefix.
Qed.

Lemma before_slash_no_slash l : slash ∉ before_slash l.
Proof.
  induction l as [|c l IH]; simpl; [set_solver|].
  case_decide; [set_solver|]. set_solver.
Qed.

(** A directory name is followed in the path by slashes and a last
    component. *)
Lemma dirname_split q :
  all_slashes (chars (dirname q)) = false →
  ∃ k b, (slash ∉ b)
         ∧ chars q = chars (dirname q) ++ slash :: replicate k slash ++ b.
Proof.
  unfold dirname.
  pose proof (before_from_slash (reverse (chars q))) as Hsplit.
  destruct (from_slash (reverse (chars q))) as [|c t] eqn:Hhead.
  { by vm_compute. }
  destruct (from_slash_head (reverse (chars q))) as [H|[t' H]];
    rewrite Hhead in H; [done|]. simplify_eq.
  destruct (all_slashes (slash :: t')) eqn:Hall.
  - rewrite chars_str, all_slashes_reverse. congruence.
  - intros _. destruct (lstrip_slash_split t') as [k Hk].
    exists k, (reverse (before_slash (reverse (chars q)))). split.
    + rewrite elem_of_reverse. apply before_slash_no_slash.
    + rewrite chars_str. apply (inj reverse). rewrite Hsplit at 1.
      rewrite !reverse_app, reverse_involutive. simpl.
      rewrite reverse_cons, !reverse_app, reverse_replicate,
        !reverse_involutive.
      rewrite <- !app_assoc. f_equal. simpl. rewrite Hk at 1.
      generalize (lstrip_slash t'). clear. intros rest.
      induction k as [|k IH]; simpl; [done|]. f_equal. exact IH.
Qed.

(** In a path without empty components the directory name ends at the
    last slash. *)
Lemma dirname_last_slash q :
  no_double_slash (chars q) = true →
  all_slashes (chars (dirname q)) = false →
  ∃ b, (slash ∉ b) ∧ chars q = chars (dirname q) ++ slash :: b.
Proof.
  intros Hq Hall. destruct (dirname_split q Hall) as (k & b & Hb & Heq).
  destruct k as [|k]; [by exists b|].
  rewrite Heq in Hq. apply no_double_slash_app in Hq. simpl in Hq.
  discriminate Hq.
Qed.

Lemma dirname_of_inside d r :
  all_slashes (chars d) = false →
  all_slashes (chars (dirname (inside d r))) = false.
Proof.
  intros Hns.
  unfold dirname, inside. rewrite !chars_app, !reverse_app.
  change (reverse (chars sep)) with [slash]. rewrite <- app_assoc. simpl.
  destruct (from_slash_suffix (reverse (chars r)) (reverse (chars d)))
    as [k Hk].
  rewrite Hk.
  assert (Hhead : all_slashes (k ++ slash :: reverse (chars d)) = false).
  { rewrite all_slashes_app. apply andb_false_iff. right. simpl.
    by rewrite all_slashes_reverse. }
  rewrite Hhead. rewrite chars_str, all_slashes_reverse.
  destruct (lstrip_slash_split (k ++ slash :: reverse (chars d))) as [n Hn].
  rewrite Hn in Hhead. rewrite all_slashes_app in Hhead.
  apply andb_false_iff in Hhead as [Hhead|Hhead]; [|done].
  exfalso. clear -Hhead. induction n; simpl in *; [done|]. auto.
Qed.

(** A directory that a path lies in, in a path without empty components,
    is not made of slashes. *)
Lemma under_not_all_slashes d q :
  no_double_slash (chars q) = true → under d q → d ≠ "" →
  all_slashes (chars d) = false.
Proof.
  intros Hq [r ->]%under_iff Hne. rewrite !chars_app in Hq.
  apply not_true_is_false. intros Hall.
  destruct (chars d) as [|c l _] eqn:E using rev_ind.
  { by apply chars_nil in E. }
  rewrite all_slashes_app in Hall. apply andb_true_iff in Hall as [_ Hc].
  simpl in Hc. rewrite andb_true_r in Hc. apply bool_decide_eq_true in Hc.
  subst c. rewrite <- !app_assoc in Hq.
  apply no_double_slash_app in Hq. simpl in Hq.
  discriminate Hq.
Qed.

(** A directory that a path lies in is the directory name of the path or
    lies above it. *)
Lemma under_dirname d q :
  no_double_slash (chars q) = true → under d q → d ≠ "" →
  all_slashes (chars (dirname q)) = false
  ∧ (d = dirname q ∨ under d (dirname q)).
Proof.
  intros Hq Hu Hne.
  pose proof (under_not_all_slashes d q Hq Hu Hne) as Hd.
  pose proof Hu as [r ->]%under_iff.
  pose proof (dirname_of_inside d r Hd) as Hall. unfold inside in Hall.
  split; [done|].
  destruct (dirname_last_slash _ Hq Hall) as (b & Hb & Heq).
  rewrite !chars_app in Heq at 1. simpl in Heq.
  apply app_eq_inv in Heq as [(k & Hk1 & Hk2)|(k & Hk1 & Hk2)].
  - destruct k as [|c k].
    + left. apply chars_inj. by rewrite Hk1, app_nil_r.
    + simpl in Hk2. injection Hk2 as <- Hb'.
      exfalso. apply Hb. rewrite Hb'. set_solver.
  - destruct k as [|c k].
    + left. apply chars_inj. by rewrite Hk1, app_nil_r.
    + simpl in Hk2. injection Hk2 as <- Hr.
      right. apply under_iff. exists (str k). apply chars_inj.
      rewrite !chars_app, chars_str. by rewrite Hk1.
Qed.

(** [makedirs] makes every directory above the one it is asked for. *)
Lemma under_parents_upto n q d :
  len q ≤ n → no_double_slash (chars q) = true → under d q → d ≠ "" →
  d ∈ parents_upto n q.
Proof.
  revert q. induction n as [|n IH]; intros q Hn Hq Hu Hne.
  - apply under_iff in Hu as [r ->]. unfold len in Hn.
    rewrite !chars_app, !length_app in Hn. simpl in Hn. lia.
  - destruct (under_dirname d q Hq Hu Hne) as [Hall Hd]. simpl.
    rewrite Hall. destruct Hd as [->|Hd]; [set_solver|].
    apply elem_of_cons. right. apply IH; [|by eapply under_no_double_slash;
      [apply dirname_under|]|done|done].
    pose proof (dirname_under q Hall) as [r Hr]%under_iff.
    unfold len in *. rewrite Hr in Hn at 1.
    rewrite !chars_app, !length_app in Hn. simpl in Hn. lia.
Qed.

Lemma under_parents q d :
  no_double_slash (chars q) = true → under d q → d ≠ "" → d ∈ parents q.
Proof. by apply under_parents_upto. Qed.

(** *** Paths without empty components *)

Lemma no_double_slash_join a b :
  no_double_slash a = true → no_double_slash b = true →
  last a ≠ Some slash ∨ head b ≠ Some slash →
  no_double_slash (a ++ b) = true.
Proof.
  intros Ha Hb Hjoin. induction a as [|c a IH]; [done|].
  destruct a as [|c' a].
  - destruct b as [|c' b]; [done|]. simpl in *. rewrite Hb, andb_true_r.
    apply negb_true_iff, andb_false_iff.
    destruct Hjoin as [Hc|Hc]; [left|right]; apply bool_decide_eq_false_2;
      congruence.
  - simpl in Ha. apply andb_true_iff in Ha as [Ha1 Ha2].
    change ((c :: c' :: a) ++ b) with (c :: c' :: (a ++ b)).
    change (no_double_slash (c :: c' :: (a ++ b)))
      with (negb (bool_decide (c = slash) && bool_decide (c' = slash))
            && no_double_slash ((c' :: a) ++ b)).
    rewrite Ha1. simpl. apply IH; [done|]. by rewrite last_cons_cons in Hjoin.
Qed.

Lemma startswith_head r :
  startswith r sep = false → head (chars r) ≠ Some slash.
Proof.
  intros Hr Hh. unfold startswith in Hr.
  apply bool_decide_eq_false_1 in Hr. apply Hr.
  destruct (chars r) as [|c l]; [done|]. injection Hh as ->. by exists l.
Qed.

Lemma tidy_last d : tidy d → last (chars d) ≠ Some slash.
Proof.
  intros [_ Hend] Hl. unfold endswith in Hend.
  apply bool_decide_eq_false_1 in Hend. apply Hend.
  apply last_Some in Hl as [l Hl]. exists l. by rewrite Hl.
Qed.

Lemma no_double_slash_inside d r :
  tidy d → no_double_slash (chars d) = true →
  no_double_slash (chars r) = true → startswith r sep = false →
  no_double_slash (chars (inside d r)) = true.
Proof.
  intros Hd Hnd Hnr Hr. unfold inside. rewrite !chars_app.
  apply no_double_slash_join; [done| |left; by apply tidy_last].
  apply (no_double_slash_join [slash]); [done|done|].
  right. by apply startswith_head.
Qed.

Lemma no_double_slash_patch_name r :
  no_double_slash (chars r) = true →
  no_double_slash (chars (r +:+ extsep +:+ "patch")) = true.
Proof.
  intros Hr. rewrite chars_app.
  apply no_double_slash_join; [done|done|]. right. done.
Qed.

Lemma inside_rel_no_double_slash d r :
  no_double_slash (chars (inside d r)) = true →
  no_double_slash (chars r) = true.
Proof.
  unfold inside. rewrite !chars_app.
  intros H%no_double_slash_app. by apply no_double_slash_app in H.
Qed.

(** *** Operations that keep the file system well formed *)

Lemma makedirs_wf name exist_ok fs fs' :
  wf fs → no_double_slash (chars name) = true →
  makedirs name exist_ok fs = inr fs' → wf fs'.
Proof.
  intros Hwf Hname. unfold makedirs.
  case_bool_decide as Hd.
  { destruct exist_ok; [|done]. intros Heq. by injection Heq as <-. }
  case_bool_decide as Hf; [done|]. case_bool_decide as He; [done|].
  case_bool_decide as Hp; [done|]. intros Heq. injection Heq as <-.
  assert (Hcases : ∀ q,
            q ∈ dirs fs ∪ {[name]} ∪ list_to_set (parents name) →
            q ∈ dirs fs ∨ within q name).
  { intros q [[Hq| ->%elem_of_singleton]%elem_of_union
               |Hq%elem_of_list_to_set]%elem_of_union.
    - by left.
    - right. by left.
    - right. right. by apply parents_under. }
  assert (Habove : ∀ q d, within q name → under d q → d ≠ "" →
            d ∈ dirs fs ∪ {[name]} ∪ list_to_set (parents name)).
  { intros q d Hq Hu Hne. apply elem_of_union_r, elem_of_list_to_set.
    apply under_parents; [done| |done].
    destruct Hq as [->|Hq]; [done|]. by eapply under_trans. }
  split; simpl.
  - intros q d [Hq|Hq] Hu Hne.
    + do 2 apply elem_of_union_l. apply (wf_dirs _ Hwf q); [by left|done..].
    + destruct (Hcases q Hq) as [Hold|Hnew].
      * do 2 apply elem_of_union_l.
        apply (wf_dirs _ Hwf q); [by right|done..].
      * by eapply Habove.
  - intros p Hfile Hdir. destruct (Hcases p Hdir) as [Hold|[->|Hnew]].
    + by apply (wf_files _ Hwf p).
    + done.
    + apply Hp. apply Exists_exists. exists p. split; [|done].
      assert (p ∈ dirs fs ∪ {[name]} ∪ list_to_set (parents name))
        as [[H| ->%elem_of_singleton]%elem_of_union
           |H%elem_of_list_to_set]%elem_of_union by done.
      * by destruct (wf_files _ Hwf p).
      * by destruct (under_irrefl name).
      * done.
  - intros q [Hq|Hq].
    + apply (wf_paths _ Hwf). by left.
    + destruct (Hcases q Hq) as [Hold|[->|Hnew]].
      * apply (wf_paths _ Hwf). by right.
      * done.
      * by eapply under_no_double_slash.
Qed.

Lemma write_file_wf p content fs fs' :
  wf fs → no_double_slash (chars p) = true →
  write_file p content fs = inr fs' → wf fs'.
Proof.
  intros Hwf Hp (-> & Hd & _ & Hpar)%write_file_inv.
  unfold parent_exists in Hpar.
  destruct (all_slashes (chars (dirname p))) eqn:Hall; simpl in Hpar.
  - assert (Hold : ∀ q, entry (with_file p content fs) q →
              q = p ∨ entry fs q).
    { intros q [Hq|Hq]; simpl in *.
      - rewrite dom_insert_L in Hq.
        apply elem_of_union in Hq as [->%elem_of_singleton|Hq];
          [by left|right; by left].
      - right. by right. }
    split; simpl.
    + intros q d Hq Hu Hne. destruct (Hold q Hq) as [->|Hq'].
      * destruct (under_dirname d p Hp Hu Hne) as [Hns _]. congruence.
      * by apply (wf_dirs _ Hwf q).
    + intros q Hq. rewrite dom_insert_L in Hq.
      apply elem_of_union in Hq as [->%elem_of_singleton|Hq]; [done|].
      by apply (wf_files _ Hwf).
    + intros q Hq. destruct (Hold q Hq) as [->|Hq']; [done|].
      by apply (wf_paths _ Hwf).
  - apply bool_decide_eq_true in Hpar.
    assert (Hold : ∀ q, entry (with_file p content fs) q →
              q = p ∨ entry fs q).
    { intros q [Hq|Hq]; simpl in *.
      - rewrite dom_insert_L in Hq.
        apply elem_of_union in Hq as [->%elem_of_singleton|Hq];
          [by left|right; by left].
      - right. by right. }
    split; simpl.
    + intros q d Hq Hu Hne. destruct (Hold q Hq) as [->|Hq'].
      * destruct (under_dirname d p Hp Hu Hne) as [_ [->|Hup]]; [done|].
        apply (wf_dirs _ Hwf (dirname p)); [by right|done..].
      * by apply (wf_dirs _ Hwf q).
    + intros q Hq. rewrite dom_insert_L in Hq.
      apply elem_of_union in Hq as [->%elem_of_singleton|Hq]; [done|].
      by apply (wf_files _ Hwf).
    + intros q Hq. destruct (Hold q Hq) as [->|Hq']; [done|].
      by apply (wf_paths _ Hwf).
Qed.

Lemma write_text_wf p text fs fs' :
  wf fs → no_double_slash (chars p) = true →
  write_text p text fs = inr fs' → wf fs'.
Proof.
  intros Hwf Hp. unfold write_text.
  destruct (write_file p "" fs) as [e|fs1] eqn:H1; simpl; [done|].
  destruct (encode_text text) as [e|content]; simpl; [done|].
  intros H2. eapply write_file_wf; [|exact Hp|exact H2].
  by eapply write_file_wf.
Qed.

Section capture_more.

Variable create_patch : string → string → string → string → string.
Variable as_posix : string → string.
Variable scan : list string → list string.
Hypothesis scan_perm : ∀ l, scan l ≡ₚ l.

Context (clean_dir working_dir patch_dir out_dir : string).
Hypothesis Hlayout : layout clean_dir working_dir patch_dir out_dir.

Local Abbreviation capture :=
  (output_working create_patch as_posix scan clean_dir working_dir patch_dir
     out_dir).


(** After a capture that returned, no working file has a directory of the
    clean tree for its counterpart. *)
Lemma captured_clean_not_directory time fs fs' r w :
  wf fs →
  capture time fs = inr fs' →
  files fs !! inside working_dir r = Some w →
  inside clean_dir r ∉ dirs fs.
Proof.
  intros Hwf Hrun Hw Hd.
  destruct (output_working_captured create_patch as_posix scan scan_perm
              clean_dir working_dir patch_dir out_dir Hlayout time fs fs'
              Hwf Hrun) as (fs1 & Hcap & Hsame).
  destruct (sources_apart clean_dir working_dir patch_dir out_dir Hlayout
              (inside working_dir r)) as [Hwp Hwo];
    [right; apply under_inside|].
  destruct (sources_apart clean_dir working_dir patch_dir out_dir Hlayout
              (inside clean_dir r)) as [Hcp Hco];
    [left; apply under_inside|].
  destruct (Hsame _ Hwp Hwo) as [Hw1 _].
  destruct (Hsame _ Hcp Hco) as [Hc1 Hd1].
  destruct (captured_clean_file _ _ _ _ _ _ _ _ _ _ Hcap r) as [c Hc].
  - apply elem_of_walk; [done|]. split; [apply under_inside|].
    apply elem_of_dom. rewrite Hw1, Hw. by eexists.
  - right. by apply Hd1.
  - rewrite Hc1 in Hc. apply (wf_files _ Hwf (inside clean_dir r)); [|done].
    apply elem_of_dom. by eexists.
Qed.


End capture_more.

(** X10: [apply_patches] changes the content of working files and
    nothing else, and needs a working file for every file of the patch
    directory. After a call that returned, the file system has the files
    and the directories it had, and every file found in the patch
    directory, whatever its name, aims at a working file that was there:
    a file that aims at none makes the call raise. *)
Theorem apply_patches_needs_targets apply_patch scan working_dir patch_dir
    fs fs' :
  (∀ l, scan l ≡ₚ l) →
  apply_patches apply_patch scan working_dir patch_dir fs = inr fs' →
  dom (files fs') = dom (files fs)
  ∧ dirs fs' = dirs fs
  ∧ ∀ p, p ∈ dom (files fs) → under patch_dir p →
         path_join working_dir (patch_rel_path patch_dir p)
           ∈ dom (files fs).
Proof.
  intros scan_perm Hrun. unfold apply_patches in Hrun.
  apply (for_each_inv
           (λ done cur,
              dom (files cur) = dom (files fs) ∧ dirs cur = dirs fs
              ∧ ∀ x, x ∈ done →
                  path_join working_dir (patch_rel_path patch_dir x)
                    ∈ dom (files fs))) in Hrun.
  - destruct Hrun as (Hdom & Hdirs & Hall). split_and!; [done|done|].
    intros p Hp Hu. apply Hall. by apply elem_of_walk.
  - split_and!; [done|done|]. intros x Hx. by apply elem_of_nil in Hx.
  - intros done x rest cur nxt _ (Hdom & Hdirs & Hall) Hstep.
    unfold apply_patch_file in Hstep.
    destruct (open_read x cur) as [e|text]; [discriminate|].
    simpl in Hstep.
    destruct (open_read _ cur) as [e|work] eqn:Hwork; [discriminate|].
    apply open_read_spec in Hwork.
    simpl in Hstep.
    destruct (decode_text work) as [e|work_text]; [discriminate|].
    simpl in Hstep.
    destruct (decode_text text) as [e|patch_text]; [discriminate|].
    simpl in Hstep.
    destruct (apply_patch _ _) as [e|new]; [discriminate|].
    simpl in Hstep.
    destruct (encode_text new) as [e|content]; [discriminate|].
    simpl in Hstep. injection Hstep as <-.
    assert (Hin : path_join working_dir (patch_rel_path patch_dir x)
                    ∈ dom (files fs)).
    { rewrite <- Hdom. apply elem_of_dom. by eexists. }
    split_and!.
    + simpl. rewrite dom_insert_L, Hdom. set_solver.
    + done.
    + intros y [Hy|Hy]%elem_of_app; [by apply Hall|].
      apply list_elem_of_singleton in Hy as ->. done.
Qed.

(** *** The metadata and the clean tree *)

(** The directory of a file that is directly inside a tidy directory. *)
Lemma dirname_metadata_path d : tidy d → dirname (metadata_path d) = d.
Proof.
  intros [Hne Hend]. unfold dirname, metadata_path, sep.
  rewrite !chars_app, !reverse_app.
  change (reverse (chars _PROJECT_METADATA_NAME))
    with (chars "nosj.atadatem_tcejorp").
  change (reverse (chars "/")) with [slash].
  destruct (reverse (chars d)) as [|c l] eqn:Hrev.
  { exfalso. apply Hne. apply chars_inj.
    rewrite <- (reverse_involutive (chars d)), Hrev. done. }
  assert (Hc : c ≠ slash).
  { intros ->. unfold endswith in Hend.
    apply bool_decide_eq_false_1 in Hend. apply Hend.
    exists (reverse l). rewrite <- (reverse_involutive (chars d)), Hrev.
    by rewrite reverse_cons. }
  assert (from_slash ((chars "nosj.atadatem_tcejorp" ++ [slash]) ++ c :: l)
          = slash :: c :: l) as -> by reflexivity.
  assert (all_slashes (slash :: c :: l) = false) as ->.
  { simpl. by rewrite (bool_decide_false (c = slash)). }
  change (lstrip_slash (slash :: c :: l))
    with (if decide (c = slash) then lstrip_slash l else c :: l).
  rewrite decide_False by done.
  rewrite <- Hrev, reverse_involutive. apply str_chars.
Qed.

Lemma metadata_path_no_sep d : endswith (metadata_path d) sep = false.
Proof.
  apply bool_decide_eq_false. intros [k Hk].
  unfold metadata_path in Hk. rewrite !chars_app in Hk.
  apply (f_equal last) in Hk. rewrite !app_assoc, !last_app in Hk.
  simpl in Hk. discriminate Hk.
Qed.

(** A directory above a file that lies directly in [q] is [q] or above
    it. *)
Lemma under_inside_leaf d q r :
  slash ∉ chars r → under d (inside q r) → within d q.
Proof.
  intros Hr Hu.
  destruct (under_both d q (inside q r) Hu (under_inside q r))
    as [Hw|[->|Hq]]; [done|by left|].
  exfalso. apply under_iff in Hq as [r' ->]. fold (inside q r') in Hu.
  apply under_inside_inside, under_iff in Hu as [x ->].
  apply Hr. rewrite !chars_app. set_solver.
Qed.

Section clean_spec.

Context {ProjectMetadata : Type}.
Variable metadata_setup :
  ProjectMetadata → string → filesystem → res (bool * filesystem).

Local Abbreviation set_up_clean := (setup_clean metadata_setup).

(** X11: [setup_clean] and its cache. When the clean directory is there,
    a call that does not invalidate the cache returns [True] without
    consulting the metadata and leaves the file system as it is, and a
    call that invalidates it runs [metadata.setup] on a file system from
    which the clean directory and all inside it are gone, and in which
    all else is as before. When the path is not a directory,
    [metadata.setup] runs on the file system as it is, with either
    flag. *)
Theorem setup_clean_cache metadata clean_dir fs :
  (clean_dir ∈ dirs fs →
     set_up_clean metadata clean_dir false fs = inr (true, fs)
     ∧ ∃ fs1,
         set_up_clean metadata clean_dir true fs
         = metadata_setup metadata clean_dir fs1
         ∧ vacant clean_dir fs1
         ∧ ∀ q, ¬ within clean_dir q →
                files fs1 !! q = files fs !! q
                ∧ (q ∈ dirs fs1 ↔ q ∈ dirs fs))
  ∧ (clean_dir ∉ dirs fs →
       ∀ invalidate_cache,
         set_up_clean metadata clean_dir invalidate_cache fs
         = metadata_setup metadata clean_dir fs).
Proof.
  unfold setup_clean. split.
  - intros Hd. split.
    + simpl. rewrite isdir_exists. by rewrite bool_decide_true.
    + simpl. rewrite isdir_exists, bool_decide_true by done.
      destruct (rmtree clean_dir fs) as [e|fs1] eqn:Hrm.
      { unfold rmtree in Hrm. rewrite bool_decide_true in Hrm by done.
        discriminate. }
      apply rmtree_spec in Hrm as (Hvac & Hfiles & Hdirs).
      exists fs1. simpl. rewrite isdir_exists.
      rewrite bool_decide_false.
      2:{ intros Hin. apply (Hvac clean_dir); [by left|by right]. }
      split_and!; [done|done|]. intros q Hq. split; [by apply Hfiles|by apply Hdirs].
  - intros Hd invalidate_cache.
    rewrite <- andb_assoc, isdir_exists, bool_decide_false by done.
    rewrite andb_false_r. simpl.
    by rewrite isdir_exists, bool_decide_false.
Qed.

End clean_spec.

Section metadata_spec.

Context {ProjectMetadata Document : Type}.
Variable decode : Document → res ProjectMetadata.
Variable encode : ProjectMetadata → res Document.
Variable json_loads : string → res Document.
Variable json_dumps : Document → string.
Variable METADATA_BUILDER : res ProjectMetadata.
Variable url_scheme : string → string.
Variable download_file : string → option string.
Local Abbreviation read :=
  (read_metadata decode encode json_loads json_dumps METADATA_BUILDER
     url_scheme download_file).
Local Abbreviation read_file := (read_metadata_from_file decode json_loads).
Local Abbreviation write := (write_metadata_to_file encode json_dumps).

(** X12: what [read_metadata] does with an import location. A download
    that fails and a path that does not exist are passed over in silence:
    the call goes on as if no import had been asked for. A location with
    the scheme [http] or [https] is never tried as a path. An import
    location that is a directory raises [IsADirectoryError], the location
    being opened as the metadata file itself. *)
Theorem read_metadata_import dirpath location fs :
  (url_scheme location ∈ ["http"; "https"] →
     download_file location = None →
     read dirpath (Some location) fs = read dirpath None fs)
  ∧ (url_scheme location ∉ ["http"; "https"] →
       path_exists fs location = false →
       read dirpath (Some location) fs = read dirpath None fs)
  ∧ (url_scheme location ∉ ["http"; "https"] →
       location ∈ dirs fs → location ∉ dom (files fs) →
       read dirpath (Some location) fs = inl (IsADirectoryError location)).
Proof.
  unfold read_metadata. split_and!.
  - intros Hs Hd. by rewrite bool_decide_true, Hd.
  - intros Hs He. by rewrite bool_decide_false, He.
  - intros Hs Hd Hf. rewrite bool_decide_false by done.
    assert (path_exists fs location = true) as ->
      by (apply path_exists_true; by right).
    unfold read_metadata_from_file, open_read.
    apply not_elem_of_dom in Hf. rewrite Hf.
    by rewrite bool_decide_true.
Qed.

(** X13: the metadata file that [write_metadata_to_file] leaves is the one
    that [read_metadata] reads. The call replaces or creates the file
    [project_metadata.json] of the directory with the dumped document and
    changes nothing else; if the document is read back from its dump and
    decoded to the metadata, a later [read_metadata] without import
    returns the metadata, does not ask the builder and writes nothing. *)
Theorem write_metadata_then_read dirpath metadata document fs result :
  encode metadata = inr document →
  write dirpath metadata fs = inr result →
  result.1 = metadata
  ∧ files result.2
    = <[metadata_path dirpath := json_dumps document]> (files fs)
  ∧ dirs result.2 = dirs fs
  ∧ (json_loads (read_text (json_dumps document)) = inr document →
     decode document = inr metadata →
     read_file (metadata_path dirpath) result.2 = inr metadata
     ∧ read dirpath None result.2 = inr (metadata, result.2)).
Proof.
  intros Henc Hrun. unfold write_metadata_to_file in Hrun.
  destruct (write_file (metadata_path dirpath) "" fs) as [e|fs1] eqn:H1;
    [discriminate|].
  apply write_file_spec in H1 as [-> _].
  simpl in Hrun. rewrite Henc in Hrun. simpl in Hrun.
  destruct (encode_text (json_dumps document)) as [e|content] eqn:Hvalid;
    [discriminate|].
  apply encode_text_spec in Hvalid as [Hvalid ->]. simpl in Hrun.
  destruct (write_file (metadata_path dirpath) (json_dumps document) _)
    as [e|fs2] eqn:H2; [discriminate|].
  apply write_file_spec in H2 as [-> _].
  simpl in Hrun. injection Hrun as <-. simpl.
  split_and!; [done|apply insert_insert_eq|done|].
  intros Hjson Hdec.
  assert (Hfile : read_file (metadata_path dirpath)
                    (with_file (metadata_path dirpath) (json_dumps document)
                       (with_file (metadata_path dirpath) "" fs))
                  = inr metadata).
  { unfold read_metadata_from_file, open_read. simpl.
    rewrite lookup_insert_eq. simpl.
    unfold decode_text. rewrite Hvalid. simpl.
    rewrite Hjson. simpl. exact Hdec. }
  split; [exact Hfile|].
  unfold read_metadata, read_local_metadata.
  assert (path_exists
            (with_file (metadata_path dirpath) (json_dumps document)
               (with_file (metadata_path dirpath) "" fs))
            (metadata_path dirpath) = true) as ->.
  { apply path_exists_true. left. simpl. rewrite !dom_insert_L. set_solver. }
  by rewrite Hfile.
Qed.

(** X14: the workspace directory must be there before its metadata can be
    written. For a path that is not a directory, in a file system where
    every entry lies in directories that exist,
    [write_metadata_to_file] raises [NotADirectoryError] or
    [FileNotFoundError]: the first when the path is a regular file, the
    second when neither the path nor a directory above it is one; and
    [read_metadata] without import raises as well, after the builder has
    been asked. *)
Theorem write_metadata_needs_directory dirpath fs :
  wf fs → tidy dirpath → dirpath ∉ dirs fs →
  (∀ metadata,
     write dirpath metadata fs
     = inl (NotADirectoryError (metadata_path dirpath))
     ∨ write dirpath metadata fs
       = inl (FileNotFoundError (metadata_path dirpath)))
  ∧ (dirpath ∈ dom (files fs) →
     ∀ metadata,
       write dirpath metadata fs
       = inl (NotADirectoryError (metadata_path dirpath)))
  ∧ ((∀ d, within d dirpath → d ∉ dom (files fs)) →
     ∀ metadata,
       write dirpath metadata fs
       = inl (FileNotFoundError (metadata_path dirpath)))
  ∧ ∃ e, read dirpath None fs = inl e.
Proof.
  intros Hwf Htidy Hd.
  assert (Hno : ¬ entry fs (metadata_path dirpath)).
  { intros He. apply Hd.
    apply (wf_dirs _ Hwf (metadata_path dirpath)); [done| |apply Htidy].
    apply (under_inside dirpath _PROJECT_METADATA_NAME). }
  assert (Hw : ∀ metadata,
            write dirpath metadata fs
            = inl (if below_file fs (metadata_path dirpath)
                   then NotADirectoryError (metadata_path dirpath)
                   else FileNotFoundError (metadata_path dirpath))).
  { intros metadata. unfold write_metadata_to_file, write_file, without_sep.
    rewrite metadata_path_no_sep.
    destruct (below_file fs (metadata_path dirpath)); [done|].
    unfold parent_exists. rewrite dirname_metadata_path by done.
    rewrite tidy_not_all_slashes by done.
    by rewrite bool_decide_false. }
  split_and!.
  - intros metadata. rewrite Hw.
    destruct (below_file fs (metadata_path dirpath)); [by left|by right].
  - intros Hfile metadata. rewrite Hw.
    assert (below_file fs (metadata_path dirpath) = true) as ->; [|done].
    apply bool_decide_eq_true, Exists_exists. exists dirpath.
    split; [|done]. unfold parents.
    destruct (len (metadata_path dirpath)) as [|n] eqn:Hlen.
    { exfalso. apply (inside_nonempty dirpath _PROJECT_METADATA_NAME).
      apply chars_inj. unfold len, metadata_path in Hlen.
      by apply length_zero_iff_nil in Hlen. }
    simpl. rewrite dirname_metadata_path by done.
    rewrite tidy_not_all_slashes by done. by left.
  - intros Habove metadata. rewrite Hw.
    assert (below_file fs (metadata_path dirpath) = false) as ->; [|done].
    apply bool_decide_eq_false. intros (d & Hin & Hfile)%Exists_exists.
    apply (Habove d); [|done].
    apply (under_inside_leaf d dirpath _PROJECT_METADATA_NAME).
    + apply (bool_decide_unpack _). vm_compute. exact I.
    + by apply parents_under.
  - unfold read_metadata, read_local_metadata.
    apply path_exists_false in Hno. rewrite Hno.
    destruct METADATA_BUILDER as [e|metadata]; simpl; [by exists e|].
    rewrite Hw. by eexists.
Qed.

End metadata_spec.

(** *** A capture keeps the file system well formed *)

Lemma wf_file_paths fs q :
  wf fs → q ∈ dom (files fs) → no_double_slash (chars q) = true.
Proof. intros Hwf Hq. apply (wf_paths _ Hwf). by left. Qed.

Lemma wf_leaves fs p q :
  wf fs → p ∈ dom (files fs) → q ∈ dom (files fs) → p ≠ "" → ¬ under p q.
Proof.
  intros Hwf Hp Hq Hne Hu. apply (wf_files _ Hwf p Hp).
  apply (wf_dirs _ Hwf q); [by left|done..].
Qed.

Section capture_wf.

Variable create_patch : string → string → string → string → string.
Variable as_posix : string → string.
Variable scan : list string → list string.
Hypothesis scan_perm : ∀ l, scan l ≡ₚ l.

Context (clean_dir working_dir patch_dir out_dir time : string).
Hypothesis Hlayout : layout clean_dir working_dir patch_dir out_dir.
Hypothesis Hpatch_path : no_double_slash (chars patch_dir) = true.
Hypothesis Hout_path : no_double_slash (chars out_dir) = true.

Variable fs1 : filesystem.
Hypothesis fs1_wf : wf fs1.
Hypothesis fs1_hollow_patch : ∀ q, under patch_dir q → ¬ entry fs1 q.
Hypothesis fs1_hollow_out : ∀ q, under out_dir q → ¬ entry fs1 q.

Local Abbreviation captured_in :=
  (captured create_patch as_posix clean_dir working_dir patch_dir out_dir
     time fs1).
Local Abbreviation step :=
  (output_working_file create_patch as_posix clean_dir working_dir patch_dir
     out_dir time).

Lemma capture_step_wf done W cur nxt :
  captured_in done cur → wf cur →
  (∀ x, x ∈ done → x ∈ dom (files fs1)) →
  W ∈ dom (files fs1) → under working_dir W →
  step W cur = inr nxt →
  wf nxt.
Proof.
  intros Hc Hwf Hdone Hfile Hunder.
  destruct (walked_file clean_dir working_dir patch_dir out_dir Hlayout fs1
              (λ q, wf_file_paths fs1 q fs1_wf) W Hfile Hunder)
    as (r & w & -> & Hw & Hrel & Hclean & Hout & Hpatch).
  pose proof (wf_file_paths _ _ fs1_wf Hfile) as HW.
  pose proof (inside_rel_no_double_slash _ _ HW) as Hr.
  pose proof (inside_no_double_slash _ _ HW) as Hrel_r.
  assert (Hpp : no_double_slash (chars (patch_file patch_dir r)) = true).
  { apply no_double_slash_inside;
      [apply Hlayout|done|by apply no_double_slash_patch_name
      |by apply startswith_patch_name]. }
  assert (Hop : no_double_slash (chars (inside out_dir r)) = true).
  { apply no_double_slash_inside; [apply Hlayout|done..]. }
  unfold output_working_file. rewrite Hrel, Hclean.
  destruct (path_exists cur (inside clean_dir r)) eqn:Hexists.
  - unfold generate_patch. rewrite Hpatch.
    destruct (open_read (inside working_dir r) cur) as [e|w'];
      simpl; [done|].
    destruct (open_read (inside clean_dir r) cur) as [e|c]; simpl; [done|].
    destruct (decode_text c) as [e|clean_text]; simpl; [done|].
    destruct (decode_text w') as [e|work_text]; simpl; [done|].
    case_bool_decide as Hdiff.
    + destruct (makedirs (dirname (patch_file patch_dir r)) true cur)
        as [e|mid] eqn:Hmk; simpl; [done|].
      intros Hwrite. eapply write_text_wf; [|exact Hpp|exact Hwrite].
      eapply makedirs_wf; [exact Hwf| |exact Hmk].
      eapply under_no_double_slash; [|exact Hpp].
      apply dirname_inside_under, Hlayout.
    + intros Heq. by injection Heq as <-.
  - unfold output_file. rewrite Hout.
    destruct (makedirs (dirname (inside out_dir r)) true cur)
      as [e|mid] eqn:Hmk; simpl; [done|].
    assert (Hwf_mid : wf mid).
    { eapply makedirs_wf; [exact Hwf| |exact Hmk].
      eapply under_no_double_slash; [|exact Hop].
      apply dirname_inside_under, Hlayout. }
    apply makedirs_spec in Hmk as (Hfiles & Hdir & Hkept & Hnew).
    assert (Hnotdir : inside out_dir r ∉ dirs mid).
    { intros Hd. destruct (Hnew _ Hd) as [Hold|Hwithin].
      - destruct (captured_dirs_new _ _ _ _ _ _ _ _ _ _ Hc _ Hold)
          as [H1|(r' & Hin & [Hu|Hu])].
        + apply (fs1_hollow_out (inside out_dir r)); [apply under_inside|].
          by right.
        + eapply (apart patch_dir out_dir);
            [apply Hlayout|apply under_patch_file|].
          eapply under_trans; [apply under_inside|done].
        + apply (wf_leaves fs1 (inside working_dir r)
                   (inside working_dir r') fs1_wf);
            [done|by apply Hdone|apply inside_nonempty|].
          by apply under_inside_mono, (under_inside_inside out_dir).
      - apply (under_irrefl (inside out_dir r)).
        eapply within_trans; [done|].
        apply dirname_inside_under, Hlayout. }
    unfold copy, isdir. rewrite (bool_decide_false _ Hnotdir).
    rewrite bool_decide_false; simpl.
    2:{ intros Heq. eapply (apart working_dir out_dir);
          [apply Hlayout|apply under_inside|].
        rewrite Heq. apply under_inside. }
    destruct (open_read (inside working_dir r) mid) as [e|w'];
      simpl; [done|].
    intros Hwrite. eapply write_file_wf; [exact Hwf_mid|exact Hop|exact Hwrite].
Qed.

Lemma capture_loop_wf fs' :
  for_each step (walk scan working_dir fs1) fs1 = inr fs' → wf fs'.
Proof.
  pose proof (NoDup_walk scan scan_perm working_dir fs1) as Hnodup.
  intros Hrun.
  apply (for_each_inv
           (λ done cur,
              captured_in done cur ∧ wf cur
              ∧ ∀ x, x ∈ done → x ∈ walk scan working_dir fs1)) in Hrun.
  - apply Hrun.
  - split_and!; [|done|set_solver].
    apply (captured_start create_patch as_posix scan scan_perm clean_dir
             working_dir patch_dir out_dir time Hlayout fs1
             (λ q, wf_file_paths fs1 q fs1_wf)
             (λ p q, wf_leaves fs1 p q fs1_wf)
             fs1_hollow_patch fs1_hollow_out).
  - intros done x rest cur nxt Hitems (Hc & Hwf & Hdone) Hbody.
    rewrite Hitems in Hnodup.
    apply NoDup_app in Hnodup as (_ & Hfresh & _).
    assert (Hx : x ∈ walk scan working_dir fs1)
      by (rewrite Hitems; set_solver).
    apply (elem_of_walk scan scan_perm) in Hx as [Hunder Hfile].
    assert (Hdone' : ∀ y, y ∈ done → y ∈ dom (files fs1)).
    { intros y Hy. by apply (elem_of_walk scan scan_perm working_dir fs1),
        Hdone. }
    split_and!.
    + eapply (capture_step create_patch as_posix scan scan_perm clean_dir
                working_dir patch_dir out_dir time Hlayout fs1
                (λ q, wf_file_paths fs1 q fs1_wf)
                (λ p q, wf_leaves fs1 p q fs1_wf)
                fs1_hollow_patch fs1_hollow_out); try done.
      intros Hin. apply (Hfresh x Hin). set_solver.
    + by eapply capture_step_wf.
    + intros y [Hy| ->%list_elem_of_singleton]%elem_of_app; [auto|].
      apply (elem_of_walk scan scan_perm). done.
Qed.

End capture_wf.

Lemma output_working_keeps_wf create_patch as_posix scan
    clean_dir working_dir patch_dir out_dir time fs fs' :
  (∀ l, scan l ≡ₚ l) →
  layout clean_dir working_dir patch_dir out_dir →
  no_double_slash (chars patch_dir) = true →
  no_double_slash (chars out_dir) = true →
  wf fs →
  output_working create_patch as_posix scan clean_dir working_dir patch_dir
    out_dir time fs = inr fs' →
  wf fs'.
Proof.
  intros scan_perm Hlayout Hpp Hop Hwf Hrun.
  destruct (output_working_clears create_patch as_posix scan clean_dir
              working_dir patch_dir out_dir Hlayout time fs Hwf)
    as (fs1 & Heq & Hwf1 & Hhp & Hho & _).
  rewrite Heq in Hrun.
  by eapply (capture_loop_wf create_patch as_posix scan scan_perm).
Qed.

(** *** A capture returns *)

Lemma within_under_apart a b d :
  separate a b → within d a → under b d → False.
Proof.
  intros [_ Hba] Hd Hu. apply Hba. right.
  destruct Hd as [->|Hd]; [done|]. by eapply under_trans.
Qed.

Lemma within_under_same a d : within d a → under a d → False.
Proof.
  intros Hd Hu. apply (under_irrefl d). by eapply within_trans.
Qed.

Lemma endswith_sep_last p :
  endswith p sep = true ↔ last (chars p) = Some slash.
Proof.
  unfold endswith. rewrite bool_decide_eq_true. split.
  - intros [k ->]. by rewrite last_app.
  - intros Hl. destruct (chars p) as [|c l _] using rev_ind; [done|].
    rewrite last_snoc in Hl. injection Hl as ->. by exists l.
Qed.

Lemma last_inside d r :
  last (chars (inside d r))
  = match last (chars r) with Some c => Some c | None => Some slash end.
Proof.
  unfold inside. rewrite !chars_app, !last_app.
  by destruct (last (chars r)).
Qed.

Lemma inside_no_sep d d' r :
  endswith (inside d r) sep = false → endswith (inside d' r) sep = false.
Proof.
  rewrite <- !not_true_iff_false, !endswith_sep_last, !last_inside. done.
Qed.

Lemma patch_file_no_sep d r : endswith (patch_file d r) sep = false.
Proof.
  apply not_true_iff_false. rewrite endswith_sep_last.
  unfold patch_file. rewrite last_inside, !chars_app, !last_app. done.
Qed.

Section capture_returns.

Variable create_patch : string → string → string → string → string.
Variable as_posix : string → string.
Variable scan : list string → list string.
Hypothesis scan_perm : ∀ l, scan l ≡ₚ l.

Context (clean_dir working_dir patch_dir out_dir time : string).
Hypothesis Hlayout : layout clean_dir working_dir patch_dir out_dir.
Hypothesis Hpatch_path : no_double_slash (chars patch_dir) = true.
Hypothesis Hout_path : no_double_slash (chars out_dir) = true.

Variable fs1 : filesystem.
Hypothesis fs1_wf : wf fs1.
Hypothesis fs1_hollow_patch : ∀ q, under patch_dir q → ¬ entry fs1 q.
Hypothesis fs1_hollow_out : ∀ q, under out_dir q → ¬ entry fs1 q.

Local Abbreviation captured_in :=
  (captured create_patch as_posix clean_dir working_dir patch_dir out_dir
     time fs1).
Local Abbreviation step :=
  (output_working_file create_patch as_posix clean_dir working_dir patch_dir
     out_dir time).

(** The patch and the output directory, and the directories above them,
    are no regular files. *)
Hypothesis fs1_free :
  ∀ d, within d patch_dir ∨ within d out_dir → d ∉ dom (files fs1).
(** The working files are text, their paths do not end with a separator,
    and none has a directory of the clean tree for its counterpart. *)
Hypothesis fs1_work :
  ∀ r w, files fs1 !! inside working_dir r = Some w →
         utf8_valid (chars w) = true
         ∧ endswith (inside working_dir r) sep = false
         ∧ inside clean_dir r ∉ dirs fs1.
Hypothesis fs1_clean :
  ∀ r w c, files fs1 !! inside working_dir r = Some w →
           files fs1 !! inside clean_dir r = Some c →
           utf8_valid (chars c) = true.
Hypothesis fs1_patch_text :
  ∀ r text,
    is_patch create_patch as_posix clean_dir working_dir time fs1 r text →
    utf8_valid (chars text) = true.
(** No patch artifact would lie inside the path of another. *)
Hypothesis fs1_patch_apart :
  ∀ r r', is_Some (files fs1 !! inside working_dir r) →
          is_Some (files fs1 !! inside working_dir r') →
          ¬ under (patch_file patch_dir r) (patch_file patch_dir r').

Lemma captured_free done cur d :
  captured_in done cur →
  within d patch_dir ∨ within d out_dir → d ∉ dom (files cur).
Proof.
  intros Hc Hd.
  rewrite elem_of_dom, (captured_other _ _ _ _ _ _ _ _ _ _ Hc d),
    <- elem_of_dom; [by apply fs1_free|..]; intros Hu.
  - destruct Hd as [Hd|Hd]; [by eapply within_under_same|].
    eapply (within_under_apart out_dir patch_dir);
      [apply separate_sym, Hlayout|done..].
  - destruct Hd as [Hd|Hd]; [|by eapply within_under_same].
    eapply (within_under_apart patch_dir out_dir); [apply Hlayout|done..].
Qed.

Lemma patch_above_free done cur r d :
  captured_in done cur → (∀ x, x ∈ done → x ∈ dom (files fs1)) →
  is_Some (files fs1 !! inside working_dir r) →
  under d (patch_file patch_dir r) → d ∉ dom (files cur).
Proof.
  intros Hc Hdone Hr Hu Hf.
  destruct (under_both d patch_dir _ Hu (under_patch_file patch_dir r))
    as [Hw|[->|Hw]].
  - by apply (captured_free done cur d Hc (or_introl Hw)).
  - apply (captured_free done cur patch_dir Hc); [left; by left|done].
  - apply elem_of_dom in Hf as [text Hf].
    destruct (captured_patch_only _ _ _ _ _ _ _ _ _ _ Hc d text Hw Hf)
      as (r' & -> & Hin & _).
    apply (fs1_patch_apart r' r); [|done..].
    apply elem_of_dom. by apply Hdone.
Qed.

Lemma out_above_free done cur r d :
  captured_in done cur → (∀ x, x ∈ done → x ∈ dom (files fs1)) →
  inside working_dir r ∈ dom (files fs1) →
  under d (inside out_dir r) → d ∉ dom (files cur).
Proof.
  intros Hc Hdone Hr Hu Hf.
  destruct (under_both d out_dir _ Hu (under_inside out_dir r))
    as [Hw|[->|Hw]].
  - by apply (captured_free done cur d Hc (or_intror Hw)).
  - apply (captured_free done cur out_dir Hc); [right; by left|done].
  - apply elem_of_dom in Hf as [content Hf].
    destruct (captured_out_only _ _ _ _ _ _ _ _ _ _ Hc d content Hw Hf)
      as (r' & -> & Hin & _).
    apply (wf_leaves fs1 (inside working_dir r') (inside working_dir r)
             fs1_wf);
      [by apply Hdone|done|apply inside_nonempty|].
    by apply under_inside_mono, (under_inside_inside out_dir).
Qed.

Lemma patch_not_dir done cur r :
  captured_in done cur → (∀ x, x ∈ done → x ∈ dom (files fs1)) →
  is_Some (files fs1 !! inside working_dir r) →
  patch_file patch_dir r ∉ dirs cur.
Proof.
  intros Hc Hdone Hr Hd.
  destruct (captured_dirs_new _ _ _ _ _ _ _ _ _ _ Hc _ Hd)
    as [H1|(r' & Hin & [Hu|Hu])].
  - apply (fs1_hollow_patch (patch_file patch_dir r));
      [apply under_patch_file|by right].
  - apply (fs1_patch_apart r r'); [done| |done].
    apply elem_of_dom. by apply Hdone.
  - eapply (apart patch_dir out_dir); [apply Hlayout| |apply under_inside].
    eapply under_trans; [apply under_patch_file|done].
Qed.

Lemma out_not_dir done cur r :
  captured_in done cur → (∀ x, x ∈ done → x ∈ dom (files fs1)) →
  inside working_dir r ∈ dom (files fs1) →
  inside out_dir r ∉ dirs cur.
Proof.
  intros Hc Hdone Hr Hd.
  destruct (captured_dirs_new _ _ _ _ _ _ _ _ _ _ Hc _ Hd)
    as [H1|(r' & Hin & [Hu|Hu])].
  - apply (fs1_hollow_out (inside out_dir r)); [apply under_inside|].
    by right.
  - eapply (apart patch_dir out_dir);
      [apply Hlayout|apply under_patch_file|].
    eapply under_trans; [apply under_inside|done].
  - apply (wf_leaves fs1 (inside working_dir r) (inside working_dir r')
             fs1_wf);
      [done|by apply Hdone|apply inside_nonempty|].
    by apply under_inside_mono, (under_inside_inside out_dir).
Qed.

(** The directory of an artifact can be made, and the artifact written
    into it. *)
Lemma artifact_written p content cur :
  (∃ d r, tidy d ∧ p = inside d r) →
  endswith p sep = false →
  (∀ d, under d p → d ∉ dom (files cur)) →
  p ∉ dirs cur →
  ∃ mid, makedirs (dirname p) true cur = inr mid
         ∧ files mid = files cur
         ∧ write_file p content mid = inr (with_file p content mid)
         ∧ (utf8_valid (chars content) = true →
            write_text p content mid = inr (with_file p content mid)).
Proof.
  intros (d & r & Hd & ->) Hend Habove Hdir.
  pose proof (dirname_inside_under d r Hd) as Hu.
  destruct (makedirs_returns (dirname (inside d r)) cur) as [mid Hmk].
  - intros Hempty. pose proof (dirname_inside d r Hd) as Hns.
    by rewrite Hempty in Hns.
  - by apply Habove.
  - intros a Ha. apply Habove. by eapply under_trans.
  - exists mid. split; [done|].
    apply makedirs_spec in Hmk as (Hfiles & Hmade & _ & Hnew).
    assert (Hdir' : inside d r ∉ dirs mid).
    { intros Hin. destruct (Hnew _ Hin) as [?|Hw]; [done|].
      apply (under_irrefl (inside d r)). by eapply within_trans. }
    split_and!; [done|..].
    + apply write_file_returns; try done. by rewrite Hfiles.
    + intros Htext. apply write_text_returns; try done. by rewrite Hfiles.
Qed.

Lemma capture_step_returns done W cur :
  captured_in done cur →
  (∀ x, x ∈ done → x ∈ dom (files fs1)) →
  W ∈ dom (files fs1) → under working_dir W →
  ∃ nxt, step W cur = inr nxt.
Proof.
  intros Hc Hdone Hfile Hunder.
  destruct (walked_file clean_dir working_dir patch_dir out_dir Hlayout fs1
              (λ q, wf_file_paths fs1 q fs1_wf) W Hfile Hunder)
    as (r & w & -> & Hw & Hrel & Hclean & Hout & Hpatch).
  destruct (fs1_work r w Hw) as (Hwtext & Hwend & Hcdir).
  assert (Hw_now : files cur !! inside working_dir r = Some w).
  { rewrite (captured_other _ _ _ _ _ _ _ _ _ _ Hc); [done|..]; intros Hu.
    - eapply (apart working_dir patch_dir);
        [apply Hlayout|apply under_inside|done].
    - eapply (apart working_dir out_dir);
        [apply Hlayout|apply under_inside|done]. }
  assert (Hclean_now :
    files cur !! inside clean_dir r = files fs1 !! inside clean_dir r).
  { apply (captured_other _ _ _ _ _ _ _ _ _ _ Hc); intros Hu.
    - eapply (apart clean_dir patch_dir);
        [apply Hlayout|apply under_inside|done].
    - eapply (apart clean_dir out_dir);
        [apply Hlayout|apply under_inside|done]. }
  unfold output_working_file. rewrite Hrel, Hclean.
  destruct (path_exists cur (inside clean_dir r)) eqn:Hexists.
  - apply path_exists_true in Hexists.
    apply (captured_entry_clean create_patch as_posix clean_dir working_dir
             patch_dir out_dir time Hlayout fs1 done cur r Hc) in Hexists
      as [[c Hcf]%elem_of_dom|?]; [|done].
    unfold generate_patch. rewrite Hpatch.
    rewrite (proj2 (open_read_spec _ _ _) Hw_now). simpl.
    rewrite <- Hclean_now in Hcf.
    rewrite (proj2 (open_read_spec _ _ _) Hcf). simpl.
    rewrite Hclean_now in Hcf.
    unfold decode_text. rewrite (fs1_clean r w c Hw Hcf), Hwtext. simpl.
    case_bool_decide as Hdiff; [|by eexists].
    destruct (artifact_written (patch_file patch_dir r)
                (create_patch (read_text c) (read_text w) (as_posix r) time)
                cur) as (mid & -> & _ & _ & Hwrite).
    + exists patch_dir, (r +:+ extsep +:+ "patch").
      split; [apply Hlayout|done].
    + apply patch_file_no_sep.
    + intros d. by apply (patch_above_free done cur r d).
    + by apply (patch_not_dir done cur r).
    + simpl. rewrite Hwrite; [by eexists|].
      apply (fs1_patch_text r). by exists w, c.
  - unfold output_file. rewrite Hout.
    destruct (artifact_written (inside out_dir r) w cur)
      as (mid & Hmk & Hfiles & Hwrite & _).
    + exists out_dir, r. split; [apply Hlayout|done].
    + by apply (inside_no_sep working_dir).
    + intros d. by apply (out_above_free done cur r d).
    + by apply (out_not_dir done cur r).
    + rewrite Hmk. simpl.
      assert (Hnotdir : inside out_dir r ∉ dirs mid).
      { apply write_file_inv in Hwrite. apply Hwrite. }
      unfold copy, isdir. rewrite (bool_decide_false _ Hnotdir).
      rewrite bool_decide_false; simpl.
      2:{ intros Heq. eapply (apart working_dir out_dir);
            [apply Hlayout|apply under_inside|].
          rewrite Heq. apply under_inside. }
      assert (Hopen : open_read (inside working_dir r) mid = inr w)
        by (apply open_read_spec; by rewrite Hfiles).
      rewrite Hopen. simpl. rewrite Hwrite. by eexists.
Qed.

Lemma capture_loop_returns :
  ∃ fs', for_each step (walk scan working_dir fs1) fs1 = inr fs'
         ∧ captured_in (walk scan working_dir fs1) fs' ∧ wf fs'.
Proof.
  pose proof (NoDup_walk scan scan_perm working_dir fs1) as Hnodup.
  destruct (for_each_returns
              (λ done cur,
                 captured_in done cur ∧ wf cur
                 ∧ ∀ x, x ∈ done → x ∈ walk scan working_dir fs1)
              step (walk scan working_dir fs1) fs1)
    as (fs' & Hrun & Hc & Hwf & _).
  - split_and!; [|done|set_solver].
    apply (captured_start create_patch as_posix scan scan_perm clean_dir
             working_dir patch_dir out_dir time Hlayout fs1
             (λ q, wf_file_paths fs1 q fs1_wf)
             (λ p q, wf_leaves fs1 p q fs1_wf)
             fs1_hollow_patch fs1_hollow_out).
  - intros done x rest cur Hitems (Hc & Hwf & Hdone).
    rewrite Hitems in Hnodup.
    apply NoDup_app in Hnodup as (_ & Hfresh & _).
    assert (Hx : x ∈ walk scan working_dir fs1)
      by (rewrite Hitems; set_solver).
    apply (elem_of_walk scan scan_perm) in Hx as [Hunder Hfile].
    assert (Hdone' : ∀ y, y ∈ done → y ∈ dom (files fs1)).
    { intros y Hy. by apply (elem_of_walk scan scan_perm working_dir fs1),
        Hdone. }
    destruct (capture_step_returns done x cur Hc Hdone' Hfile Hunder)
      as [nxt Hstep].
    exists nxt. split_and!; [done|..].
    + eapply (capture_step create_patch as_posix scan scan_perm clean_dir
                working_dir patch_dir out_dir time Hlayout fs1
                (λ q, wf_file_paths fs1 q fs1_wf)
                (λ p q, wf_leaves fs1 p q fs1_wf)
                fs1_hollow_patch fs1_hollow_out); try done.
      intros Hin. apply (Hfresh x Hin). set_solver.
    + by eapply (capture_step_wf create_patch as_posix clean_dir
                   working_dir patch_dir out_dir time Hlayout Hpatch_path
                   Hout_path fs1 fs1_wf fs1_hollow_out).
    + intros y [Hy| ->%list_elem_of_singleton]%elem_of_app; [auto|].
      apply (elem_of_walk scan scan_perm). done.
  - by exists fs'.
Qed.

End capture_returns.


(** *** A capture, then a rebuild *)
Section round_trip.

Variable create_patch : string → string → string → string → string.
Variable apply_patch : string → string → res string.
Variable as_posix : string → string.
Variables scan scan' : list string → list string.
Hypothesis scan_perm : ∀ l, scan l ≡ₚ l.
Hypothesis scan_perm' : ∀ l, scan' l ≡ₚ l.

Context (clean_dir working_dir patch_dir out_dir time : string).
Hypothesis Hlayout : layout clean_dir working_dir patch_dir out_dir.
Hypothesis Hpatch_path : no_double_slash (chars patch_dir) = true.
Hypothesis Hout_path : no_double_slash (chars out_dir) = true.

Variables fs fs1 fs2 : filesystem.
Hypothesis fs_wf : wf fs.
Hypothesis Hcapture :
  output_working create_patch as_posix scan clean_dir working_dir patch_dir
    out_dir time fs = inr fs1.
Hypothesis Hrebuild :
  setup_working apply_patch scan' clean_dir working_dir patch_dir out_dir fs1
  = inr fs2.

Local Abbreviation is_patch_in :=
  (is_patch create_patch as_posix clean_dir working_dir time fs).
Local Abbreviation is_new_in := (is_new clean_dir working_dir fs).
Local Abbreviation base := (base_content clean_dir out_dir fs1).

Lemma captured_wf : wf fs1.
Proof.
  by eapply (output_working_keeps_wf create_patch as_posix scan).
Qed.

Lemma captured_sources q :
  under clean_dir q ∨ under working_dir q → files fs1 !! q = files fs !! q.
Proof.
  intros Hq.
  destruct (output_working_captured create_patch as_posix scan scan_perm
              clean_dir working_dir patch_dir out_dir Hlayout time fs fs1
              fs_wf Hcapture) as (fs0 & Hc & Hsame).
  destruct (sources_apart clean_dir working_dir patch_dir out_dir Hlayout
              q Hq) as [Hp Ho].
  rewrite (captured_other _ _ _ _ _ _ _ _ _ _ Hc)
    by (intros ?; first [apply Hp; by right | apply Ho; by right]).
  by apply (Hsame q Hp Ho).
Qed.

Lemma captured_out_file r o :
  files fs1 !! inside out_dir r = Some o ↔ is_new_in r o.
Proof.
  destruct (output_working_exact create_patch as_posix scan scan_perm
              clean_dir working_dir patch_dir out_dir Hlayout time fs fs1
              fs_wf Hcapture) as [_ Houts].
  rewrite (Houts (inside out_dir r) o (under_inside _ _)). split.
  - by intros (r' & <-%inside_inj & Hn).
  - intros Hn. by exists r.
Qed.

Lemma captured_patch_file r text :
  files fs1 !! patch_file patch_dir r = Some text ↔ is_patch_in r text.
Proof.
  destruct (output_working_exact create_patch as_posix scan scan_perm
              clean_dir working_dir patch_dir out_dir Hlayout time fs fs1
              fs_wf Hcapture) as [Hpatches _].
  rewrite (Hpatches (patch_file patch_dir r) text (under_patch_file _ _)).
  split.
  - by intros (r' & <-%patch_file_inj & Hn).
  - intros Hn. by exists r.
Qed.

(** No output file of the capture has the path of a directory of the
    clean tree. *)
Lemma captured_clean_dirs d :
  under clean_dir d → d ∈ dirs fs1 → d ∈ dirs fs.
Proof.
  intros Hu Hin.
  destruct (output_working_captured create_patch as_posix scan scan_perm
              clean_dir working_dir patch_dir out_dir Hlayout time fs fs1
              fs_wf Hcapture) as (fs0 & Hc & Hsame).
  destruct (sources_apart clean_dir working_dir patch_dir out_dir Hlayout
              d (or_introl Hu)) as [Hp Ho].
  destruct (captured_dirs_new _ _ _ _ _ _ _ _ _ _ Hc d Hin)
    as [H1|(r & _ & [Hr|Hr])]; [by apply (Hsame d Hp Ho)|exfalso..].
  - eapply (apart clean_dir patch_dir);
      [apply Hlayout| |apply under_patch_file]. by eapply under_trans.
  - eapply (apart clean_dir out_dir); [apply Hlayout| |apply under_inside].
    by eapply under_trans.
Qed.

Lemma captured_meet r :
  is_Some (files fs1 !! inside out_dir r) → inside clean_dir r ∉ dirs fs1.
Proof.
  intros [o Ho] Hd. apply captured_out_file in Ho as [_ Hne].
  apply Hne. right. apply captured_clean_dirs; [apply under_inside|done].
Qed.

Lemma patch_rel_path_patch_file r :
  patch_rel_path patch_dir (patch_file patch_dir r) = r.
Proof. by apply (patch_rel_path_inside patch_dir r (extsep +:+ "patch")). Qed.

(** Every file of the patch directory is the artifact of the path it
    aims at. *)
Lemma captured_patch_aim p :
  p ∈ dom (files fs1) → under patch_dir p →
  p = patch_file patch_dir (patch_rel_path patch_dir p)
  ∧ ∃ text, is_patch_in (patch_rel_path patch_dir p) text.
Proof.
  intros [text Hp]%elem_of_dom Hu.
  destruct (output_working_exact create_patch as_posix scan scan_perm
              clean_dir working_dir patch_dir out_dir Hlayout time fs fs1
              fs_wf Hcapture) as [Hpatches _].
  apply (Hpatches p text Hu) in Hp as (r & -> & Hr).
  rewrite patch_rel_path_patch_file. split; [done|by exists text].
Qed.

Lemma base_new r w : is_new_in r w → base r = Some w.
Proof.
  intros Hn. pose proof (proj2 (captured_out_file r w) Hn) as Hfile.
  unfold base_content. rewrite decide_True, Hfile; [done|].
  apply (wf_dirs _ captured_wf (inside out_dir r));
    [left; apply elem_of_dom; by eexists|apply under_inside|].
  apply tidy_nonempty, Hlayout.
Qed.

Lemma base_clean r :
  (∀ o, ¬ is_new_in r o) → base r = files fs !! inside clean_dir r.
Proof.
  intros Hno.
  assert (Hout : files fs1 !! inside out_dir r = None).
  { destruct (files fs1 !! inside out_dir r) as [o|] eqn:Ho; [|done].
    by apply captured_out_file, Hno in Ho. }
  assert (Hclean : files fs1 !! inside clean_dir r
                   = files fs !! inside clean_dir r).
  { apply captured_sources. left. apply under_inside. }
  unfold base_content. rewrite Hout, Hclean. by case_decide.
Qed.

Lemma rebuilt_patch_files fsd :
  (∀ q, ¬ within working_dir q → files fsd !! q = files fs1 !! q) →
  ∀ p, under patch_dir p → files fsd !! p = files fs1 !! p.
Proof.
  intros Hsrc p Hp. apply Hsrc.
  eapply separate_under; [apply separate_sym, Hlayout|done].
Qed.

Lemma rebuilt_unpatched r :
  (∀ text, ¬ is_patch_in r text) →
  files fs2 !! inside working_dir r = base r.
Proof.
  intros Hno.
  destruct (setup_working_copies apply_patch scan' clean_dir working_dir
              patch_dir out_dir Hlayout fs1 fs2 captured_wf captured_meet
              Hrebuild)
    as (fsd & Hlast & Hsrc & Hbase).
  pose proof (rebuilt_patch_files fsd Hsrc) as Hpf.
  case_bool_decide as Hpatch.
  - unfold apply_patches in Hlast.
    apply (apply_patches_loop apply_patch scan' scan_perm' clean_dir
             working_dir patch_dir out_dir Hlayout) in Hlast
      as (_ & _ & Htargets).
    2:{ intros x Hx Hu. apply (wf_file_paths fs1); [apply captured_wf|].
        apply elem_of_dom. rewrite <- Hpf by done. by apply elem_of_dom. }
    destruct (Htargets r) as [Hnone _].
    rewrite Hnone, Hbase; [done|]. apply filter_none.
    intros y [Hu Hy]%(elem_of_walk scan' scan_perm') Hr.
    destruct (captured_patch_aim y) as [_ [text Ht]]; [|done|].
    + apply elem_of_dom. rewrite <- Hpf by done. by apply elem_of_dom.
    + rewrite Hr in Ht. by apply (Hno text).
  - injection Hlast as <-. apply Hbase.
Qed.

Lemma rebuilt_patched r text :
  is_patch_in r text →
  ∃ b new,
    base r = Some b
    ∧ apply_patch (read_text b) (read_text text) = inr new
    ∧ files fs2 !! inside working_dir r = Some new.
Proof.
  intros Hp. pose proof (proj2 (captured_patch_file r text) Hp) as Hfile.
  assert (Hdir : patch_dir ∈ dirs fs1).
  { apply (wf_dirs _ captured_wf (patch_file patch_dir r));
      [left; apply elem_of_dom; by eexists|apply under_patch_file|].
    apply tidy_nonempty, Hlayout. }
  destruct (setup_working_copies apply_patch scan' clean_dir working_dir
              patch_dir out_dir Hlayout fs1 fs2 captured_wf captured_meet
              Hrebuild)
    as (fsd & Hlast & Hsrc & Hbase).
  pose proof (rebuilt_patch_files fsd Hsrc) as Hpf.
  rewrite bool_decide_true in Hlast by done.
  unfold apply_patches in Hlast.
  apply (apply_patches_loop apply_patch scan' scan_perm' clean_dir
           working_dir patch_dir out_dir Hlayout) in Hlast
    as (_ & _ & Htargets).
  2:{ intros x Hx Hu. apply (wf_file_paths fs1); [apply captured_wf|].
      apply elem_of_dom. rewrite <- Hpf by done. by apply elem_of_dom. }
  destruct (Htargets r) as [_ Hone].
  destruct (Hone (patch_file patch_dir r))
    as (b & text' & new & Hb & Htext & Hnew & Hres).
  { apply filter_only.
    - apply (NoDup_walk scan' scan_perm').
    - apply (elem_of_walk scan' scan_perm'). split; [apply under_patch_file|].
      apply elem_of_dom. rewrite Hpf by apply under_patch_file. by eexists.
    - apply patch_rel_path_patch_file.
    - intros y [Hu Hy]%(elem_of_walk scan' scan_perm') Hr.
      destruct (captured_patch_aim y) as [Heq _]; [|done|].
      + apply elem_of_dom. rewrite <- Hpf by done. by apply elem_of_dom.
      + by rewrite Hr in Heq. }
  rewrite Hpf, Hfile in Htext by apply under_patch_file.
  injection Htext as <-.
  exists b, new. by rewrite <- Hbase.
Qed.

End round_trip.

(** What a file read in text mode gives holds no carriage return, and a
    text without one is read as it is. *)
Lemma universal_newlines_no_CR n l :
  length l ≤ n → CR ∉ universal_newlines l.
Proof.
  revert l. induction n as [|n IH]; intros [|c rest] Hn; simpl in *;
    try (by apply not_elem_of_nil); [lia|].
  case_decide.
  - apply not_elem_of_cons. split; [done|].
    destruct rest as [|d rest']; [by apply not_elem_of_nil|].
    simpl in Hn. case_decide; apply IH; simpl; lia.
  - apply not_elem_of_cons. split; [done|]. apply IH. lia.
Qed.

Lemma universal_newlines_id l : CR ∉ l → universal_newlines l = l.
Proof.
  induction l as [|c l IH]; [done|]. intros [Hc Hl]%not_elem_of_cons.
  simpl. rewrite decide_False by done. f_equal. by apply IH.
Qed.

Lemma read_text_idemp w : read_text (read_text w) = read_text w.
Proof.
  unfold read_text. rewrite chars_str. f_equal.
  apply universal_newlines_id. by eapply universal_newlines_no_CR.
Qed.



(** [copytree] raises when a directory of the source is a file of the
    destination. *)
Lemma copytree_conflict src dst fs d :
  src ∈ dirs fs → d ∈ dirs fs → under src d →
  retarget src dst d ∈ dom (files fs) →
  ∃ e, copytree src dst fs = inl e.
Proof.
  intros Hsrc Hd Hu Hfile. unfold copytree.
  rewrite bool_decide_true by done. simpl.
  destruct (makedirs dst true fs) as [e|fs1] eqn:Hmk; simpl; [by exists e|].
  apply makedirs_spec in Hmk as (Hfiles & _).
  rewrite bool_decide_true; [by eexists|].
  right. apply Exists_exists. exists d. split.
  - apply list_elem_of_filter. split; [done|]. by apply elem_of_elements.
  - by rewrite Hfiles.
Qed.



Lemma mismatch_fs_wf : wf mismatch_fs.
Proof. apply wf_check_sound. vm_compute. reflexivity. Qed.


Lemma apply_patches_needs_targets_witness :
  ∃ fs',
    apply_patches Patcher.apply_patch scan_sorted "_src" "_patches"
      misnamed_fs = inr fs'
    ∧ dom (files fs') = dom (files misnamed_fs).
Proof.
  destruct (apply_patches Patcher.apply_patch scan_sorted "_src" "_patches"
              misnamed_fs) as [e|fs'] eqn:Hrun;
    [vm_compute in Hrun; discriminate|].
  exists fs'. split; [reflexivity|].
  apply (apply_patches_needs_targets Patcher.apply_patch scan_sorted
           "_src" "_patches" misnamed_fs fs' scan_sorted_perm Hrun).
Defined.

Lemma metadata_fs_wf : wf metadata_fs.
Proof. apply wf_check_sound. vm_compute. reflexivity. Qed.

Lemma setup_clean_cache_witness :
  setup_clean fetch_one "metadata" "_clean" false metadata_fs
    = inr (true, metadata_fs)
  ∧ setup_clean fetch_one "metadata" "_fetched" true metadata_fs
    = fetch_one "metadata" "_fetched" metadata_fs.
Proof.
  split.
  - destruct (setup_clean_cache fetch_one "metadata" "_clean" metadata_fs)
      as [H _].
    apply H. apply (bool_decide_unpack _). vm_compute. exact I.
  - destruct (setup_clean_cache fetch_one "metadata" "_fetched" metadata_fs)
      as [_ H].
    apply H. apply (bool_decide_unpack _). vm_compute. exact I.
Defined.

Lemma read_metadata_import_witness :
  read_metadata text_codec text_codec text_codec id ask_user scheme_of
      offline "ws" (Some "https://example.org/project_metadata.json")
      metadata_fs
    = read_metadata text_codec text_codec text_codec id ask_user scheme_of
        offline "ws" None metadata_fs
  ∧ read_metadata text_codec text_codec text_codec id ask_user scheme_of
      offline "ws" (Some "shared") metadata_fs
    = inl (IsADirectoryError "shared").
Proof.
  split.
  - destruct (read_metadata_import text_codec text_codec text_codec id
                ask_user scheme_of offline "ws"
                "https://example.org/project_metadata.json" metadata_fs)
      as (H & _ & _).
    apply H; [|reflexivity].
    apply (bool_decide_unpack _). vm_compute. exact I.
  - destruct (read_metadata_import text_codec text_codec text_codec id
                ask_user scheme_of offline "ws" "shared" metadata_fs)
      as (_ & _ & H).
    apply H; apply (bool_decide_unpack _); vm_compute; exact I.
Defined.

Lemma write_metadata_then_read_witness :
  ∃ result,
    write_metadata_to_file text_codec id "fresh" "metadata" metadata_fs
      = inr result
    ∧ read_metadata text_codec text_codec text_codec id ask_user scheme_of
        offline "fresh" None result.2
      = inr ("metadata", result.2).
Proof.
  destruct (write_metadata_to_file text_codec id "fresh" "metadata"
              metadata_fs) as [e|result] eqn:Hrun;
    [vm_compute in Hrun; discriminate|].
  exists result. split; [reflexivity|].
  destruct (write_metadata_then_read text_codec text_codec text_codec id
              ask_user scheme_of offline "fresh" "metadata" "metadata"
              metadata_fs result eq_refl Hrun) as (_ & _ & _ & H).
  destruct (H eq_refl eq_refl) as [_ Hread]. exact Hread.
Defined.

Lemma write_metadata_needs_directory_witness :
  write_metadata_to_file text_codec id "nowhere" "metadata" metadata_fs
  = inl (FileNotFoundError "nowhere/project_metadata.json")
  ∧ write_metadata_to_file text_codec id "_clean/a.txt" "metadata"
      metadata_fs
    = inl (NotADirectoryError "_clean/a.txt/project_metadata.json").
Proof.
  split.
  - destruct (write_metadata_needs_directory text_codec text_codec
                text_codec id ask_user scheme_of offline "nowhere"
                metadata_fs metadata_fs_wf) as (_ & _ & H & _).
    + split; [discriminate|reflexivity].
    + apply (bool_decide_unpack _). vm_compute. exact I.
    + apply H. intros d Hw Hd. each_file Hd; not_under Hw.
  - destruct (write_metadata_needs_directory text_codec text_codec
                text_codec id ask_user scheme_of offline "_clean/a.txt"
                metadata_fs metadata_fs_wf) as (_ & H & _).
    + split; [discriminate|reflexivity].
    + apply (bool_decide_unpack _). vm_compute. exact I.
    + apply H. apply (bool_decide_unpack _). vm_compute. exact I.
Defined.

Lemma deleted_fs_wf : wf deleted_fs.
Proof. apply wf_check_sound. vm_compute. reflexivity. Qed.

Lemma nested_fs_wf : wf nested_fs.
Proof. apply wf_check_sound. vm_compute. reflexivity. Qed.




Lemma replaced_fs_wf : wf replaced_fs.
Proof. apply wf_check_sound. vm_compute. reflexivity. Qed.


End WorkspaceSpec.
